(** * mem: a shallow embedding of the memory subsystem

    The development follows the TypeScript sources module by module:

    - [JSNumber]          JavaScript numbers (IEEE-754 binary64) and the
                          binary32 encoding used by [Buffer.writeFloatLE];
    - [VectorOperations]  src/vector/operations.ts;
    - [LRU], [MemoryCache] the lru-cache package as the code uses it, and
                          src/cache/lru-cache.ts on top of it;
    - [Pool]              src/database/pool.ts;
    - [Sql]               the SQL client as the code drives it;
    - [Migrations]        src/database/migrations.ts and schema.ts;
    - [Storage]           src/services/storage.ts;
    - [VectorIndex]       src/vector/index.ts;
    - [MemoryService]     src/services/memory-service.ts.

    Definitions come first; the theorems about them are grouped after the
    last definition. *)

From Stdlib Require Import ZArith NArith String Ascii List Bool Lia.
From Stdlib Require Import Sorting.Sorted Sorting.Permutation.
From Stdlib Require Import Floats.SpecFloat.
From Stdlib Require Strings.Byte.
Import ListNotations.

Set Implicit Arguments.
Local Open Scope Z_scope.

(** ** Errors and results

    Every [throw new Error(...)] of the sources is one constructor; a rejected
    promise and a thrown exception are both [Err]. *)

Inductive error : Type :=
| VectorDimensionsMustMatch (la lb : nat)   (* operations.ts: "Vector dimensions must match" *)
| EmbeddingDimensions (got expected : nat)  (* operations.ts: validateDimensions *)
| BufferOutOfRange                          (* Buffer.readFloatLE past the end *)
| UnknownTableType (table : string)         (* index.ts: getTableType default branch *)
| NoEmbeddingFound (table id : string)      (* index.ts: findSimilar *)
| SqlError (msg : string)                   (* an error raised by the SQL engine *)
| PoolShuttingDown                          (* pool.ts: "Connection pool is shutting down" *)
| ConnectionTimeout                         (* pool.ts: "Connection timeout after ..." *)
| MaximumConnectionsReached                 (* pool.ts: createConnection *)
| ConnectFailed                             (* connection.ts: connect() rethrows *)
| NotInitialized                            (* memory-service.ts: ensureInitialized *)
| UndefinedArgument.                        (* the client's TypeError on [undefined] *)

Inductive result (A : Type) : Type :=
| Ok (a : A)
| Err (e : error).
Arguments Ok {A} a.
Arguments Err {A} e.

Definition bind {A B} (r : result A) (k : A -> result B) : result B :=
  match r with
  | Ok a => k a
  | Err e => Err e
  end.

Notation "x <- r ;; k" := (bind r (fun x => k))
  (at level 61, r at next level, right associativity).

(** ** JavaScript numbers *)

Module JSNumber.

(** A JavaScript number is an IEEE-754 binary64 value. *)
Definition prec : Z := 53.
Definition emax : Z := 1024.

Definition number : Type := spec_float.

Definition zero : number := S754_zero false.
Definition nan : number := S754_nan.

Definition add : number -> number -> number := SFadd prec emax.
Definition sub : number -> number -> number := SFsub prec emax.
Definition mul : number -> number -> number := SFmul prec emax.
Definition div : number -> number -> number := SFdiv prec emax.
Definition sqrt : number -> number := SFsqrt prec emax.

(** [x === y] on numbers: NaN differs from everything, [+0 === -0]. *)
Definition strict_eq (x y : number) : bool := SFeqb x y.
(** [x >= y] and [x > y]. *)
Definition ge (x y : number) : bool := SFleb y x.
Definition gt (x y : number) : bool := SFltb y x.
Definition lt (x y : number) : bool := SFltb x y.

Definition is_nan (x : number) : bool :=
  match x with S754_nan => true | _ => false end.

(** The number denoted by an integer literal or held by an integer
    counter. *)
Definition of_Z (z : Z) : number := binary_normalize prec emax z 0 false.

(** ToIntegerOrInfinity restricted to what [Array.prototype.slice] needs:
    NaN is 0, the fraction is dropped; [inr s] is the infinity of sign
    [s]. *)
Definition trunc (x : number) : Z + bool :=
  match x with
  | S754_nan => inl 0
  | S754_zero _ => inl 0
  | S754_infinity s => inr s
  | S754_finite s m e =>
      let a := match e with
               | Zneg p => Z.shiftr (Zpos m) (Zpos p)
               | _ => Z.shiftl (Zpos m) e
               end in
      inl (if s then - a else a)
  end.

(** *** binary32, the format of [Buffer.writeFloatLE] / [readFloatLE] *)

Definition prec32 : Z := 24.
Definition emax32 : Z := 128.

(** Conversion of a double to the nearest single (ties to even), as the
    typed-array store behind [writeFloatLE] performs it. *)
Definition to_single (x : number) : spec_float :=
  match x with
  | S754_finite s m e => binary_round prec32 emax32 s m e
  | _ => x
  end.

(** Widening of a single to a double; it is exact. *)
Definition of_single (x : spec_float) : number :=
  match x with
  | S754_finite s m e => binary_round prec emax s m e
  | _ => x
  end.

(** [Math.fround]. *)
Definition fround (x : number) : number := of_single (to_single x).

(** The 32-bit pattern of a single: sign, 8 exponent bits, 23 fraction
    bits.  NaN is stored as the quiet NaN 0x7fc00000. *)
Definition bits_of_single (x : spec_float) : Z :=
  match x with
  | S754_zero s => if s then 2 ^ 31 else 0
  | S754_infinity s => (if s then 2 ^ 31 else 0) + 255 * 2 ^ 23
  | S754_nan => 255 * 2 ^ 23 + 2 ^ 22
  | S754_finite s m e =>
      (if s then 2 ^ 31 else 0) +
      (if Zpos m <? 2 ^ 23 then Zpos m
       else (e + 150) * 2 ^ 23 + (Zpos m - 2 ^ 23))
  end.

(** Every NaN pattern is read as the one NaN of [spec_float]: the sign and
    the payload of a NaN are not kept. *)
Definition single_of_bits (w : Z) : spec_float :=
  let s := Z.testbit w 31 in
  let e := (w / 2 ^ 23) mod 256 in
  let f := w mod 2 ^ 23 in
  if e =? 0 then
    match f with
    | Zpos m => S754_finite s m (-149)
    | _ => S754_zero s
    end
  else if e =? 255 then
    (if f =? 0 then S754_infinity s else S754_nan)
  else
    match f + 2 ^ 23 with
    | Zpos m => S754_finite s m (e - 150)
    | _ => S754_nan
    end.

End JSNumber.

(** ** src/vector/operations.ts *)

Module VectorOperations.
Import JSNumber.

Definition Embedding : Type := list number.
Definition Buffer : Type := list Byte.byte.

Definition byte_of_Z (z : Z) : Byte.byte :=
  match Byte.of_N (Z.to_N (z mod 256)) with
  | Some b => b
  | None => Byte.x00
  end.

Definition Z_of_byte (b : Byte.byte) : Z := Z.of_N (Byte.to_N b).

(** [buffer.writeFloatLE(value, offset)]: the four bytes written, least
    significant first. *)
Definition writeFloatLE (value : number) : list Byte.byte :=
  let w := bits_of_single (to_single value) in
  [byte_of_Z w; byte_of_Z (w / 2 ^ 8); byte_of_Z (w / 2 ^ 16); byte_of_Z (w / 2 ^ 24)].

(** [buffer.readFloatLE(offset)] on the four bytes found at the offset. *)
Definition readFloatLE (b0 b1 b2 b3 : Byte.byte) : number :=
  of_single (single_of_bits
    (Z_of_byte b0 + Z_of_byte b1 * 2 ^ 8 + Z_of_byte b2 * 2 ^ 16 + Z_of_byte b3 * 2 ^ 24)).

(** The buffer is allocated with [embedding.length * 4] bytes and filled
    four bytes per element, in order. *)
Fixpoint serializeEmbedding (embedding : Embedding) : Buffer :=
  match embedding with
  | [] => []
  | value :: rest => writeFloatLE value ++ serializeEmbedding rest
  end.

(** The loop runs while [i < buffer.length / 4]; with a trailing partial
    group of bytes the last [readFloatLE] is past the end and throws. *)
Fixpoint deserializeEmbedding (buffer : Buffer) : result Embedding :=
  match buffer with
  | [] => Ok []
  | b0 :: b1 :: b2 :: b3 :: rest =>
      embedding <- deserializeEmbedding rest ;;
      Ok (readFloatLE b0 b1 b2 b3 :: embedding)
  | _ => Err BufferOutOfRange
  end.

(** The accumulators [(dotProduct, normA, normB)] of the loop of
    [cosineSimilarity]; when the lengths agree the index loop visits the
    two arrays in step. *)
Fixpoint cosine_loop (a b : Embedding) (acc : number * number * number)
  : number * number * number :=
  match a, b with
  | x :: a', y :: b' =>
      let '(dotProduct, normA, normB) := acc in
      cosine_loop a' b' (add dotProduct (mul x y), add normA (mul x x), add normB (mul y y))
  | _, _ => acc
  end.

Definition cosineSimilarity (a b : Embedding) : result number :=
  if negb (Nat.eqb (length a) (length b)) then
    Err (VectorDimensionsMustMatch (length a) (length b))
  else
    let '(dotProduct, normA, normB) := cosine_loop a b (zero, zero, zero) in
    let normA := sqrt normA in
    let normB := sqrt normB in
    if strict_eq normA zero || strict_eq normB zero then Ok zero
    else Ok (div dotProduct (mul normA normB)).

Definition sum_squares (vector : Embedding) (sum : number) : number :=
  fold_left (fun sum value => add sum (mul value value)) vector sum.

Definition magnitude (vector : Embedding) : number :=
  sqrt (sum_squares vector zero).

Definition validateDimensions (embedding : Embedding) (expectedDimensions : nat)
  : result unit :=
  if negb (Nat.eqb (length embedding) expectedDimensions) then
    Err (EmbeddingDimensions (length embedding) expectedDimensions)
  else Ok tt.


(** The loop of [euclideanDistance]. *)
Fixpoint distance_loop (a b : Embedding) (sum : number) : number :=
  match a, b with
  | x :: a', y :: b' =>
      let diff := sub x y in
      distance_loop a' b' (JSNumber.add sum (mul diff diff))
  | _, _ => sum
  end.

Definition euclideanDistance (a b : Embedding) : result number :=
  if negb (Nat.eqb (length a) (length b)) then
    Err (VectorDimensionsMustMatch (length a) (length b))
  else Ok (sqrt (distance_loop a b zero)).

(** The loop of [dotProduct]. *)
Fixpoint dot_loop (a b : Embedding) (product : number) : number :=
  match a, b with
  | x :: a', y :: b' => dot_loop a' b' (JSNumber.add product (mul x y))
  | _, _ => product
  end.

Definition dotProduct (a b : Embedding) : result number :=
  if negb (Nat.eqb (length a) (length b)) then
    Err (VectorDimensionsMustMatch (length a) (length b))
  else Ok (dot_loop a b zero).

End VectorOperations.

(** ** The lru-cache package, as src/cache/lru-cache.ts uses it

    [LRUCache] is configured with [max], [ttl], [updateAgeOnGet] and a
    [dispose] hook that only logs.  The items are kept most recently used
    first, which is also the iteration order of the package. *)

Module LRU.
Section WithValue.
Variable V : Type.

Record item : Type := Item { item_key : string; item_value : V; item_start : Z }.

Record t : Type := Make {
  max : nat;
  ttl : Z;
  updateAgeOnGet : bool;
  items : list item
}.

Definition with_items (c : t) (l : list item) : t :=
  Make (max c) (ttl c) (updateAgeOnGet c) l.

Definition size (c : t) : nat := length (items c).

Fixpoint lookup (k : string) (l : list item) : option item :=
  match l with
  | [] => None
  | it :: l' => if String.eqb (item_key it) k then Some it else lookup k l'
  end.

Fixpoint remove (k : string) (l : list item) : list item :=
  match l with
  | [] => []
  | it :: l' => if String.eqb (item_key it) k then l' else it :: remove k l'
  end.

(** An item is stale once [now - start > ttl]; [ttl = 0] means no
    expiry. *)
Definition isStale (c : t) (now : Z) (it : item) : bool :=
  negb (ttl c =? 0) && (ttl c <? now - item_start it).

(** [cache.get(k)]: a stale item is deleted and reported as absent; a
    fresh one becomes the most recently used, and its age restarts when
    [updateAgeOnGet] is set. *)
Definition get (c : t) (k : string) (now : Z) : option V * t :=
  match lookup k (items c) with
  | None => (None, c)
  | Some it =>
      if isStale c now it then (None, with_items c (remove k (items c)))
      else
        let it' := if updateAgeOnGet c then Item k (item_value it) now else it in
        (Some (item_value it), with_items c (it' :: remove k (items c)))
  end.

(** [cache.peek(k)] and [cache.has(k)] leave the cache as it is. *)
Definition peek (c : t) (k : string) (now : Z) : option V :=
  match lookup k (items c) with
  | Some it => if isStale c now it then None else Some (item_value it)
  | None => None
  end.

Definition has (c : t) (k : string) (now : Z) : bool :=
  match peek c k now with Some _ => true | None => false end.

(** [cache.set(k, v)]: an existing key is replaced and becomes the most
    recently used; a new key evicts the least recently used item when
    the cache already holds [max] items. *)
Definition set (c : t) (k : string) (v : V) (now : Z) : t :=
  match lookup k (items c) with
  | Some _ => with_items c (Item k v now :: remove k (items c))
  | None =>
      let kept :=
        if Nat.eqb (size c) (max c) && negb (Nat.eqb (max c) 0)
        then removelast (items c) else items c in
      with_items c (Item k v now :: kept)
  end.

Definition delete (c : t) (k : string) : bool * t :=
  match lookup k (items c) with
  | Some _ => (true, with_items c (remove k (items c)))
  | None => (false, c)
  end.

Definition clear (c : t) : t := with_items c [].

Definition purgeStale (c : t) (now : Z) : t :=
  with_items c (filter (fun it => negb (isStale c now it)) (items c)).

Definition getRemainingTTL (c : t) (k : string) (now : Z) : Z :=
  match lookup k (items c) with
  | Some it => if ttl c =? 0 then 0 (* Infinity in the package; unused here *)
               else Z.max 0 (ttl c - (now - item_start it))
  | None => 0
  end.

(** The stored values are objects: a field update through a reference
    obtained from [get] is seen by the cache. *)
Definition modify (c : t) (k : string) (f : V -> V) : t :=
  with_items c
    (map (fun it => if String.eqb (item_key it) k
                    then Item (item_key it) (f (item_value it)) (item_start it)
                    else it) (items c)).
End WithValue.
End LRU.

(** ** src/cache/lru-cache.ts *)

Module MemoryCache.
Import JSNumber.

Record CacheConfig : Type := {
  cfg_maxSize : nat;
  cfg_ttl : Z;
  cfg_updateAgeOnGet : option bool
}.

Record Stats : Type := { hits : N; misses : N; sets : N; deletes : N }.

Record CacheStats : Type := {
  size : nat;
  maxSize : nat;
  hitRate : number;
  totalHits : N;
  totalMisses : N;
  totalSets : N;
  totalDeletes : N
}.

(** [new LRUCache({ max, ttl, ... })] throws a TypeError when [max] and
    [ttl] are both 0 ("At least one of max, maxSize, or ttl is required")
    and when [ttl] is negative; [constructible] holds of the configurations
    it takes.  [create] below is the cache it then builds. *)
Definition constructible (config : CacheConfig) : bool :=
  (0 <=? cfg_ttl config) && negb (Nat.eqb (cfg_maxSize config) 0 && (cfg_ttl config =? 0)).

Section WithValue.
Variable T : Type.

Record CacheEntry : Type := Entry { value : T; timestamp : Z; hitCount : N }.

Record t : Type := { cache : LRU.t CacheEntry; stats : Stats }.

Definition create (config : CacheConfig) : t :=
  {| cache := LRU.Make (cfg_maxSize config) (cfg_ttl config)
                (match cfg_updateAgeOnGet config with Some b => b | None => true end) [];
     stats := {| hits := 0; misses := 0; sets := 0; deletes := 0 |} |}.

Definition bump (entry : CacheEntry) : CacheEntry :=
  Entry (value entry) (timestamp entry) (hitCount entry + 1).

Definition hit (s : Stats) : Stats :=
  {| hits := hits s + 1; misses := misses s; sets := sets s; deletes := deletes s |}.
Definition miss (s : Stats) : Stats :=
  {| hits := hits s; misses := misses s + 1; sets := sets s; deletes := deletes s |}.

Definition get (c : t) (key : string) (now : Z) : option T * t :=
  match LRU.get (cache c) key now with
  | (Some entry, lru) =>
      (Some (value entry), {| cache := LRU.modify lru key bump; stats := hit (stats c) |})
  | (None, lru) => (None, {| cache := lru; stats := miss (stats c) |})
  end.

Definition set (c : t) (key : string) (v : T) (now : Z) : t :=
  {| cache := LRU.set (cache c) key (Entry v now 0) now;
     stats := {| hits := hits (stats c); misses := misses (stats c);
                 sets := sets (stats c) + 1; deletes := deletes (stats c) |} |}.

Definition has (c : t) (key : string) (now : Z) : bool := LRU.has (cache c) key now.

Definition delete (c : t) (key : string) : bool * t :=
  match LRU.delete (cache c) key with
  | (true, lru) =>
      (true, {| cache := lru;
                stats := {| hits := hits (stats c); misses := misses (stats c);
                            sets := sets (stats c); deletes := deletes (stats c) + 1 |} |})
  | (false, lru) => (false, {| cache := lru; stats := stats c |})
  end.

Definition clear (c : t) : t := {| cache := LRU.clear (cache c); stats := stats c |}.

Definition getWithMetadata (c : t) (key : string) (now : Z)
  : option (T * (Z * N)) * t :=
  match LRU.get (cache c) key now with
  | (Some entry, lru) =>
      (Some (value entry, (timestamp entry, (hitCount entry + 1)%N)),
       {| cache := LRU.modify lru key bump; stats := hit (stats c) |})
  | (None, lru) => (None, {| cache := lru; stats := miss (stats c) |})
  end.

Definition peek (c : t) (key : string) (now : Z) : option T :=
  option_map value (LRU.peek (cache c) key now).

Definition getStats (c : t) : CacheStats :=
  let totalRequests := (hits (stats c) + misses (stats c))%N in
  let hitRate :=
    if (0 <? totalRequests)%N
    then div (of_Z (Z.of_N (hits (stats c)))) (of_Z (Z.of_N totalRequests))
    else zero in
  {| size := LRU.size (cache c);
     maxSize := LRU.max (cache c);
     hitRate := hitRate;
     totalHits := hits (stats c);
     totalMisses := misses (stats c);
     totalSets := sets (stats c);
     totalDeletes := deletes (stats c) |}.

Definition resetStats (c : t) : t :=
  {| cache := cache c; stats := {| hits := 0; misses := 0; sets := 0; deletes := 0 |} |}.

Definition prune (c : t) (now : Z) : nat * t :=
  let lru := LRU.purgeStale (cache c) now in
  (LRU.size (cache c) - LRU.size lru, {| cache := lru; stats := stats c |})%nat.

Definition warmUp (c : t) (entries : list (string * T)) (now : Z) : t :=
  fold_left (fun c kv => set c (fst kv) (snd kv) now) entries c.

(** [load] writes to the underlying cache directly, so it does not count
    as a set. *)
Definition load (c : t) (dump : list (string * T * Z)) (now : Z) : t :=
  fold_left
    (fun c kvt =>
       {| cache := LRU.set (cache c) (fst (fst kvt)) (Entry (snd (fst kvt)) (snd kvt) 0) now;
          stats := stats c |})
    dump c.

(** One call on the cache.  The read-only calls ([keys], [values],
    [entries], [getRemainingTTL], [getStats], [getTopHitEntries],
    [dump], [has], [peek]) leave the state as it is. *)
Inductive op : Type :=
| OpGet (key : string)
| OpGetWithMetadata (key : string)
| OpSet (key : string) (v : T)
| OpDelete (key : string)
| OpClear
| OpPrune
| OpResetStats
| OpWarmUp (entries : list (string * T))
| OpLoad (dump : list (string * T * Z))
| OpReadOnly.

(** [now] is the clock reading at the call. *)
Definition apply (c : t) (call : Z * op) : t :=
  let '(now, o) := call in
  match o with
  | OpGet key => snd (get c key now)
  | OpGetWithMetadata key => snd (getWithMetadata c key now)
  | OpSet key v => set c key v now
  | OpDelete key => snd (delete c key)
  | OpClear => clear c
  | OpPrune => snd (prune c now)
  | OpResetStats => resetStats c
  | OpWarmUp entries => warmUp c entries now
  | OpLoad dump => load c dump now
  | OpReadOnly => c
  end.

Definition run (c : t) (calls : list (Z * op)) : t := fold_left apply calls c.

Definition is_request (o : op) : bool :=
  match o with
  | OpGet _ | OpGetWithMetadata _ => true
  | _ => false
  end.

(** The number of [get] / [getWithMetadata] calls made since the last
    [resetStats] (or since the start). *)
Fixpoint requests_since_reset (calls : list (Z * op)) (n : N) : N :=
  match calls with
  | [] => n
  | (_, OpResetStats) :: rest => requests_since_reset rest 0
  | (_, o) :: rest => requests_since_reset rest (if is_request o then n + 1 else n)
  end.

(** The iterators of the underlying cache go from the most recently used
    item to the least recently used one and skip stale items. *)
Definition live (c : t) (now : Z) : list (LRU.item CacheEntry) :=
  filter (fun it => negb (LRU.isStale (cache c) now it)) (LRU.items (cache c)).

Definition keys (c : t) (now : Z) : list string :=
  map (@LRU.item_key _) (live c now).

Definition values (c : t) (now : Z) : list T :=
  map (fun it => value (LRU.item_value it)) (live c now).

Definition entries (c : t) (now : Z) : list (string * T) :=
  map (fun it => (LRU.item_key it, value (LRU.item_value it))) (live c now).

Definition dump (c : t) (now : Z) : list (string * T * Z) :=
  map (fun it => (LRU.item_key it, value (LRU.item_value it), timestamp (LRU.item_value it)))
      (live c now).

End WithValue.
End MemoryCache.

(** ** src/database/pool.ts

    The methods of [ConnectionPool] are asynchronous: each runs without
    interruption only up to its next [await].  The model therefore has one
    transition per uninterrupted segment.  A segment that ends in an [await]
    leaves a [task] behind; the completion of the awaited promise is a later
    transition that resumes the task. *)

Module Pool.

(** Object identity of a [DatabaseConnection], and identity of a pending
    [getConnection] promise (its [resolve] closure). *)
Definition Conn : Type := nat.
Definition Caller : Type := nat.

Record t : Type := {
  connections : list Conn;
  availableConnections : list Conn;
  activeConnections : list Conn;   (* a Set, in insertion order *)
  waitingQueue : list Caller;
  maxConnections : nat;            (* a non-negative integer; the constructor
                                      takes any number, unvalidated *)
  isShuttingDown : bool;
  nextConn : Conn                  (* the next object to be allocated by [new] *)
}.

Record PoolStats : Type := {
  stat_activeConnections : nat;
  stat_idleConnections : nat;
  stat_totalConnections : nat;
  stat_maxConnections : nat;
  stat_waitingRequests : nat
}.

Definition getStats (p : t) : PoolStats :=
  {| stat_activeConnections := length (activeConnections p);
     stat_idleConnections := length (availableConnections p);
     stat_totalConnections := length (connections p);
     stat_maxConnections := maxConnections p;
     stat_waitingRequests := length (waitingQueue p) |}.

Definition create (maxConnections : nat) : t :=
  {| connections := []; availableConnections := []; activeConnections := [];
     waitingQueue := []; maxConnections := maxConnections;
     isShuttingDown := false; nextConn := 0%nat |}.

(** *** Array and Set primitives *)

Definition has (c : nat) (l : list nat) : bool := existsb (Nat.eqb c) l.

(** [array.splice(array.indexOf(c), 1)] when the index is not -1, and
    [set.delete(c)]. *)
Fixpoint remove_first (c : nat) (l : list nat) : list nat :=
  match l with
  | [] => []
  | x :: l' => if Nat.eqb c x then l' else x :: remove_first c l'
  end.

(** [set.add(c)]. *)
Definition set_add (c : nat) (s : list nat) : list nat :=
  if has c s then s else s ++ [c].

(** [array.pop()]: the last element and the remaining array. *)
Fixpoint pop (l : list nat) : option (nat * list nat) :=
  match l with
  | [] => None
  | x :: l' =>
      match pop l' with
      | None => Some (x, [])
      | Some (y, r) => Some (y, x :: r)
      end
  end.

Definition pop_rest (l : list nat) : list nat :=
  match pop l with Some (_, r) => r | None => [] end.

(** *** Pending continuations *)

Inductive task : Type :=
| AwaitHealth (k : Caller) (c : Conn)       (* getConnection at [await connection.healthCheck()] *)
| AwaitDisconnect (k : Caller) (c : Conn)   (* getConnection at [await this.removeConnection(c)] *)
| AwaitConnect (k : Caller) (c : Conn)      (* createConnection at [await connection.connect()] *)
| AwaitCreate (k : Caller) (c : Conn)       (* getConnection at [await this.createConnection()] *)
| AwaitInitConnect (c : Conn)               (* initialize at [await Promise.all(promises)] *)
| AwaitCleanup (rest : list Conn)           (* cleanupIdleConnections inside its loop *)
| AwaitShutdown.                            (* shutdown at [await Promise.all(closePromises)] *)

(** A promise handed out by [getConnection] is settled with a connection or
    with an error. *)
Definition settlement : Type := (Caller * result Conn)%type.

Record sys : Type := {
  pool : t;
  pending : list task;
  settled : list settlement    (* oldest first *)
}.

Definition task_eqb (a b : task) : bool :=
  match a, b with
  | AwaitHealth k c, AwaitHealth k' c' => Nat.eqb k k' && Nat.eqb c c'
  | AwaitDisconnect k c, AwaitDisconnect k' c' => Nat.eqb k k' && Nat.eqb c c'
  | AwaitConnect k c, AwaitConnect k' c' => Nat.eqb k k' && Nat.eqb c c'
  | AwaitCreate k c, AwaitCreate k' c' => Nat.eqb k k' && Nat.eqb c c'
  | AwaitInitConnect c, AwaitInitConnect c' => Nat.eqb c c'
  | AwaitCleanup r, AwaitCleanup r' => if list_eq_dec Nat.eq_dec r r' then true else false
  | AwaitShutdown, AwaitShutdown => true
  | _, _ => false
  end.

(** Removes the first pending task equal to [a]; [None] when there is
    none. *)
Fixpoint take (a : task) (l : list task) : option (list task) :=
  match l with
  | [] => None
  | b :: l' =>
      if task_eqb a b then Some l'
      else match take a l' with
           | Some r => Some (b :: r)
           | None => None
           end
  end.

(** *** The segments of the methods *)

Definition set_lists (p : t) (conns avail active : list Conn) : t :=
  {| connections := conns; availableConnections := avail; activeConnections := active;
     waitingQueue := waitingQueue p; maxConnections := maxConnections p;
     isShuttingDown := isShuttingDown p; nextConn := nextConn p |}.

Definition set_queue (p : t) (q : list Caller) : t :=
  {| connections := connections p; availableConnections := availableConnections p;
     activeConnections := activeConnections p;
     waitingQueue := q; maxConnections := maxConnections p;
     isShuttingDown := isShuttingDown p; nextConn := nextConn p |}.

(** [removeConnection] up to [await connection.disconnect()]. *)
Definition removeConnection (c : Conn) (p : t) : t :=
  set_lists p (remove_first c (connections p))
              (remove_first c (availableConnections p))
              (remove_first c (activeConnections p)).

(** [createConnection] after [await connection.connect()] has succeeded. *)
Definition createConnection_finish (c : Conn) (p : t) : t :=
  set_lists p (connections p ++ [c]) (availableConnections p ++ [c]) (activeConnections p).

(** [new DatabaseConnection(...)]. *)
Definition allocate (p : t) : Conn * t :=
  (nextConn p,
   {| connections := connections p; availableConnections := availableConnections p;
      activeConnections := activeConnections p;
      waitingQueue := waitingQueue p; maxConnections := maxConnections p;
      isShuttingDown := isShuttingDown p; nextConn := S (nextConn p) |}).

(** The final part of [getConnection]: "Wait for a connection to become
    available". *)
Definition enqueue (k : Caller) (s : sys) : sys :=
  {| pool := set_queue (pool s) (waitingQueue (pool s) ++ [k]);
     pending := pending s; settled := settled s |}.

Definition settle (k : Caller) (r : result Conn) (s : sys) : sys :=
  {| pool := pool s; pending := pending s; settled := settled s ++ [(k, r)] |}.

Definition with_pool (s : sys) (p : t) : sys :=
  {| pool := p; pending := pending s; settled := settled s |}.

Definition spawn (a : task) (s : sys) : sys :=
  {| pool := pool s; pending := pending s ++ [a]; settled := settled s |}.

(** [getConnection] from its entry to its first [await], to the enqueueing
    of a waiter, or to the throw. *)
Definition getConnection (k : Caller) (s : sys) : sys :=
  let p := pool s in
  if isShuttingDown p then settle k (Err PoolShuttingDown) s
  else
    match pop (availableConnections p) with
    | Some (c, rest) =>
        spawn (AwaitHealth k c)
          (with_pool s (set_lists p (connections p) rest (set_add c (activeConnections p))))
    | None =>
        if Nat.ltb (length (connections p)) (maxConnections p) then
          let '(c, p') := allocate p in
          spawn (AwaitConnect k c) (with_pool s p')
        else enqueue k s
    end.

(** [connection.healthCheck()] has answered. *)
Definition health_result (k : Caller) (c : Conn) (ok : bool) (s : sys) : sys :=
  if ok then settle k (Ok c) s
  else spawn (AwaitDisconnect k c) (with_pool s (removeConnection c (pool s))).

(** [connection.connect()] has answered inside [createConnection], called
    from [getConnection].  On success the connection is pushed on both
    arrays and [createConnection] returns; [getConnection] resumes one
    turn of the job queue later.  On failure the error is logged and the
    caller waits. *)
Definition connect_result (k : Caller) (c : Conn) (ok : bool) (s : sys) : sys :=
  if ok then spawn (AwaitCreate k c) (with_pool s (createConnection_finish c (pool s)))
  else enqueue k s.

(** [getConnection] after [await this.createConnection()]: it pops the
    available array ("Remove from available since we're returning it") and
    marks the connection active. *)
Definition created (k : Caller) (c : Conn) (s : sys) : sys :=
  let p := pool s in
  settle k (Ok c)
    (with_pool s (set_lists p (connections p) (pop_rest (availableConnections p))
                            (set_add c (activeConnections p)))).

(** [releaseConnection]. *)
Definition releaseConnection (c : Conn) (s : sys) : sys :=
  let p := pool s in
  if negb (has c (activeConnections p)) then s
  else
    let active := remove_first c (activeConnections p) in
    match waitingQueue p with
    | waiter :: queue =>
        settle waiter (Ok c)
          (with_pool s (set_queue (set_lists p (connections p) (availableConnections p)
                                             (set_add c active)) queue))
    | [] =>
        with_pool s (set_lists p (connections p) (availableConnections p ++ [c]) active)
    end.

(** The timer of a waiter fires: the waiter leaves the queue and its
    promise is rejected.  The timer of a served or rejected waiter has been
    cleared. *)
Definition timeout (k : Caller) (s : sys) : sys :=
  if has k (waitingQueue (pool s)) then
    settle k (Err ConnectionTimeout)
      (with_pool s (set_queue (pool s) (remove_first k (waitingQueue (pool s)))))
  else s.

(** [initialize]: [Math.min(2, maxConnections)] calls of [createConnection]
    are started one after the other; each tests the limit and reaches
    [await connection.connect()] before any of them continues. *)
Fixpoint initialize_loop (n : nat) (s : sys) : sys :=
  match n with
  | O => s
  | S n' =>
      if Nat.leb (maxConnections (pool s)) (length (connections (pool s))) then
        initialize_loop n' s   (* "Maximum connections reached" *)
      else
        let '(c, p') := allocate (pool s) in
        initialize_loop n' (spawn (AwaitInitConnect c) (with_pool s p'))
  end.

Definition initialize (s : sys) : sys :=
  initialize_loop (Nat.min 2 (maxConnections (pool s))) s.

Definition init_connect_result (c : Conn) (ok : bool) (s : sys) : sys :=
  if ok then with_pool s (createConnection_finish c (pool s)) else s.

(** [cleanupIdleConnections]: the excess idle connections are spliced off
    the front of the available array, then removed one by one. *)
Definition cleanup_next (rest : list Conn) (s : sys) : sys :=
  match rest with
  | [] => s
  | c :: rest' => spawn (AwaitCleanup rest') (with_pool s (removeConnection c (pool s)))
  end.

Definition cleanupIdleConnections (s : sys) : sys :=
  let p := pool s in
  if isShuttingDown p || Nat.leb (length (availableConnections p)) 2 then s
  else
    let excessConnections := (length (availableConnections p) - 2)%nat in
    let connectionsToRemove := firstn excessConnections (availableConnections p) in
    cleanup_next connectionsToRemove
      (with_pool s (set_lists p (connections p)
                              (skipn excessConnections (availableConnections p))
                              (activeConnections p))).

(** [shutdown] up to [await Promise.all(closePromises)], and after it. *)
Definition shutdown (s : sys) : sys :=
  let p := pool s in
  let p' :=
    {| connections := connections p; availableConnections := availableConnections p;
       activeConnections := activeConnections p; waitingQueue := [];
       maxConnections := maxConnections p; isShuttingDown := true;
       nextConn := nextConn p |} in
  spawn AwaitShutdown
    {| pool := p'; pending := pending s;
       settled := settled s ++ map (fun k => (k, Err PoolShuttingDown)) (waitingQueue p) |}.

Definition shutdown_finish (s : sys) : sys :=
  with_pool s (set_lists (pool s) [] [] []).

(** *** Transitions *)

Inductive action : Type :=
(* calls made by the users of the pool, and timers *)
| Initialize
| GetConnection (k : Caller)
| ReleaseConnection (c : Conn)
| Timeout (k : Caller)
| CleanupTick
| Shutdown
(* completions of awaited promises *)
| HealthResult (k : Caller) (c : Conn) (ok : bool)
| Disconnected (k : Caller) (c : Conn)
| ConnectResult (k : Caller) (c : Conn) (ok : bool)
| Created (k : Caller) (c : Conn)
| InitConnectResult (c : Conn) (ok : bool)
| CleanupRemoved (rest : list Conn)
| ShutdownClosed.

Definition resume (a : task) (s : sys) (k : sys -> sys) : option sys :=
  match take a (pending s) with
  | Some rest => Some (k {| pool := pool s; pending := rest; settled := settled s |})
  | None => None
  end.

(** [fire s a] is [None] when [a] is the completion of a promise nobody
    awaits. *)
Definition fire (s : sys) (a : action) : option sys :=
  match a with
  | Initialize => Some (initialize s)
  | GetConnection k => Some (getConnection k s)
  | ReleaseConnection c => Some (releaseConnection c s)
  | Timeout k => Some (timeout k s)
  | CleanupTick => Some (cleanupIdleConnections s)
  | Shutdown => Some (shutdown s)
  | HealthResult k c ok => resume (AwaitHealth k c) s (health_result k c ok)
  | Disconnected k c => resume (AwaitDisconnect k c) s (getConnection k)
  | ConnectResult k c ok => resume (AwaitConnect k c) s (connect_result k c ok)
  | Created k c => resume (AwaitCreate k c) s (created k c)
  | InitConnectResult c ok => resume (AwaitInitConnect c) s (init_connect_result c ok)
  | CleanupRemoved rest => resume (AwaitCleanup rest) s (cleanup_next rest)
  | ShutdownClosed => resume AwaitShutdown s shutdown_finish
  end.

Fixpoint run (s : sys) (trace : list action) : option sys :=
  match trace with
  | [] => Some s
  | a :: trace' =>
      match fire s a with
      | Some s' => run s' trace'
      | None => None
      end
  end.

Definition start (maxConnections : nat) : sys :=
  {| pool := create maxConnections; pending := []; settled := [] |}.

(** The states the pool can be in. *)
Definition reachable (maxConnections : nat) (s : sys) : Prop :=
  exists trace, run (start maxConnections) trace = Some s.

(** The invariant of the specification, on the figures of [getStats]. *)
Definition pool_invariant (st : PoolStats) : Prop :=
  (stat_activeConnections st + stat_idleConnections st <= stat_totalConnections st)%nat /\
  (stat_totalConnections st <= stat_maxConnections st)%nat /\
  (0 < stat_waitingRequests st -> stat_activeConnections st = stat_maxConnections st)%nat.

(** *** Non-overlapping use

    A trace is [sequential] when every call on the pool (and every timer)
    comes while no asynchronous method of the pool is pending, and
    [initialize] is only called on a pool that holds no connection.  The
    completions of a pending method come in between. *)
Definition is_call (a : action) : bool :=
  match a with
  | Initialize | GetConnection _ | ReleaseConnection _ | Timeout _
  | CleanupTick | Shutdown => true
  | _ => false
  end.

Definition may_enter (s : sys) (a : action) : bool :=
  if is_call a then
    match pending s with
    | [] =>
        match a, connections (pool s) with
        | Initialize, _ :: _ => false
        | _, _ => true
        end
    | _ :: _ => false
    end
  else true.

Fixpoint sequential (s : sys) (trace : list action) : bool :=
  match trace with
  | [] => true
  | a :: trace' =>
      may_enter s a &&
      match fire s a with
      | Some s' => sequential s' trace'
      | None => false
      end
  end.

(** No [connect()] fails along the trace. *)
Definition connects (a : action) : bool :=
  match a with
  | ConnectResult _ _ ok | InitConnectResult _ ok => ok
  | _ => true
  end.

End Pool.

(** ** The SQL client, as the code drives it

    The code talks to the database through [client.execute].  The model keeps
    what those statements read and write: the rows of the tables, the
    migration records, the names of the indexes and triggers, and the
    snapshot taken by [BEGIN TRANSACTION].  A statement that fails leaves the
    database as it found it.  Of the schema's constraints the model keeps the
    primary keys; the [CHECK] on [tier] is not modelled. *)

Module Sql.
Import VectorOperations.

(** Instants are milliseconds since the epoch, both for JavaScript [Date]s
    (stored through [toISOString]) and for the engine's
    [CURRENT_TIMESTAMP]. *)
Definition instant : Type := Z.

(** A row of one of the row tables.  The record has the columns of all three
    tables; a table leaves the columns it does not have at their defaults.
    [tags] holds the array whose JSON text is stored, [metadata] the JSON
    text itself. *)
Record Row : Type := {
  row_id : string;
  row_content : string;
  row_embedding : option Buffer;
  row_tags : list string;
  row_tier : Z;
  row_metadata : option string;
  row_created_at : instant;
  row_updated_at : instant;
  row_project_id : string;
  row_title : string;
  row_file_path : option string;
  row_name : string;
  row_channel_id : option string
}.

Record MigrationRow : Type := {
  mig_version : Z;
  mig_applied_at : instant;
  mig_description : string
}.

Record Data : Type := {
  tables : list (string * list Row);
  schema_migrations : option (list MigrationRow);   (* [None]: no such table *)
  indexes : list string;
  triggers : list (string * string)                 (* trigger name, table *)
}.

Record Db : Type := {
  data : Data;
  transaction : option Data    (* the state to return to on ROLLBACK *)
}.

(** Statements run in the database and may fail. *)
Definition M (A : Type) : Type := Db -> result A * Db.

Definition ret {A} (a : A) : M A := fun db => (Ok a, db).
Definition throw {A} (e : error) : M A := fun db => (Err e, db).
Definition mbind {A B} (m : M A) (k : A -> M B) : M B :=
  fun db => match m db with
            | (Ok a, db') => k a db'
            | (Err e, db') => (Err e, db')
            end.
(** [try { m } catch (error) { handler }]. *)
Definition try_catch {A} (m : M A) (handler : error -> M A) : M A :=
  fun db => match m db with
            | (Ok a, db') => (Ok a, db')
            | (Err e, db') => handler e db'
            end.

Declare Scope sql_scope.
Delimit Scope sql_scope with sql.
Notation "x <-- m ;;; k" := (mbind m (fun x => k))
  (at level 61, m at next level, right associativity) : sql_scope.
Notation "m ;;; k" := (mbind m (fun _ => k))
  (at level 61, right associativity) : sql_scope.
Local Open Scope sql_scope.

Fixpoint for_each {A} (l : list A) (body : A -> M unit) : M unit :=
  match l with
  | [] => ret tt
  | a :: l' => body a ;;; for_each l' body
  end.

Definition with_data (db : Db) (d : Data) : Db :=
  {| data := d; transaction := transaction db |}.

Definition with_tables (d : Data) (ts : list (string * list Row)) : Data :=
  {| tables := ts; schema_migrations := schema_migrations d;
     indexes := indexes d; triggers := triggers d |}.

(** Table names are identifiers: the engine compares them without regard to
    the case of ASCII letters. *)
Definition lower_ascii (c : ascii) : ascii :=
  let n := nat_of_ascii c in
  if (Nat.leb 65 n && Nat.leb n 90)%bool then ascii_of_nat (n + 32) else c.

Fixpoint lower (s : string) : string :=
  match s with
  | EmptyString => EmptyString
  | String c s' => String (lower_ascii c) (lower s')
  end.

Definition same_name (a b : string) : bool := String.eqb (lower a) (lower b).

(** The code splices the table name into the text of the statement, where
    the engine reads it as an identifier and resolves it among the tables
    without regard to case.  A name that is not a plain identifier of a row
    table (the empty name, a qualified name such as [main.rules], the name
    of the migrations table) is read otherwise by the engine and is outside
    this lookup. *)
Fixpoint find_table (name : string) (ts : list (string * list Row)) : option (list Row) :=
  match ts with
  | [] => None
  | (n, rows) :: ts' => if same_name n name then Some rows else find_table name ts'
  end.

Fixpoint set_table (name : string) (rows : list Row) (ts : list (string * list Row))
  : list (string * list Row) :=
  match ts with
  | [] => []
  | (n, old) :: ts' =>
      if same_name n name then (n, rows) :: ts' else (n, old) :: set_table name rows ts'
  end.

Definition no_such_table (name : string) : error := SqlError ("no such table: " ++ name).

(** [BEGIN TRANSACTION], [COMMIT], [ROLLBACK]. *)
Definition begin_transaction : M unit :=
  fun db => match transaction db with
            | Some _ => (Err (SqlError "cannot start a transaction within a transaction"), db)
            | None => (Ok tt, {| data := data db; transaction := Some (data db) |})
            end.

Definition commit : M unit :=
  fun db => match transaction db with
            | Some _ => (Ok tt, {| data := data db; transaction := None |})
            | None => (Err (SqlError "cannot commit - no transaction is active"), db)
            end.

Definition rollback : M unit :=
  fun db => match transaction db with
            | Some saved => (Ok tt, {| data := saved; transaction := None |})
            | None => (Err (SqlError "cannot rollback - no transaction is active"), db)
            end.

(** [CREATE TABLE IF NOT EXISTS name (...)] for a row table. *)
Definition create_table (name : string) : M unit :=
  fun db =>
    match find_table name (tables (data db)) with
    | Some _ => (Ok tt, db)
    | None => (Ok tt, with_data db (with_tables (data db) (tables (data db) ++ [(name, [])])))
    end.

Definition create_migrations_table : M unit :=
  fun db =>
    match schema_migrations (data db) with
    | Some _ => (Ok tt, db)
    | None =>
        (Ok tt, with_data db {| tables := tables (data db); schema_migrations := Some [];
                                indexes := indexes (data db); triggers := triggers (data db) |})
    end.

(** [CREATE INDEX IF NOT EXISTS name ON table(...)]. *)
Definition create_index (name table : string) : M unit :=
  fun db =>
    if existsb (same_name name) (indexes (data db)) then (Ok tt, db)
    else
      match find_table table (tables (data db)) with
      | None => (Err (no_such_table table), db)
      | Some _ =>
          (Ok tt, with_data db {| tables := tables (data db);
                                  schema_migrations := schema_migrations (data db);
                                  indexes := indexes (data db) ++ [name];
                                  triggers := triggers (data db) |})
      end.

(** [CREATE TRIGGER IF NOT EXISTS name AFTER UPDATE ON table ...]. *)
Definition create_trigger (name table : string) : M unit :=
  fun db =>
    if existsb (fun t => same_name name (fst t)) (triggers (data db)) then (Ok tt, db)
    else
      match find_table table (tables (data db)) with
      | None => (Err (no_such_table table), db)
      | Some _ =>
          (Ok tt, with_data db {| tables := tables (data db);
                                  schema_migrations := schema_migrations (data db);
                                  indexes := indexes (data db);
                                  triggers := triggers (data db) ++ [(name, table)] |})
      end.

Definition has_trigger (table : string) (d : Data) : bool :=
  existsb (fun t => same_name table (snd t)) (triggers d).

(** [SELECT ... FROM table WHERE cond], in the row order of the table. *)
Definition select_where (table : string) (cond : Row -> bool) : M (list Row) :=
  fun db =>
    match find_table table (tables (data db)) with
    | None => (Err (no_such_table table), db)
    | Some rows => (Ok (filter cond rows), db)
    end.

(** [INSERT INTO table ...]; [id] is the primary key.  The [CHECK] on the
    tier of a rule is not part of this model: a rule whose tier is outside
    1..5 is stored here, where the engine refuses it. *)
Definition insert_row (table : string) (row : Row) : M unit :=
  fun db =>
    match find_table table (tables (data db)) with
    | None => (Err (no_such_table table), db)
    | Some rows =>
        if existsb (fun r => String.eqb (row_id r) (row_id row)) rows
        then (Err (SqlError ("UNIQUE constraint failed: " ++ table ++ ".id")), db)
        else (Ok tt, with_data db (with_tables (data db)
                                     (set_table table (rows ++ [row]) (tables (data db)))))
    end.

Definition touch (at_ : instant) (r : Row) : Row :=
  {| row_id := row_id r; row_content := row_content r; row_embedding := row_embedding r;
     row_tags := row_tags r; row_tier := row_tier r; row_metadata := row_metadata r;
     row_created_at := row_created_at r; row_updated_at := at_;
     row_project_id := row_project_id r; row_title := row_title r;
     row_file_path := row_file_path r; row_name := row_name r;
     row_channel_id := row_channel_id r |}.

(** [UPDATE table SET ... WHERE cond]; the result is [rowsAffected].  When
    the table has its [AFTER UPDATE] trigger, the trigger then sets
    [updated_at = CURRENT_TIMESTAMP] on the updated rows. *)
Definition update_where (table : string) (cond : Row -> bool) (assign : Row -> Row)
  (current_timestamp : instant) : M nat :=
  fun db =>
    match find_table table (tables (data db)) with
    | None => (Err (no_such_table table), db)
    | Some rows =>
        let fired := has_trigger table (data db) in
        let rows' :=
          map (fun r => if cond r
                        then (if fired then touch current_timestamp (assign r) else assign r)
                        else r) rows in
        (Ok (length (filter cond rows)),
         with_data db (with_tables (data db) (set_table table rows' (tables (data db)))))
    end.

(** [DELETE FROM table WHERE cond]; the result is [rowsAffected]. *)
Definition delete_where (table : string) (cond : Row -> bool) : M nat :=
  fun db =>
    match find_table table (tables (data db)) with
    | None => (Err (no_such_table table), db)
    | Some rows =>
        (Ok (length (filter cond rows)),
         with_data db (with_tables (data db)
                         (set_table table (filter (fun r => negb (cond r)) rows)
                                    (tables (data db)))))
    end.

(** [SELECT version FROM schema_migrations ORDER BY version DESC LIMIT 1]. *)
Definition select_latest_version : M (list Z) :=
  fun db =>
    match schema_migrations (data db) with
    | None => (Err (no_such_table "schema_migrations"), db)
    | Some [] => (Ok [], db)
    | Some (m :: ms) =>
        (Ok [fold_left Z.max (map mig_version ms) (mig_version m)], db)
    end.

(** [INSERT INTO schema_migrations (version, description) VALUES (?, ?)];
    [applied_at] defaults to [CURRENT_TIMESTAMP]. *)
Definition insert_migration (version : Z) (description : string)
  (current_timestamp : instant) : M unit :=
  fun db =>
    match schema_migrations (data db) with
    | None => (Err (no_such_table "schema_migrations"), db)
    | Some ms =>
        if existsb (fun m => mig_version m =? version) ms
        then (Err (SqlError "UNIQUE constraint failed: schema_migrations.version"), db)
        else
          (Ok tt, with_data db
             {| tables := tables (data db);
                schema_migrations :=
                  Some (ms ++ [{| mig_version := version;
                                  mig_applied_at := current_timestamp;
                                  mig_description := description |}]);
                indexes := indexes (data db); triggers := triggers (data db) |})
    end.

End Sql.

(** ** src/database/migrations.ts, with the schema it imports *)

Module Migrations.
Import Sql.
Local Open Scope sql_scope.

Definition SCHEMA_VERSION : Z := 1.

Inductive statement : Type :=
| CREATE_TABLE (name : string)
| CREATE_SCHEMA_MIGRATIONS_TABLE
| CREATE_INDEX (name table : string)
| CREATE_TRIGGER (name table : string).

Definition CREATE_RULES_TABLE : statement := CREATE_TABLE "rules".
Definition CREATE_PROJECT_DOCS_TABLE : statement := CREATE_TABLE "project_docs".
Definition CREATE_REFS_TABLE : statement := CREATE_TABLE "refs".

Definition CREATE_INDEXES : list statement :=
  [CREATE_INDEX "idx_rules_tier" "rules";
   CREATE_INDEX "idx_rules_created_at" "rules";
   CREATE_INDEX "idx_rules_updated_at" "rules";
   CREATE_INDEX "idx_project_docs_project_id" "project_docs";
   CREATE_INDEX "idx_project_docs_created_at" "project_docs";
   CREATE_INDEX "idx_project_docs_updated_at" "project_docs";
   CREATE_INDEX "idx_refs_channel_id" "refs";
   CREATE_INDEX "idx_refs_name" "refs";
   CREATE_INDEX "idx_refs_created_at" "refs";
   CREATE_INDEX "idx_refs_updated_at" "refs"].

Definition CREATE_TRIGGERS : list statement :=
  [CREATE_TRIGGER "update_rules_timestamp" "rules";
   CREATE_TRIGGER "update_project_docs_timestamp" "project_docs";
   CREATE_TRIGGER "update_refs_timestamp" "refs"].

Definition INITIAL_SCHEMA : list statement :=
  [CREATE_SCHEMA_MIGRATIONS_TABLE; CREATE_RULES_TABLE; CREATE_PROJECT_DOCS_TABLE;
   CREATE_REFS_TABLE] ++ CREATE_INDEXES ++ CREATE_TRIGGERS.

Definition execute (st : statement) : M unit :=
  match st with
  | CREATE_TABLE name => create_table name
  | CREATE_SCHEMA_MIGRATIONS_TABLE => create_migrations_table
  | CREATE_INDEX name table => create_index name table
  | CREATE_TRIGGER name table => create_trigger name table
  end.

(** Any error of the query, such as a missing table, is taken as
    version 0. *)
Definition getCurrentVersion : M Z :=
  try_catch
    (rows <-- select_latest_version ;;;
     match rows with
     | [] => ret 0
     | version :: _ => ret version
     end)
    (fun _ => ret 0).

Definition initializeSchema (current_timestamp : instant) : M unit :=
  currentVersion <-- getCurrentVersion ;;;
  if currentVersion =? 0 then
    try_catch
      (begin_transaction ;;;
       for_each INITIAL_SCHEMA execute ;;;
       insert_migration SCHEMA_VERSION "Initial schema" current_timestamp ;;;
       commit)
      (fun error => rollback ;;; throw error)
  else ret tt.

End Migrations.

(** ** src/services/storage.ts

    [JSON.stringify] and [JSON.parse] are inverse to each other on the arrays
    of strings and the objects the code stores, so the model keeps [tags] as
    the array and [metadata] as the JSON text of the object. *)

Module Storage.
Import VectorOperations Sql.
Local Open Scope sql_scope.

Definition Metadata : Type := string.

Record Rule : Type := {
  rule_id : string;
  rule_content : string;
  rule_embedding : option Embedding;
  rule_tags : list string;
  rule_tier : Z;
  rule_metadata : option Metadata;
  rule_created_at : instant;
  rule_updated_at : instant
}.

Record ProjectDoc : Type := {
  doc_id : string;
  doc_project_id : string;
  doc_title : string;
  doc_content : string;
  doc_file_path : option string;
  doc_embedding : option Embedding;
  doc_tags : list string;
  doc_metadata : option Metadata;
  doc_created_at : instant;
  doc_updated_at : instant
}.

Record Ref : Type := {
  ref_id : string;
  ref_name : string;
  ref_content : string;
  ref_embedding : option Embedding;
  ref_channel_id : option string;
  ref_metadata : option Metadata;
  ref_created_at : instant;
  ref_updated_at : instant
}.

(** [Partial<Rule>] and its siblings: a field is [None] when the property is
    absent.  An optional field that is present may hold [undefined]. *)
Record RuleUpdates : Type := {
  upd_rule_id : option string;
  upd_rule_content : option string;
  upd_rule_embedding : option Embedding;
  upd_rule_tags : option (list string);
  upd_rule_tier : option Z;
  upd_rule_metadata : option (option Metadata);
  upd_rule_created_at : option instant;
  upd_rule_updated_at : option instant
}.

Record ProjectDocUpdates : Type := {
  upd_doc_id : option string;
  upd_doc_project_id : option string;
  upd_doc_title : option string;
  upd_doc_content : option string;
  upd_doc_file_path : option (option string);
  upd_doc_embedding : option Embedding;
  upd_doc_tags : option (list string);
  upd_doc_metadata : option (option Metadata);
  upd_doc_created_at : option instant;
  upd_doc_updated_at : option instant
}.

Record RefUpdates : Type := {
  upd_ref_id : option string;
  upd_ref_name : option string;
  upd_ref_content : option string;
  upd_ref_embedding : option Embedding;
  upd_ref_channel_id : option (option string);
  upd_ref_metadata : option (option Metadata);
  upd_ref_created_at : option instant;
  upd_ref_updated_at : option instant
}.

(** [{...existing, ...updates}] on one property. *)
Definition spread {A} (existing : A) (update : option A) : A :=
  match update with Some a => a | None => existing end.

Definition serializeMetadata (metadata : option Metadata) : option string := metadata.

(** [metadata ? JSON.parse(metadata) : undefined]: the empty text is falsy. *)
Definition deserializeMetadata (metadata : option string) : option Metadata :=
  match metadata with
  | Some EmptyString => None
  | other => other
  end.

Definition blank_row : Row :=
  {| row_id := ""; row_content := ""; row_embedding := None; row_tags := [];
     row_tier := 0; row_metadata := None; row_created_at := 0; row_updated_at := 0;
     row_project_id := ""; row_title := ""; row_file_path := None; row_name := "";
     row_channel_id := None |}.

Definition by_id (id : string) (r : Row) : bool := String.eqb (row_id r) id.

(** *** RuleStorage *)

(** The argument of [create] is the rule without its time stamps; the model
    passes a [Rule] and ignores the two fields. *)
Definition RuleStorage_create (rule : Rule) (now : instant) : M Rule :=
  insert_row "rules"
    {| row_id := rule_id rule; row_content := rule_content rule; row_embedding := None;
       row_tags := rule_tags rule; row_tier := rule_tier rule;
       row_metadata := serializeMetadata (rule_metadata rule);
       row_created_at := now; row_updated_at := now;
       row_project_id := ""; row_title := ""; row_file_path := None; row_name := "";
       row_channel_id := None |} ;;;
  ret {| rule_id := rule_id rule; rule_content := rule_content rule;
         rule_embedding := rule_embedding rule; rule_tags := rule_tags rule;
         rule_tier := rule_tier rule; rule_metadata := rule_metadata rule;
         rule_created_at := now; rule_updated_at := now |}.

Definition rule_of_row (row : Row) : Rule :=
  {| rule_id := row_id row; rule_content := row_content row; rule_embedding := None;
     rule_tags := row_tags row; rule_tier := row_tier row;
     rule_metadata := deserializeMetadata (row_metadata row);
     rule_created_at := row_created_at row; rule_updated_at := row_updated_at row |}.

Definition RuleStorage_findById (id : string) : M (option Rule) :=
  rows <-- select_where "rules" (by_id id) ;;;
  match rows with
  | [] => ret None
  | row :: _ => ret (Some (rule_of_row row))
  end.

Definition RuleStorage_update (id : string) (updates : RuleUpdates)
  (now current_timestamp : instant) : M (option Rule) :=
  existing <-- RuleStorage_findById id ;;;
  match existing with
  | None => ret None
  | Some existing =>
      let updatedRule :=
        {| rule_id := spread (rule_id existing) (upd_rule_id updates);
           rule_content := spread (rule_content existing) (upd_rule_content updates);
           rule_embedding :=
             match upd_rule_embedding updates with
             | Some e => Some e
             | None => rule_embedding existing
             end;
           rule_tags := spread (rule_tags existing) (upd_rule_tags updates);
           rule_tier := spread (rule_tier existing) (upd_rule_tier updates);
           rule_metadata := spread (rule_metadata existing) (upd_rule_metadata updates);
           rule_created_at := spread (rule_created_at existing) (upd_rule_created_at updates);
           rule_updated_at := now |} in
      update_where "rules" (by_id id)
        (fun r =>
           {| row_id := row_id r; row_content := rule_content updatedRule;
              row_embedding := row_embedding r;
              row_tags := rule_tags updatedRule; row_tier := rule_tier updatedRule;
              row_metadata := serializeMetadata (rule_metadata updatedRule);
              row_created_at := row_created_at r;
              row_updated_at := rule_updated_at updatedRule;
              row_project_id := row_project_id r; row_title := row_title r;
              row_file_path := row_file_path r; row_name := row_name r;
              row_channel_id := row_channel_id r |})
        current_timestamp ;;;
      ret (Some updatedRule)
  end.

Definition RuleStorage_delete (id : string) : M bool :=
  rowsAffected <-- delete_where "rules" (by_id id) ;;;
  ret (Nat.ltb 0 rowsAffected).

(** *** Arguments of a statement

    The client takes numbers, strings, buffers and [null] as arguments.  It
    refuses [undefined] with a TypeError before anything is sent to the
    engine.  [metadata] goes through [serializeMetadata], which turns
    [undefined] into [null]; [file_path] and [channel_id] are passed as they
    are.  In a record that the caller built an absent optional property is
    [undefined]; in a record read from a row it is [null]. *)
Definition argument {A} (value : option A) : M A :=
  match value with
  | Some a => ret a
  | None => throw UndefinedArgument
  end.

(** An optional property of [{...existing, ...updates}] as an argument:
    [null] or a string when it comes from the row read, and whatever the
    updates hold when they name it, [undefined] included. *)
Definition read_or_given {A} (update : option (option A)) : M unit :=
  match update with
  | Some None => throw UndefinedArgument
  | _ => ret tt
  end.

(** *** ProjectDocStorage *)

Definition ProjectDocStorage_create (doc : ProjectDoc) (now : instant) : M ProjectDoc :=
  file_path <-- argument (doc_file_path doc) ;;;
  insert_row "project_docs"
    {| row_id := doc_id doc; row_content := doc_content doc; row_embedding := None;
       row_tags := doc_tags doc; row_tier := 0;
       row_metadata := serializeMetadata (doc_metadata doc);
       row_created_at := now; row_updated_at := now;
       row_project_id := doc_project_id doc; row_title := doc_title doc;
       row_file_path := Some file_path; row_name := ""; row_channel_id := None |} ;;;
  ret {| doc_id := doc_id doc; doc_project_id := doc_project_id doc;
         doc_title := doc_title doc; doc_content := doc_content doc;
         doc_file_path := doc_file_path doc; doc_embedding := doc_embedding doc;
         doc_tags := doc_tags doc; doc_metadata := doc_metadata doc;
         doc_created_at := now; doc_updated_at := now |}.

Definition doc_of_row (row : Row) : ProjectDoc :=
  {| doc_id := row_id row; doc_project_id := row_project_id row;
     doc_title := row_title row; doc_content := row_content row;
     doc_file_path := row_file_path row; doc_embedding := None;
     doc_tags := row_tags row; doc_metadata := deserializeMetadata (row_metadata row);
     doc_created_at := row_created_at row; doc_updated_at := row_updated_at row |}.

Definition ProjectDocStorage_findById (id : string) : M (option ProjectDoc) :=
  rows <-- select_where "project_docs" (by_id id) ;;;
  match rows with
  | [] => ret None
  | row :: _ => ret (Some (doc_of_row row))
  end.

Definition ProjectDocStorage_update (id : string) (updates : ProjectDocUpdates)
  (now current_timestamp : instant) : M (option ProjectDoc) :=
  existing <-- ProjectDocStorage_findById id ;;;
  match existing with
  | None => ret None
  | Some existing =>
      let updatedDoc :=
        {| doc_id := spread (doc_id existing) (upd_doc_id updates);
           doc_project_id := spread (doc_project_id existing) (upd_doc_project_id updates);
           doc_title := spread (doc_title existing) (upd_doc_title updates);
           doc_content := spread (doc_content existing) (upd_doc_content updates);
           doc_file_path := spread (doc_file_path existing) (upd_doc_file_path updates);
           doc_embedding :=
             match upd_doc_embedding updates with
             | Some e => Some e
             | None => doc_embedding existing
             end;
           doc_tags := spread (doc_tags existing) (upd_doc_tags updates);
           doc_metadata := spread (doc_metadata existing) (upd_doc_metadata updates);
           doc_created_at := spread (doc_created_at existing) (upd_doc_created_at updates);
           doc_updated_at := now |} in
      read_or_given (upd_doc_file_path updates) ;;;
      update_where "project_docs" (by_id id)
        (fun r =>
           {| row_id := row_id r; row_content := doc_content updatedDoc;
              row_embedding := row_embedding r;
              row_tags := doc_tags updatedDoc; row_tier := row_tier r;
              row_metadata := serializeMetadata (doc_metadata updatedDoc);
              row_created_at := row_created_at r;
              row_updated_at := doc_updated_at updatedDoc;
              row_project_id := doc_project_id updatedDoc; row_title := doc_title updatedDoc;
              row_file_path := doc_file_path updatedDoc; row_name := row_name r;
              row_channel_id := row_channel_id r |})
        current_timestamp ;;;
      ret (Some updatedDoc)
  end.

(** *** RefStorage *)

Definition RefStorage_create (ref : Ref) (now : instant) : M Ref :=
  channel_id <-- argument (ref_channel_id ref) ;;;
  insert_row "refs"
    {| row_id := ref_id ref; row_content := ref_content ref; row_embedding := None;
       row_tags := []; row_tier := 0;
       row_metadata := serializeMetadata (ref_metadata ref);
       row_created_at := now; row_updated_at := now;
       row_project_id := ""; row_title := ""; row_file_path := None;
       row_name := ref_name ref; row_channel_id := Some channel_id |} ;;;
  ret {| ref_id := ref_id ref; ref_name := ref_name ref; ref_content := ref_content ref;
         ref_embedding := ref_embedding ref; ref_channel_id := ref_channel_id ref;
         ref_metadata := ref_metadata ref;
         ref_created_at := now; ref_updated_at := now |}.

Definition ref_of_row (row : Row) : Ref :=
  {| ref_id := row_id row; ref_name := row_name row; ref_content := row_content row;
     ref_embedding := None; ref_channel_id := row_channel_id row;
     ref_metadata := deserializeMetadata (row_metadata row);
     ref_created_at := row_created_at row; ref_updated_at := row_updated_at row |}.

Definition RefStorage_findById (id : string) : M (option Ref) :=
  rows <-- select_where "refs" (by_id id) ;;;
  match rows with
  | [] => ret None
  | row :: _ => ret (Some (ref_of_row row))
  end.

Definition RefStorage_update (id : string) (updates : RefUpdates)
  (now current_timestamp : instant) : M (option Ref) :=
  existing <-- RefStorage_findById id ;;;
  match existing with
  | None => ret None
  | Some existing =>
      let updatedRef :=
        {| ref_id := spread (ref_id existing) (upd_ref_id updates);
           ref_name := spread (ref_name existing) (upd_ref_name updates);
           ref_content := spread (ref_content existing) (upd_ref_content updates);
           ref_embedding :=
             match upd_ref_embedding updates with
             | Some e => Some e
             | None => ref_embedding existing
             end;
           ref_channel_id := spread (ref_channel_id existing) (upd_ref_channel_id updates);
           ref_metadata := spread (ref_metadata existing) (upd_ref_metadata updates);
           ref_created_at := spread (ref_created_at existing) (upd_ref_created_at updates);
           ref_updated_at := now |} in
      read_or_given (upd_ref_channel_id updates) ;;;
      update_where "refs" (by_id id)
        (fun r =>
           {| row_id := row_id r; row_content := ref_content updatedRef;
              row_embedding := row_embedding r;
              row_tags := row_tags r; row_tier := row_tier r;
              row_metadata := serializeMetadata (ref_metadata updatedRef);
              row_created_at := row_created_at r;
              row_updated_at := ref_updated_at updatedRef;
              row_project_id := row_project_id r; row_title := row_title r;
              row_file_path := row_file_path r; row_name := ref_name updatedRef;
              row_channel_id := ref_channel_id updatedRef |})
        current_timestamp ;;;
      ret (Some updatedRef)
  end.

(** [findByName]: names are not unique; the first row of that name is the
    one returned. *)
Definition by_name (name : string) (r : Row) : bool := String.eqb (row_name r) name.

Definition RefStorage_findByName (name : string) : M (option Ref) :=
  rows <-- select_where "refs" (by_name name) ;;;
  match rows with
  | [] => ret None
  | row :: _ => ret (Some (ref_of_row row))
  end.

End Storage.

(** ** Arrays: [Array.prototype.sort] and [Array.prototype.slice]

    [sort] is stable: with a comparator [compareFn(a, b)], an element moves
    in front of an earlier one only when the comparator puts it strictly
    first.  The model is the stable insertion sort; every sorting algorithm
    that meets the language specification returns the same array when the
    comparator is consistent. *)

Module JSArray.
Import JSNumber.

Section Sort.
Variable A : Type.
(** [compareFn a b], a number: negative when [a] goes first. *)
Variable compareFn : A -> A -> number.

Definition goes_before (a b : A) : bool := lt (compareFn a b) zero.

(** Inserts [x], which came before every element of [sorted] in the source
    array, into [sorted]. *)
Fixpoint insert (x : A) (sorted : list A) : list A :=
  match sorted with
  | [] => [x]
  | y :: rest => if goes_before y x then y :: insert x rest else x :: y :: rest
  end.

Fixpoint sort (l : list A) : list A :=
  match l with
  | [] => []
  | x :: rest => insert x (sort rest)
  end.
End Sort.

(** [array.slice(0, end)]: [end] is truncated to an integer; a negative [end]
    counts from the end of the array. *)
Definition slice0 {A} (l : list A) (end_ : number) : list A :=
  match trunc end_ with
  | inr true => []
  | inr false => l
  | inl k =>
      if k <? 0 then firstn (Z.to_nat (Z.max (Z.of_nat (length l) + k) 0)) l
      else firstn (Z.to_nat k) l
  end.

End JSArray.

(** ** src/database/migrations.ts: the migrations and their runner

    [DROP TABLE] takes the triggers and the indexes of the table with it.
    The database keeps the names of its indexes; the table of an index is
    the one the schema creates it on, and an index the schema does not
    define belongs to no table. *)

Module MigrationRunner.
Import JSNumber Sql Migrations.
Local Open Scope sql_scope.

Inductive down_statement : Type :=
| DROP_TABLE (name : string).

Record Migration : Type := {
  version : Z;
  description : string;
  up : list statement;
  down : list down_statement
}.

Fixpoint index_owner (name : string) (schema : list statement) : option string :=
  match schema with
  | [] => None
  | CREATE_INDEX n table :: schema' =>
      if same_name n name then Some table else index_owner name schema'
  | _ :: schema' => index_owner name schema'
  end.

Definition index_on (table index : string) : bool :=
  match index_owner index CREATE_INDEXES with
  | Some owner => same_name owner table
  | None => false
  end.

(** [DROP TABLE IF EXISTS name]. *)
Definition drop_table (name : string) : M unit :=
  fun db =>
    let d := data db in
    (Ok tt,
     with_data db
       {| tables := filter (fun t => negb (same_name (fst t) name)) (tables d);
          schema_migrations :=
            if same_name name "schema_migrations" then None else schema_migrations d;
          indexes := filter (fun i => negb (index_on name i)) (indexes d);
          triggers := filter (fun t => negb (same_name (snd t) name)) (triggers d) |}).

Definition execute_down (st : down_statement) : M unit :=
  match st with
  | DROP_TABLE name => drop_table name
  end.

(** [DELETE FROM schema_migrations WHERE version = ?]. *)
Definition delete_migration (version : Z) : M unit :=
  fun db =>
    match schema_migrations (data db) with
    | None => (Err (no_such_table "schema_migrations"), db)
    | Some ms =>
        (Ok tt, with_data db
           {| tables := tables (data db);
              schema_migrations := Some (filter (fun m => negb (mig_version m =? version)) ms);
              indexes := indexes (data db); triggers := triggers (data db) |})
    end.

(** *** A call that ends the process

    A call either settles, its promise resolved or rejected, or it ends the
    process; then nothing of the callers runs any more, no handler either,
    and the transaction that was open is never committed. *)
Inductive outcome (A : Type) : Type :=
| Settled (r : result A)
| Aborted.
Arguments Settled {A} r.
Arguments Aborted {A}.

Definition Run (A : Type) : Type := Db -> outcome A * Db.

Definition settled {A} (m : M A) : Run A :=
  fun db => let (r, db') := m db in (Settled r, db').







Definition rollbackMigration (migration : Migration) : M unit :=
  try_catch
    (begin_transaction ;;;
     for_each (down migration) execute_down ;;;
     delete_migration (version migration) ;;;
     commit)
    (fun error => rollback ;;; throw error).



Definition migrations : list Migration :=
  [{| version := 1;
      description := "Initial schema";
      up := INITIAL_SCHEMA;
      down := [DROP_TABLE "refs"; DROP_TABLE "project_docs"; DROP_TABLE "rules";
               DROP_TABLE "schema_migrations"] |}].

End MigrationRunner.

(** ** src/vector/index.ts *)

Module VectorIndex.
Import JSNumber VectorOperations Sql.
Local Open Scope sql_scope.

Inductive table_type : Type := type_rule | type_project_doc | type_ref.

Record SearchResult : Type := {
  id : string;
  content : string;
  similarity_score : number;
  type : table_type;
  metadata : option string
}.

Record VectorSearchOptions : Type := {
  limit : option number;
  threshold : option number;
  includeMetadata : option bool
}.

(** The literals [10] and [0.7]. *)
Definition ten : number := of_Z 10.
Definition seven_tenths : number := div (of_Z 7) (of_Z 10).

Definition default {A} (x : option A) (d : A) : A :=
  match x with Some a => a | None => d end.

(** Lifts a computation that does not touch the database. *)
Definition lift {A} (r : result A) : M A := fun db => (r, db).

Definition set_embedding (serialized : Buffer) (r : Row) : Row :=
  {| row_id := row_id r; row_content := row_content r; row_embedding := Some serialized;
     row_tags := row_tags r; row_tier := row_tier r; row_metadata := row_metadata r;
     row_created_at := row_created_at r; row_updated_at := row_updated_at r;
     row_project_id := row_project_id r; row_title := row_title r;
     row_file_path := row_file_path r; row_name := row_name r;
     row_channel_id := row_channel_id r |}.

Definition has_id (i : string) (r : Row) : bool := String.eqb (row_id r) i.

(** [storeEmbedding]: the table name is spliced into the statement as it
    comes. *)
Definition storeEmbedding (vectorDimensions : nat) (table id_ : string)
  (embedding : Embedding) (current_timestamp : instant) : M unit :=
  lift (validateDimensions embedding vectorDimensions) ;;;
  let serialized := serializeEmbedding embedding in
  update_where table (has_id id_) (set_embedding serialized) current_timestamp ;;;
  ret tt.

Definition embedded (r : Row) : bool :=
  match row_embedding r with Some _ => true | None => false end.

Definition getEmbedding (table id_ : string) : M (option Embedding) :=
  rows <-- select_where table (fun r => has_id id_ r && embedded r) ;;;
  match rows with
  | [] => ret None
  | row :: _ =>
      embedding <-- lift (deserializeEmbedding (default (row_embedding row) [])) ;;;
      ret (Some embedding)
  end.

Definition batchStoreEmbeddings (vectorDimensions : nat)
  (documents : list (string * string * Embedding)) (current_timestamp : instant) : M unit :=
  begin_transaction ;;;
  try_catch
    (for_each documents
       (fun doc => let '(table, id_, embedding) := doc in
                   storeEmbedding vectorDimensions table id_ embedding current_timestamp) ;;;
     commit)
    (fun error => rollback ;;; throw error).

Definition getTableType (table : string) : result table_type :=
  if String.eqb table "rules" then Ok type_rule
  else if String.eqb table "project_docs" then Ok type_project_doc
  else if String.eqb table "refs" then Ok type_ref
  else Err (UnknownTableType table).

(** [includeMetadata && row.metadata ? JSON.parse(row.metadata) : undefined] *)
Definition result_metadata (includeMetadata : bool) (row : Row) : option string :=
  if includeMetadata then
    match row_metadata row with
    | Some EmptyString => None
    | other => other
    end
  else None.

(** The loop over [result.rows]: each row is deserialized and compared with
    the query; those at or above the threshold are pushed on [results]. *)
Fixpoint scan (queryEmbedding : Embedding) (threshold : number) (includeMetadata : bool)
  (ty : table_type) (rows : list Row) (results : list SearchResult)
  : result (list SearchResult) :=
  match rows with
  | [] => Ok results
  | row :: rows' =>
      embedding <- deserializeEmbedding (default (row_embedding row) []) ;;
      similarity <- cosineSimilarity queryEmbedding embedding ;;
      scan queryEmbedding threshold includeMetadata ty rows'
        (if ge similarity threshold
         then results ++ [{| id := row_id row; content := row_content row;
                             similarity_score := similarity; type := ty;
                             metadata := result_metadata includeMetadata row |}]
         else results)
  end.

Definition search_tables : list (string * table_type) :=
  [("rules"%string, type_rule); ("project_docs"%string, type_project_doc);
   ("refs"%string, type_ref)].

Fixpoint scan_tables (queryEmbedding : Embedding) (threshold : number)
  (includeMetadata : bool) (tables : list (string * table_type))
  (results : list SearchResult) : M (list SearchResult) :=
  match tables with
  | [] => ret results
  | (tableName, ty) :: tables' =>
      rows <-- select_where tableName embedded ;;;
      results' <-- lift (scan queryEmbedding threshold includeMetadata ty rows results) ;;;
      scan_tables queryEmbedding threshold includeMetadata tables' results'
  end.

(** [(a, b) => b.similarity_score - a.similarity_score] *)
Definition by_score_descending (a b : SearchResult) : number :=
  sub (similarity_score b) (similarity_score a).

Definition semanticSearch (vectorDimensions : nat) (queryEmbedding : Embedding)
  (options : VectorSearchOptions) : M (list SearchResult) :=
  let limit := default (limit options) ten in
  let threshold := default (threshold options) seven_tenths in
  let includeMetadata := default (includeMetadata options) true in
  lift (validateDimensions queryEmbedding vectorDimensions) ;;;
  results <-- scan_tables queryEmbedding threshold includeMetadata search_tables [] ;;;
  ret (JSArray.slice0 (JSArray.sort by_score_descending results) limit).

(** [searchInTable] runs its query before it looks the table up in
    [getTableType]. *)
Definition searchInTable (vectorDimensions : nat) (table : string)
  (queryEmbedding : Embedding) (options : VectorSearchOptions) : M (list SearchResult) :=
  let limit := default (limit options) ten in
  let threshold := default (threshold options) seven_tenths in
  let includeMetadata := default (includeMetadata options) true in
  lift (validateDimensions queryEmbedding vectorDimensions) ;;;
  rows <-- select_where table embedded ;;;
  ty <-- lift (getTableType table) ;;;
  results <-- lift (scan queryEmbedding threshold includeMetadata ty rows []) ;;;
  ret (JSArray.slice0 (JSArray.sort by_score_descending results) limit).

Definition findSimilar (vectorDimensions : nat) (table targetId : string)
  (options : VectorSearchOptions) : M (list SearchResult) :=
  embedding <-- getEmbedding table targetId ;;;
  match embedding with
  | None => throw (NoEmbeddingFound table targetId)
  | Some embedding =>
      results <-- semanticSearch vectorDimensions embedding options ;;;
      ret (filter (fun r => negb (String.eqb (id r) targetId)) results)
  end.

(** *** Statistics and maintenance *)

(** [SELECT COUNT FROM table], with or without a [WHERE], read
    through [Number(...)]. *)
Definition count_where (table : string) (cond : Row -> bool) : M nat :=
  rows <-- select_where table cond ;;;
  ret (length rows).

Record TableStats : Type := { stats_total : nat; stats_embedded : nat }.

Record IndexStats : Type := {
  totalDocuments : nat;
  embeddedDocuments : nat;
  byTable : list (string * TableStats)   (* an object, in insertion order *)
}.

Definition index_tables : list string := ["rules"; "project_docs"; "refs"]%string.

(** The loop of [getIndexStats] over the three tables; the two counts of a
    table are read together. *)
Fixpoint index_stats_loop (tables : list string) (stats : IndexStats) : M IndexStats :=
  match tables with
  | [] => ret stats
  | table :: rest =>
      total <-- count_where table (fun _ => true) ;;;
      embeddedCount <-- count_where table embedded ;;;
      index_stats_loop rest
        {| totalDocuments := totalDocuments stats + total;
           embeddedDocuments := embeddedDocuments stats + embeddedCount;
           byTable := byTable stats ++
                      [(table, {| stats_total := total; stats_embedded := embeddedCount |})] |}
  end.

Definition getIndexStats : M IndexStats :=
  index_stats_loop index_tables
    {| totalDocuments := 0; embeddedDocuments := 0; byTable := [] |}.

Definition clear_embedding (r : Row) : Row :=
  {| row_id := row_id r; row_content := row_content r; row_embedding := None;
     row_tags := row_tags r; row_tier := row_tier r; row_metadata := row_metadata r;
     row_created_at := row_created_at r; row_updated_at := row_updated_at r;
     row_project_id := row_project_id r; row_title := row_title r;
     row_file_path := row_file_path r; row_name := row_name r;
     row_channel_id := row_channel_id r |}.

(** [UPDATE table SET embedding = NULL]. *)
Definition clear_table (table : string) (current_timestamp : instant) : M unit :=
  update_where table (fun _ => true) clear_embedding current_timestamp ;;;
  ret tt.

(** [clearEmbeddings(table?)]: [if (table)] sends the empty string, like a
    missing argument, to the loop over the three tables. *)
Definition clearEmbeddings (table : option string) (current_timestamp : instant) : M unit :=
  match table with
  | Some (String c rest) => clear_table (String c rest) current_timestamp
  | _ => for_each index_tables (fun tableName => clear_table tableName current_timestamp)
  end.

End VectorIndex.

(** ** src/services/memory-service.ts

    Every public operation checks [isInitialized], takes a connection from
    the pool with [withConnection] and works on the database through it.
    The pool is represented by the outcome of the checkout; all connections
    see the same database. *)

Module MemoryService.
Import JSNumber VectorOperations Sql Storage VectorIndex.
Local Open Scope sql_scope.

Record QueryOptions : Type := {
  q_limit : option number;
  q_threshold : option number;
  q_project_id : option string;
  q_channel_id : option string;
  q_tags : option (list string);
  q_tier : option number
}.

(** The cache holds values of any type. *)
Inductive cached : Type :=
| CachedRule (rule : Rule)
| CachedProjectDoc (doc : ProjectDoc)
| CachedRef (ref : Ref)
| CachedSearch (results : list SearchResult).

Record MemoryConfig : Type := {
  cfg_cache : MemoryCache.CacheConfig;
  cfg_vectorDimensions : nat
}.

Record t : Type := {
  config : MemoryConfig;
  cache : MemoryCache.t cached;
  database : Db;
  isInitialized : bool
}.

(** What a call finds around it: the clock of the process, the engine's
    [CURRENT_TIMESTAMP], and whether the pool hands out a connection. *)
Record environment : Type := {
  now : instant;
  current_timestamp : instant;
  checkout : result unit
}.

Definition create (config : MemoryConfig) (database : Db) : t :=
  {| config := config; cache := MemoryCache.create cached (cfg_cache config);
     database := database; isInitialized := false |}.

Definition with_cache (s : t) (c : MemoryCache.t cached) : t :=
  {| config := config s; cache := c; database := database s;
     isInitialized := isInitialized s |}.

Definition with_database (s : t) (db : Db) : t :=
  {| config := config s; cache := cache s; database := db;
     isInitialized := isInitialized s |}.

(** [x || d] on a number that may be absent: 0 and NaN are falsy. *)
Definition or_default (x : option number) (d : number) : number :=
  match x with
  | Some v => if is_nan v || strict_eq v zero then d else v
  | None => d
  end.

(** [string.slice(0, -1)]. *)
Fixpoint drop_last (s : string) : string :=
  match s with
  | EmptyString => EmptyString
  | String c EmptyString => EmptyString
  | String c rest => String c (drop_last rest)
  end.

Definition initialize (env : environment) (s : t) : result unit * t :=
  if isInitialized s then (Ok tt, s)
  else
    match checkout env with
    | Err e => (Err e, s)
    | Ok _ =>
        match Migrations.initializeSchema (current_timestamp env) (database s) with
        | (Ok _, db) =>
            (Ok tt, {| config := config s; cache := cache s; database := db;
                       isInitialized := true |})
        | (Err e, db) => (Err e, with_database s db)
        end
    end.

Definition shutdown (s : t) : t :=
  {| config := config s; cache := cache s; database := database s;
     isInitialized := false |}.

(** [ensureInitialized] followed by [this.pool.withConnection]: the
    operation runs on the database and then on the cache. *)
Definition withConnection {A} (env : environment) (s : t)
  (operation : M A) (after : A -> MemoryCache.t cached -> MemoryCache.t cached)
  : result A * t :=
  if negb (isInitialized s) then (Err NotInitialized, s)
  else
    match checkout env with
    | Err e => (Err e, s)
    | Ok _ =>
        match operation (database s) with
        | (Ok a, db) =>
            (Ok a, {| config := config s; cache := after a (cache s); database := db;
                      isInitialized := isInitialized s |})
        | (Err e, db) => (Err e, with_database s db)
        end
    end.

Definition createRule (rule : Rule) (env : environment) (s : t) : result Rule * t :=
  withConnection env s
    (created <-- RuleStorage_create rule (now env) ;;;
     match rule_embedding rule with
     | Some embedding =>
         storeEmbedding (cfg_vectorDimensions (config s)) "rules" (rule_id rule) embedding
           (current_timestamp env)
     | None => ret tt
     end ;;;
     ret created)
    (fun created c =>
       MemoryCache.set c ("rule:" ++ rule_id rule) (CachedRule created) (now env)).

Definition updateRule (id_ : string) (updates : RuleUpdates) (env : environment) (s : t)
  : result (option Rule) * t :=
  withConnection env s
    (updated <-- RuleStorage_update id_ updates (now env) (current_timestamp env) ;;;
     match updated, upd_rule_embedding updates with
     | Some _, Some embedding =>
         storeEmbedding (cfg_vectorDimensions (config s)) "rules" id_ embedding
           (current_timestamp env)
     | _, _ => ret tt
     end ;;;
     ret updated)
    (fun updated c =>
       match updated with
       | Some updated => MemoryCache.set c ("rule:" ++ id_) (CachedRule updated) (now env)
       | None => c
       end).

Definition deleteRule (id_ : string) (env : environment) (s : t) : result bool * t :=
  withConnection env s
    (RuleStorage_delete id_)
    (fun deleted c =>
       if deleted then snd (MemoryCache.delete c ("rule:" ++ id_)) else c).

Definition createProjectDoc (doc : ProjectDoc) (env : environment) (s : t)
  : result ProjectDoc * t :=
  withConnection env s
    (created <-- ProjectDocStorage_create doc (now env) ;;;
     match doc_embedding doc with
     | Some embedding =>
         storeEmbedding (cfg_vectorDimensions (config s)) "project_docs" (doc_id doc)
           embedding (current_timestamp env)
     | None => ret tt
     end ;;;
     ret created)
    (fun created c =>
       MemoryCache.set c ("project_doc:" ++ doc_id doc) (CachedProjectDoc created) (now env)).

Definition createRef (ref : Ref) (env : environment) (s : t) : result Ref * t :=
  withConnection env s
    (created <-- RefStorage_create ref (now env) ;;;
     match ref_embedding ref with
     | Some embedding =>
         storeEmbedding (cfg_vectorDimensions (config s)) "refs" (ref_id ref) embedding
           (current_timestamp env)
     | None => ret tt
     end ;;;
     ret created)
    (fun created c =>
       MemoryCache.set
         (MemoryCache.set c ("ref:" ++ ref_id ref) (CachedRef created) (now env))
         ("ref:name:" ++ ref_name ref) (CachedRef created) (now env)).

Definition batch_key (doc : string * string * Embedding) : string :=
  let '(table, id_, _) := doc in drop_last table ++ ":" ++ id_.

Definition batchStoreEmbeddings (documents : list (string * string * Embedding))
  (env : environment) (s : t) : result unit * t :=
  withConnection env s
    (VectorIndex.batchStoreEmbeddings (cfg_vectorDimensions (config s)) documents
       (current_timestamp env))
    (fun _ c =>
       fold_left (fun c doc => snd (MemoryCache.delete c (batch_key doc))) documents c).

Section Search.
(** The text of
    [JSON.stringify({ embedding: queryEmbedding.slice(0, 5), options })]. *)
Variable JSON_stringify : Embedding -> QueryOptions -> string.

Definition cacheKey (queryEmbedding : Embedding) (options : QueryOptions) : string :=
  "search:" ++ JSON_stringify (firstn 5 queryEmbedding) options.

(** The cached value, of whatever type, is returned as it is. *)
Definition semanticSearch (queryEmbedding : Embedding) (options : QueryOptions)
  (env : environment) (s : t) : result cached * t :=
  if negb (isInitialized s) then (Err NotInitialized, s)
  else
    let key := cacheKey queryEmbedding options in
    match MemoryCache.get (cache s) key (now env) with
    | (Some value, c) => (Ok value, with_cache s c)
    | (None, c) =>
        withConnection env (with_cache s c)
          (results <-- VectorIndex.semanticSearch (cfg_vectorDimensions (config s))
                         queryEmbedding
                         {| limit := Some (or_default (q_limit options) ten);
                            threshold := Some (or_default (q_threshold options) seven_tenths);
                            includeMetadata := Some true |} ;;;
           ret (CachedSearch results))
          (fun results c => MemoryCache.set c key results (now env))
    end.
End Search.

(** The calls that change rows. *)
Inductive mutation : Type :=
| CreateRule (rule : Rule)
| UpdateRule (id_ : string) (updates : RuleUpdates)
| DeleteRule (id_ : string)
| CreateProjectDoc (doc : ProjectDoc)
| CreateRef (ref : Ref)
| BatchStoreEmbeddings (documents : list (string * string * Embedding)).

Definition mutate (m : mutation) (env : environment) (s : t) : t :=
  match m with
  | CreateRule rule => snd (createRule rule env s)
  | UpdateRule id_ updates => snd (updateRule id_ updates env s)
  | DeleteRule id_ => snd (deleteRule id_ env s)
  | CreateProjectDoc doc => snd (createProjectDoc doc env s)
  | CreateRef ref => snd (createRef ref env s)
  | BatchStoreEmbeddings documents => snd (batchStoreEmbeddings documents env s)
  end.

(** *** Reads through the cache

    [if (cached) return cached]: what the cache holds under the key is
    returned as it is, whatever its type. *)

Definition getRule (id_ : string) (env : environment) (s : t) : result (option cached) * t :=
  if negb (isInitialized s) then (Err NotInitialized, s)
  else
    match MemoryCache.get (cache s) ("rule:" ++ id_) (now env) with
    | (Some value, c) => (Ok (Some value), with_cache s c)
    | (None, c) =>
        withConnection env (with_cache s c)
          (rule <-- RuleStorage_findById id_ ;;; ret (option_map CachedRule rule))
          (fun rule c =>
             match rule with
             | Some rule => MemoryCache.set c ("rule:" ++ id_) rule (now env)
             | None => c
             end)
    end.

Definition getProjectDoc (id_ : string) (env : environment) (s : t)
  : result (option cached) * t :=
  if negb (isInitialized s) then (Err NotInitialized, s)
  else
    match MemoryCache.get (cache s) ("project_doc:" ++ id_) (now env) with
    | (Some value, c) => (Ok (Some value), with_cache s c)
    | (None, c) =>
        withConnection env (with_cache s c)
          (doc <-- ProjectDocStorage_findById id_ ;;; ret (option_map CachedProjectDoc doc))
          (fun doc c =>
             match doc with
             | Some doc => MemoryCache.set c ("project_doc:" ++ id_) doc (now env)
             | None => c
             end)
    end.

(** A reference that was read is cached under its id and under its name. *)
Definition cache_ref (id_ name : string) (ref : cached) (now : instant)
  (c : MemoryCache.t cached) : MemoryCache.t cached :=
  MemoryCache.set (MemoryCache.set c ("ref:" ++ id_) ref now) ("ref:name:" ++ name) ref now.

Definition getRef (id_ : string) (env : environment) (s : t) : result (option cached) * t :=
  if negb (isInitialized s) then (Err NotInitialized, s)
  else
    match MemoryCache.get (cache s) ("ref:" ++ id_) (now env) with
    | (Some value, c) => (Ok (Some value), with_cache s c)
    | (None, c) =>
        withConnection env (with_cache s c)
          (ref <-- RefStorage_findById id_ ;;; ret (option_map CachedRef ref))
          (fun ref c =>
             match ref with
             | Some (CachedRef found) =>
                 cache_ref id_ (ref_name found) (CachedRef found) (now env) c
             | _ => c
             end)
    end.

Definition getRefByName (name : string) (env : environment) (s : t)
  : result (option cached) * t :=
  if negb (isInitialized s) then (Err NotInitialized, s)
  else
    match MemoryCache.get (cache s) ("ref:name:" ++ name) (now env) with
    | (Some value, c) => (Ok (Some value), with_cache s c)
    | (None, c) =>
        withConnection env (with_cache s c)
          (ref <-- RefStorage_findByName name ;;; ret (option_map CachedRef ref))
          (fun ref c =>
             match ref with
             | Some (CachedRef found) =>
                 cache_ref (ref_id found) name (CachedRef found) (now env) c
             | _ => c
             end)
    end.

(** [findSimilar] goes to the index every time. *)
Definition findSimilar (table id_ : string) (options : QueryOptions)
  (env : environment) (s : t) : result (list SearchResult) * t :=
  withConnection env s
    (VectorIndex.findSimilar (cfg_vectorDimensions (config s)) table id_
       {| limit := Some (or_default (q_limit options) ten);
          threshold := Some (or_default (q_threshold options) seven_tenths);
          includeMetadata := Some true |})
    (fun _ c => c).

Definition clearCache (s : t) : t := with_cache s (MemoryCache.clear (cache s)).

Definition getCacheStats (s : t) : MemoryCache.CacheStats := MemoryCache.getStats (cache s).

Definition isReady (s : t) : bool := isInitialized s.

End MemoryService.

(** * Theorems *)

(** ** IEEE-754 arithmetic: rounding, order and sign *)

Module JSNumberFacts.

(** *** Number of binary digits *)

Lemma digits2_pos_size (p : positive) : digits2_pos p = Pos.size p.
Proof. induction p; simpl; congruence. Qed.

Lemma Zdigits2_log2 (m : Z) : 0 < m -> Zdigits2 m = Z.log2 m + 1.
Proof.
  destruct m as [|p|p]; try lia. intros _. simpl. rewrite digits2_pos_size.
  destruct p; simpl; lia.
Qed.

Lemma Zdigits2_nonneg (m : Z) : 0 <= Zdigits2 m.
Proof. destruct m; simpl; lia. Qed.

Lemma Zdigits2_pos (m : Z) : 0 < m -> 0 < Zdigits2 m.
Proof. destruct m; simpl; lia. Qed.

Lemma Zdigits2_spec (m : Z) : 0 < m -> 2 ^ (Zdigits2 m - 1) <= m < 2 ^ Zdigits2 m.
Proof.
  intros H. rewrite Zdigits2_log2 by exact H.
  replace (Z.log2 m + 1 - 1) with (Z.log2 m) by lia.
  replace (Z.log2 m + 1) with (Z.succ (Z.log2 m)) by lia.
  apply Z.log2_spec. exact H.
Qed.

Lemma Zdigits2_unique (m d : Z) : 2 ^ (d - 1) <= m < 2 ^ d -> 0 < m -> Zdigits2 m = d.
Proof.
  intros H Hm. rewrite Zdigits2_log2 by exact Hm.
  assert (0 < d).
  { destruct (Z.ltb_spec 0 d); [assumption|]. 
    assert (2 ^ d <= 2 ^ 0) by (apply Z.pow_le_mono_r; lia). simpl in *. lia. }
  assert (Z.log2 m = d - 1); [|lia].
  apply Z.log2_unique; [lia|]. replace (Z.succ (d - 1)) with d by lia. exact H.
Qed.

Lemma Zdigits2_le (m m' : Z) : 0 <= m -> m <= m' -> Zdigits2 m <= Zdigits2 m'.
Proof.
  intros H0 H. destruct (Z.eq_dec m 0) as [->|]; [apply Zdigits2_nonneg|].
  rewrite !Zdigits2_log2 by lia. pose proof (Z.log2_le_mono m m' H). lia.
Qed.

(** Shifting [m] right by [n] takes [n] digits away. *)
Lemma Zdigits2_shiftr (m n : Z) :
  0 <= m -> 0 <= n -> Zdigits2 (Z.shiftr m n) = Z.max 0 (Zdigits2 m - n).
Proof.
  intros Hm Hn. destruct (Z.eq_dec m 0) as [->|Hz].
  - rewrite Z.shiftr_0_l. simpl. lia.
  - assert (0 < m) by lia.
    destruct (Z.ltb_spec n (Zdigits2 m)) as [Hlt|Hge].
    + assert (Hs : 0 < Z.shiftr m n).
      { rewrite Z.shiftr_div_pow2 by lia.
        apply Z.div_str_pos. split; [apply Z.pow_pos_nonneg; lia|].
        pose proof (Zdigits2_spec H).
        assert (2 ^ n <= 2 ^ (Zdigits2 m - 1)) by (apply Z.pow_le_mono_r; lia). lia. }
      rewrite !Zdigits2_log2 by lia. rewrite Z.log2_shiftr by lia.
      rewrite Zdigits2_log2 in Hlt by lia. lia.
    + assert (Hs : Z.shiftr m n = 0).
      { rewrite Z.shiftr_div_pow2 by lia. apply Z.div_small.
        pose proof (Zdigits2_spec H).
        assert (2 ^ Zdigits2 m <= 2 ^ n) by (apply Z.pow_le_mono_r; lia). lia. }
      rewrite Hs. simpl. lia.
Qed.

Lemma Zdigits2_shiftl (m n : Z) :
  0 < m -> 0 <= n -> Zdigits2 (Z.shiftl m n) = Zdigits2 m + n.
Proof.
  intros Hm Hn.
  assert (0 < Z.shiftl m n).
  { rewrite Z.shiftl_mul_pow2 by lia. apply Z.mul_pos_pos; [lia|].
    apply Z.pow_pos_nonneg; lia. }
  rewrite !Zdigits2_log2 by lia. rewrite Z.log2_shiftl by lia. lia.
Qed.

(** *** Shifting with sticky bits *)

Lemma iter_pos_nat {A} (f : A -> A) (p : positive) (x : A) :
  iter_pos f p x = Nat.iter (Pos.to_nat p) f x.
Proof.
  revert x. induction p as [p IH|p IH|]; intros x; cbn [iter_pos].
  - rewrite !IH. rewrite Pos2Nat.inj_xI.
    replace (S (2 * Pos.to_nat p))%nat with (Pos.to_nat p + S (Pos.to_nat p))%nat by lia.
    rewrite Nat.iter_add. rewrite Nat.iter_succ_r. reflexivity.
  - rewrite !IH. rewrite Pos2Nat.inj_xO.
    replace (2 * Pos.to_nat p)%nat with (Pos.to_nat p + Pos.to_nat p)%nat by lia.
    rewrite Nat.iter_add. reflexivity.
  - reflexivity.
Qed.

Lemma shr_1_m (mrs : shr_record) : 0 <= shr_m mrs -> shr_m (shr_1 mrs) = shr_m mrs / 2.
Proof.
  destruct mrs as [m r s]. cbn [shr_m]. intros Hm.
  destruct m as [|[p|p|]|p]; try lia; cbn [shr_1 shr_m].
  - reflexivity.
  - rewrite Pos2Z.inj_xI. apply (Z.div_unique_pos _ _ _ 1); lia.
  - rewrite Pos2Z.inj_xO. apply (Z.div_unique_pos _ _ _ 0); lia.
  - reflexivity.
Qed.

Lemma shr_iter_m (n : nat) (mrs : shr_record) :
  0 <= shr_m mrs -> shr_m (Nat.iter n shr_1 mrs) = shr_m mrs / 2 ^ Z.of_nat n.
Proof.
  intros Hm. induction n as [|n IH].
  - simpl. rewrite Z.div_1_r. reflexivity.
  - rewrite Nat.iter_succ, shr_1_m.
    + rewrite IH. rewrite Z.div_div by (try apply Z.pow_pos_nonneg; lia).
      rewrite Nat2Z.inj_succ, Z.pow_succ_r by lia. f_equal. lia.
    + rewrite IH. apply Z.div_pos; [lia|apply Z.pow_pos_nonneg; lia].
Qed.

Lemma shr_m_of_loc (m : Z) (l : location) : shr_m (shr_record_of_loc m l) = m.
Proof. destruct l as [|[| |]]; reflexivity. Qed.

Section Rounding.
Variables prec emax : Z.
Hypothesis Hprec : 0 < prec.

Local Notation "'fexp'" := (SpecFloat.fexp prec emax).
Local Notation "'emin'" := (SpecFloat.emin prec emax).

(** What [shr_fexp] returns: the mantissa shifted right until its exponent
    is the one the format gives to a number of that size. *)
Lemma shr_fexp_spec (m e : Z) (l : location) :
  0 <= m ->
  let n := fexp (Zdigits2 m + e) - e in
  shr_m (fst (shr_fexp prec emax m e l)) = (if 0 <? n then Z.shiftr m n else m) /\
  snd (shr_fexp prec emax m e l) = (if 0 <? n then e + n else e).
Proof.
  intros Hm n. unfold shr_fexp, shr. fold n.
  destruct n as [|p|p] eqn:En; cbn [fst snd Z.ltb Z.compare].
  - rewrite shr_m_of_loc. auto.
  - rewrite iter_pos_nat, shr_iter_m by (rewrite shr_m_of_loc; exact Hm).
    rewrite shr_m_of_loc, positive_nat_Z, Z.shiftr_div_pow2 by lia. auto.
  - rewrite shr_m_of_loc. auto.
Qed.

Lemma round_nearest_even_bounds (m : Z) (l : location) :
  m <= round_nearest_even m l <= m + 1.
Proof. destruct l as [|[| |]]; cbn; try destruct (Z.even m); lia. Qed.

(** Rounding yields a number of the format, provided the mantissa comes with
    an exponent that is not above the one of its size. *)
Lemma binary_round_aux_valid (sx : bool) (mx ex : Z) (lx : location) :
  0 <= mx -> ex <= fexp (Zdigits2 mx + ex) ->
  valid_binary prec emax (binary_round_aux prec emax sx mx ex lx) = true.
Proof.
  intros Hmx Haligned. unfold binary_round_aux.
  destruct (shr_fexp_spec ex lx Hmx) as [Hm1 He1].
  destruct (shr_fexp prec emax mx ex lx) as [mrs1 e1]. cbn [fst snd] in Hm1, He1.
  set (m1 := shr_m mrs1) in *.
  set (m2 := round_nearest_even m1 (loc_of_shr_record mrs1)).
  assert (Hm1pos : 0 <= m1).
  { rewrite Hm1. destruct (0 <? _); [apply Z.shiftr_nonneg|]; exact Hmx. }
  assert (Hd1 : Zdigits2 m1 =
                if 0 <? fexp (Zdigits2 mx + ex) - ex
                then Z.max 0 (Zdigits2 mx - (fexp (Zdigits2 mx + ex) - ex))
                else Zdigits2 mx).
  { rewrite Hm1. destruct (Z.ltb_spec 0 (fexp (Zdigits2 mx + ex) - ex)); [|reflexivity].
    apply Zdigits2_shiftr; lia. }
  pose proof (Zdigits2_nonneg mx) as Hdx.
  assert (Hstep1 : fexp (Zdigits2 m1 + e1) = e1).
  { rewrite Hd1, He1. unfold SpecFloat.fexp in *.
    destruct (Z.ltb_spec 0 (Z.max (Zdigits2 mx + ex - prec) emin - ex)); lia. }
  pose proof (round_nearest_even_bounds m1 (loc_of_shr_record mrs1)) as Hround.
  fold m2 in Hround.
  assert (Hm2 : 0 <= m2) by lia.
  pose proof (Zdigits2_le Hm1pos (proj1 Hround)) as Hd2.
  destruct (shr_fexp_spec e1 loc_Exact Hm2) as [Hm3 He3].
  destruct (shr_fexp prec emax m2 e1 loc_Exact) as [mrs3 e3]. cbn [fst snd] in Hm3, He3.
  destruct (shr_m mrs3) as [|m3|m3] eqn:E3; [reflexivity| |reflexivity].
  destruct (e3 <=? emax - prec) eqn:Ele; [|reflexivity].
  cbn [valid_binary]. unfold bounded. rewrite Ele, andb_true_r.
  unfold canonical_mantissa. apply Z.eqb_eq.
  change (Z.pos (digits2_pos m3)) with (Zdigits2 (Z.pos m3)). rewrite Hm3, He3.
  pose proof (Zdigits2_nonneg m2) as Hd2pos.
  destruct (Z.ltb_spec 0 (fexp (Zdigits2 m2 + e1) - e1)) as [Hshift|Hstay].
  - assert (Hpos : 0 < Zdigits2 (Z.shiftr m2 (fexp (Zdigits2 m2 + e1) - e1))).
    { rewrite <- Hm3. reflexivity. }
    rewrite Zdigits2_shiftr in * by lia.
    unfold SpecFloat.fexp in *. lia.
  - unfold SpecFloat.fexp in *. lia.
Qed.

Lemma Zpos_iter_xO (m d : positive) : Z.pos (Pos.iter xO m d) = Z.shiftl (Z.pos m) (Z.pos d).
Proof.
  rewrite Z.shiftl_mul_pow2 by lia.
  induction d as [|d IH] using Pos.peano_ind.
  - cbn [Pos.iter]. rewrite Pos2Z.inj_xO. change (2 ^ 1) with 2. lia.
  - rewrite Pos.iter_succ, Pos2Z.inj_xO, IH, Pos2Z.inj_succ, Z.pow_succ_r by lia. lia.
Qed.

(** [shl_align] brings the mantissa to an exponent that is not above the
    one of its size. *)
Lemma shl_align_spec (mx : positive) (ex : Z) :
  let '(mz, ez) := shl_align mx ex (fexp (Zdigits2 (Z.pos mx) + ex)) in
  ez <= fexp (Zdigits2 (Z.pos mz) + ez).
Proof.
  unfold shl_align.
  destruct (fexp (Zdigits2 (Z.pos mx) + ex) - ex) as [|d|d] eqn:E.
  - lia.
  - lia.
  - rewrite Zpos_iter_xO, Zdigits2_shiftl by lia.
    unfold SpecFloat.fexp in *. lia.
Qed.

Lemma binary_round_valid (sx : bool) (mx : positive) (ex : Z) :
  valid_binary prec emax (binary_round prec emax sx mx ex) = true.
Proof.
  unfold binary_round. pose proof (shl_align_spec mx ex) as H.
  change (Z.pos (digits2_pos mx)) with (Zdigits2 (Z.pos mx)).
  destruct (shl_align mx ex (fexp (Zdigits2 (Z.pos mx) + ex))) as [mz ez].
  apply binary_round_aux_valid; [lia|exact H].
Qed.

Hypothesis Hemax : prec < emax.

Local Notation "'valid'" := (valid_binary prec emax).

(** The place of a number in the order of the format: its value in units of
    the smallest positive number, the infinities beyond every finite
    number. *)
Definition ord (x : spec_float) : Z :=
  match x with
  | S754_zero _ | S754_nan => 0
  | S754_infinity s => cond_Zopp s (2 ^ (emax - emin))
  | S754_finite s m e => cond_Zopp s (Z.pos m * 2 ^ (e - emin))
  end.

Definition ordered (x : spec_float) : Prop :=
  valid x = true /\ x <> S754_nan.

Lemma valid_finite_bounds (s : bool) (m : positive) (e : Z) :
  valid (S754_finite s m e) = true ->
  emin <= e <= emax - prec /\ Zdigits2 (Z.pos m) <= prec /\
  (emin < e -> Zdigits2 (Z.pos m) = prec).
Proof.
  unfold valid_binary, bounded, canonical_mantissa, SpecFloat.fexp.
  intros H. apply andb_prop in H. destruct H as [H1 H2].
  apply Z.eqb_eq in H1. apply Z.leb_le in H2.
  change (Z.pos (digits2_pos m)) with (Zdigits2 (Z.pos m)) in H1. lia.
Qed.

Lemma finite_magnitude (s : bool) (m : positive) (e : Z) :
  valid (S754_finite s m e) = true ->
  0 < Z.pos m * 2 ^ (e - emin) < 2 ^ (emax - emin).
Proof.
  intros H. destruct (@valid_finite_bounds _ _ _ H) as [He [Hd _]].
  pose proof (@Zdigits2_spec (Z.pos m) ltac:(lia)) as [_ Hm].
  assert (Z.pos m < 2 ^ prec) as Hm'.
  { apply Z.lt_le_trans with (1 := Hm). apply Z.pow_le_mono_r; lia. }
  assert (0 < 2 ^ (e - emin)) as Hp by (apply Z.pow_pos_nonneg; lia).
  assert (2 ^ (e - emin) <= 2 ^ (emax - prec - emin)) as Hq
    by (apply Z.pow_le_mono_r; lia).
  replace (emax - emin) with (prec + (emax - prec - emin)) by lia.
  rewrite Z.pow_add_r by lia.
  assert (0 < 2 ^ prec) by (apply Z.pow_pos_nonneg; lia).
  split; [lia|]. nia.
Qed.

(** Of two numbers of the format, the one with the smaller exponent is the
    smaller. *)
Lemma finite_lt (s s' : bool) (m m' : positive) (e e' : Z) :
  valid (S754_finite s m e) = true -> valid (S754_finite s' m' e') = true ->
  e < e' -> Z.pos m * 2 ^ (e - emin) < Z.pos m' * 2 ^ (e' - emin).
Proof.
  intros H H' Hlt.
  destruct (@valid_finite_bounds _ _ _ H) as [He [Hd _]].
  destruct (@valid_finite_bounds _ _ _ H') as [He' [_ Hd']].
  pose proof (@Zdigits2_spec (Z.pos m) ltac:(lia)) as [_ Hm].
  pose proof (@Zdigits2_spec (Z.pos m') ltac:(lia)) as [Hm' _].
  rewrite Hd' in Hm' by lia.
  assert (Z.pos m < 2 ^ prec) as Hm2.
  { apply Z.lt_le_trans with (1 := Hm). apply Z.pow_le_mono_r; lia. }
  replace prec with (Z.succ (prec - 1)) in Hm2 by lia.
  rewrite Z.pow_succ_r in Hm2 by lia.
  replace (e' - emin) with (Z.succ (e' - e - 1) + (e - emin)) by lia.
  rewrite Z.pow_add_r, Z.pow_succ_r by lia.
  assert (0 < 2 ^ (e - emin)) as Hp by (apply Z.pow_pos_nonneg; lia).
  assert (0 < 2 ^ (e' - e - 1)) as Hk by (apply Z.pow_pos_nonneg; lia).
  assert (Z.pos m < 2 * Z.pos m') as Hmm by lia.
  assert (2 * Z.pos m' <= Z.pos m' * (2 * 2 ^ (e' - e - 1))) by nia.
  nia.
Qed.

Ltac by_compare :=
  match goal with
  | |- Some _ = Some (?a ?= ?b) =>
      solve [destruct (Z.compare_spec a b); first [reflexivity | lia | nia]]
  end.

Lemma infinity_magnitude : 0 < 2 ^ (emax - emin).
Proof. apply Z.pow_pos_nonneg; unfold SpecFloat.emin; lia. Qed.

(** [SFcompare] orders the numbers of the format as [ord] does. *)
Lemma SFcompare_ord (x y : spec_float) :
  ordered x -> ordered y -> SFcompare x y = Some (ord x ?= ord y).
Proof.
  intros [Hx Nx] [Hy Ny].
  pose proof infinity_magnitude as HB.
  destruct x as [sx|sx| |sx mx ex]; try congruence;
    destruct y as [sy|sy| |sy my ey]; try congruence;
    try pose proof (@finite_magnitude _ _ _ Hx) as Bx;
    try pose proof (@finite_magnitude _ _ _ Hy) as By;
    cbn [SFcompare ord].
  - reflexivity.
  - destruct sy; cbn [cond_Zopp]; by_compare.
  - destruct sy; cbn [cond_Zopp]; by_compare.
  - destruct sx; cbn [cond_Zopp]; by_compare.
  - destruct sx, sy; cbn [cond_Zopp]; by_compare.
  - destruct sx, sy; cbn [cond_Zopp]; by_compare.
  - destruct sx; cbn [cond_Zopp]; by_compare.
  - destruct sx, sy; cbn [cond_Zopp]; by_compare.
  - change (Pos.compare_cont Eq mx my) with (Pos.compare mx my).
    rewrite Pos2Z.inj_compare.
    assert (0 < 2 ^ (ex - emin)) as Hp
      by (apply Z.pow_pos_nonneg; destruct (@valid_finite_bounds _ _ _ Hx); lia).
    destruct sx, sy; cbn [cond_Zopp]; try by_compare.
    + destruct (Z.compare_spec ex ey) as [E|E|E].
      * subst ey. destruct (Z.compare_spec (Z.pos mx) (Z.pos my)); cbn [CompOpp];
          by_compare.
      * pose proof (@finite_lt _ _ _ _ _ _ Hx Hy E). by_compare.
      * pose proof (@finite_lt _ _ _ _ _ _ Hy Hx E). by_compare.
    + destruct (Z.compare_spec ex ey) as [E|E|E].
      * subst ey. destruct (Z.compare_spec (Z.pos mx) (Z.pos my));
          by_compare.
      * pose proof (@finite_lt _ _ _ _ _ _ Hx Hy E). by_compare.
      * pose proof (@finite_lt _ _ _ _ _ _ Hy Hx E). by_compare.
Qed.

Lemma SFltb_ord (x y : spec_float) :
  ordered x -> ordered y -> SFltb x y = (ord x <? ord y).
Proof.
  intros Hx Hy. unfold SFltb, Z.ltb. rewrite (SFcompare_ord Hx Hy).
  destruct (ord x ?= ord y); reflexivity.
Qed.








Lemma shl_align_value (mx : positive) (ex ex' : Z) :
  snd (shl_align mx ex ex') = Z.min ex ex' /\
  Z.pos (fst (shl_align mx ex ex')) = Z.pos mx * 2 ^ (ex - Z.min ex ex').
Proof.
  unfold shl_align. destruct (ex' - ex) as [|d|d] eqn:E; cbn [fst snd].
  - replace (ex - Z.min ex ex') with 0 by lia. cbn. lia.
  - replace (ex - Z.min ex ex') with 0 by lia. cbn. lia.
  - split; [lia|]. rewrite Zpos_iter_xO, Z.shiftl_mul_pow2 by lia.
    f_equal. f_equal. lia.
Qed.




(** *** Division *)






End Rounding.

End JSNumberFacts.

Module VectorOperationsFacts.
Import JSNumber JSNumberFacts VectorOperations.

Lemma cosine_loop_norms (a b : Embedding) :
  length a = length b ->
  forall d na nb,
    snd (fst (cosine_loop a b (d, na, nb))) = sum_squares a na /\
    snd (cosine_loop a b (d, na, nb)) = sum_squares b nb.
Proof.
  revert b; induction a as [|x a IH]; intros [|y b] Hlen d na nb;
    simpl in Hlen; try discriminate; simpl; auto.
Qed.

(** C8.  When the Euclidean norm the code computes for [a] or for [b] is
    zero, [cosineSimilarity] returns the number [0] (so not NaN). *)
Theorem cosineSimilarity_zero_norm (a b : Embedding) :
  length a = length b ->
  strict_eq (magnitude a) zero = true \/ strict_eq (magnitude b) zero = true ->
  cosineSimilarity a b = Ok zero /\ is_nan zero = false.
Proof.
  intros Hlen Hz. split; [|reflexivity].
  unfold cosineSimilarity.
  rewrite Hlen, Nat.eqb_refl. simpl negb. cbv iota.
  destruct (cosine_loop_norms a b Hlen zero zero zero) as [Ha Hb].
  destruct (cosine_loop a b (zero, zero, zero)) as [[d na] nb].
  simpl in Ha, Hb. subst na nb.
  unfold magnitude in Hz.
  destruct Hz as [Hz|Hz]; rewrite Hz; [reflexivity|].
  rewrite orb_true_r. reflexivity.
Qed.

Lemma cosineSimilarity_zero_norm_witness :
  cosineSimilarity [zero; zero; zero] [of_Z 1; of_Z 2; of_Z 3] = Ok zero.
Proof.
  apply (@cosineSimilarity_zero_norm [zero; zero; zero] [of_Z 1; of_Z 2; of_Z 3]).
  - reflexivity.
  - left. vm_compute. reflexivity.
Defined.

(** *** Bit patterns of singles *)

(** A valid single has a 24-bit mantissa with exponent in [-149, 104], or
    a shorter one at exponent -149. *)
Lemma valid_single_finite (s : bool) (m : positive) (e : Z) :
  valid_binary prec32 emax32 (S754_finite s m e) = true ->
  (Z.pos m < 2 ^ 23 /\ e = -149) \/
  (2 ^ 23 <= Z.pos m < 2 ^ 24 /\ -149 <= e <= 104).
Proof.
  unfold valid_binary, bounded, canonical_mantissa, SpecFloat.fexp, SpecFloat.emin,
    prec32, emax32.
  intros H. apply andb_prop in H. destruct H as [H1 H2].
  apply Z.eqb_eq in H1. apply Z.leb_le in H2.
  change (Z.pos (digits2_pos m)) with (Zdigits2 (Z.pos m)) in H1.
  pose proof (@Zdigits2_spec (Z.pos m) ltac:(lia)) as Hd.
  destruct (Z_lt_le_dec (Zdigits2 (Z.pos m)) 24) as [Hlt|Hge].
  - left. split; [|lia].
    apply Z.lt_le_trans with (1 := proj2 Hd).
    apply Z.pow_le_mono_r; lia.
  - right. assert (Zdigits2 (Z.pos m) = 24) as E by lia.
    rewrite E in Hd. change (24 - 1) with 23 in Hd. lia.
Qed.

Lemma bits_of_single_range (x : spec_float) :
  valid_binary prec32 emax32 x = true -> 0 <= bits_of_single x < 2 ^ 32.
Proof.
  destruct x as [s|s| |s m e]; intros H; unfold bits_of_single.
  - destruct s; lia.
  - destruct s; lia.
  - lia.
  - destruct (valid_single_finite _ _ _ H) as [[Hm He]|[Hm He]].
    + destruct (Z.ltb_spec (Z.pos m) (2 ^ 23)); destruct s; lia.
    + destruct (Z.ltb_spec (Z.pos m) (2 ^ 23)); destruct s; lia.
Qed.

Lemma testbit_31 (s : bool) (r : Z) :
  0 <= r < 2 ^ 31 -> Z.testbit ((if s then 2 ^ 31 else 0) + r) 31 = s.
Proof.
  intros Hr. rewrite Z.testbit_eqb by lia.
  destruct s.
  - replace ((2 ^ 31 + r) / 2 ^ 31) with 1 by (apply Z.div_unique with r; lia).
    reflexivity.
  - rewrite Z.add_0_l, Z.div_small by lia. reflexivity.
Qed.

Lemma exponent_field (s : bool) (e f : Z) :
  0 <= e < 256 -> 0 <= f < 2 ^ 23 ->
  (((if s then 2 ^ 31 else 0) + (e * 2 ^ 23 + f)) / 2 ^ 23) mod 256 = e.
Proof.
  intros He Hf.
  replace (((if s then 2 ^ 31 else 0) + (e * 2 ^ 23 + f)) / 2 ^ 23)
    with ((if s then 256 else 0) + e).
  - destruct s.
    + symmetry. apply Z.mod_unique with 1; lia.
    + rewrite Z.add_0_l. apply Z.mod_small. lia.
  - apply Z.div_unique with f; [lia|]. destruct s; lia.
Qed.

Lemma fraction_field (s : bool) (e f : Z) :
  0 <= f < 2 ^ 23 ->
  ((if s then 2 ^ 31 else 0) + (e * 2 ^ 23 + f)) mod 2 ^ 23 = f.
Proof.
  intros Hf. symmetry.
  apply Z.mod_unique with ((if s then 256 else 0) + e); [lia|]. destruct s; lia.
Qed.

(** Decoding the bit pattern of a valid single gives the single back. *)
Lemma single_of_bits_of_single (x : spec_float) :
  valid_binary prec32 emax32 x = true -> single_of_bits (bits_of_single x) = x.
Proof.
  destruct x as [s|s| |s m e]; intros H.
  - destruct s; reflexivity.
  - destruct s; reflexivity.
  - reflexivity.
  - unfold bits_of_single, single_of_bits.
    destruct (valid_single_finite _ _ _ H) as [[Hm He]|[Hm He]].
    + destruct (Z.ltb_spec (Z.pos m) (2 ^ 23)) as [_|]; [|lia].
      rewrite testbit_31 by lia.
      pose proof (@exponent_field s 0 (Z.pos m) ltac:(lia) ltac:(lia)) as E1.
      pose proof (@fraction_field s 0 (Z.pos m) ltac:(lia)) as E2.
      rewrite Z.mul_0_l, Z.add_0_l in E1, E2. rewrite E1, E2.
      subst e. reflexivity.
    + destruct (Z.ltb_spec (Z.pos m) (2 ^ 23)) as [|_]; [lia|].
      rewrite testbit_31 by lia.
      rewrite exponent_field, fraction_field by lia.
      destruct (Z.eqb_spec (e + 150) 0); [lia|].
      destruct (Z.eqb_spec (e + 150) 255); [lia|].
      replace (Z.pos m - 2 ^ 23 + 2 ^ 23) with (Z.pos m) by lia.
      f_equal. lia.
Qed.

(** *** Bytes *)

Lemma Z_of_byte_of_Z (z : Z) : Z_of_byte (byte_of_Z z) = z mod 256.
Proof.
  unfold Z_of_byte, byte_of_Z.
  pose proof (Z.mod_pos_bound z 256 ltac:(lia)) as Hz.
  destruct (Byte.of_N (Z.to_N (z mod 256))) as [b|] eqn:E.
  - apply Byte.to_of_N in E. rewrite E. lia.
  - apply Byte.of_N_None_iff in E. lia.
Qed.

Lemma little_endian (w : Z) :
  0 <= w < 2 ^ 32 ->
  w mod 256 + (w / 2 ^ 8) mod 256 * 2 ^ 8 + (w / 2 ^ 16) mod 256 * 2 ^ 16 +
  (w / 2 ^ 24) mod 256 * 2 ^ 24 = w.
Proof.
  intros Hw.
  change (2 ^ 8) with 256. change (2 ^ 16) with 65536. change (2 ^ 24) with 16777216.
  change (2 ^ 32) with 4294967296 in Hw.
  Z.div_mod_to_equations. lia.
Qed.

Lemma readFloatLE_writeFloatLE (value : number) :
  match writeFloatLE value with
  | [b0; b1; b2; b3] => readFloatLE b0 b1 b2 b3 = fround value
  | _ => False
  end.
Proof.
  unfold writeFloatLE, readFloatLE, fround. cbv zeta.
  rewrite !Z_of_byte_of_Z.
  assert (valid_binary prec32 emax32 (to_single value) = true) as Hv.
  { destruct value; try reflexivity. apply binary_round_valid. reflexivity. }
  rewrite little_endian by (apply bits_of_single_range; exact Hv).
  rewrite single_of_bits_of_single by exact Hv. reflexivity.
Qed.

(** C7.  Deserializing a serialized embedding succeeds and gives a vector
    of the same length whose elements are those of the embedding rounded to
    float32 ([Math.fround]: to the nearest single, ties to even); the buffer
    holds four bytes per element. *)
Theorem serialization_roundtrip (embedding : Embedding) :
  deserializeEmbedding (serializeEmbedding embedding) = Ok (map fround embedding) /\
  length (map fround embedding) = length embedding /\
  length (serializeEmbedding embedding) = (4 * length embedding)%nat.
Proof.
  split; [|split; [apply length_map|]].
  - induction embedding as [|value rest IH]; [reflexivity|].
    pose proof (readFloatLE_writeFloatLE value) as Hr.
    cbn [serializeEmbedding map].
    destruct (writeFloatLE value) as [|b0 [|b1 [|b2 [|b3 [|]]]]]; try contradiction.
    cbn [app deserializeEmbedding]. rewrite IH, Hr. reflexivity.
  - induction embedding as [|value rest IH]; [reflexivity|].
    cbn [serializeEmbedding]. rewrite length_app, IH. cbn [writeFloatLE length]. lia.
Qed.

End VectorOperationsFacts.

Module MemoryCacheFacts.
Import JSNumber MemoryCache.

Section WithValue.
Variable T : Type.

Definition requests (c : t T) : N := (hits (stats c) + misses (stats c))%N.

Lemma warmUp_requests (entries : list (string * T)) (now : Z) :
  forall c : t T, requests (warmUp c entries now) = requests c.
Proof.
  unfold warmUp, requests.
  induction entries as [|kv entries IH]; intros c; simpl; [reflexivity|].
  rewrite IH. reflexivity.
Qed.

Lemma load_requests (dump : list (string * T * Z)) (now : Z) :
  forall c : t T, requests (load c dump now) = requests c.
Proof.
  unfold load, requests.
  induction dump as [|kvt dump IH]; intros c; simpl; [reflexivity|].
  rewrite IH. reflexivity.
Qed.

(** What one call does to the number of requests counted so far. *)
Lemma apply_requests (c : t T) (now : Z) (o : op T) :
  requests (apply c (now, o)) =
  match o with
  | OpResetStats _ => 0%N
  | _ => if is_request o then (requests c + 1)%N else requests c
  end.
Proof.
  destruct o; simpl; unfold requests.
  - unfold get. destruct (LRU.get (cache c) key now) as [[entry|] lru]; simpl; lia.
  - unfold getWithMetadata.
    destruct (LRU.get (cache c) key now) as [[entry|] lru]; simpl; lia.
  - reflexivity.
  - unfold delete. destruct (LRU.delete (cache c) key) as [[|] lru]; reflexivity.
  - reflexivity.
  - reflexivity.
  - reflexivity.
  - apply warmUp_requests.
  - apply load_requests.
  - reflexivity.
Qed.

Lemma run_requests (calls : list (Z * op T)) :
  forall c : t T,
    requests (run c calls) = requests_since_reset calls (requests c).
Proof.
  unfold run.
  induction calls as [|[now o] calls IH]; intros c; [reflexivity|].
  cbn [fold_left]. rewrite IH, apply_requests.
  destruct o; reflexivity.
Qed.

Lemma no_request_no_count (calls : list (Z * op T)) :
  forallb (fun call => negb (is_request (snd call))) calls = true ->
  requests_since_reset calls 0 = 0%N.
Proof.
  induction calls as [|[now o] calls IH]; simpl; [reflexivity|].
  intros H. apply andb_prop in H. destruct H as [Ho Hrest].
  destruct o; simpl in Ho; try discriminate; auto.
Qed.

(** C9.  After any sequence of calls on a fresh cache, [getStats]
    reports [totalHits + totalMisses] equal to the number of [get] and
    [getWithMetadata] requests counted since the last [resetStats], and
    [hitRate] is [totalHits / (totalHits + totalMisses)] when that number
    is positive and [0] when no such request has been made. *)
Theorem getStats_hitRate (config : CacheConfig) (calls : list (Z * op T)) :
  let s := getStats (run (create T config) calls) in
  (totalHits s + totalMisses s)%N = requests_since_reset calls 0 /\
  hitRate s =
    if (0 <? requests_since_reset calls 0)%N
    then div (of_Z (Z.of_N (totalHits s)))
             (of_Z (Z.of_N (totalHits s + totalMisses s)))
    else zero.
Proof.
  cbv zeta.
  pose proof (run_requests calls (create T config)) as Hreq.
  change (requests (create T config)) with 0%N in Hreq.
  unfold requests in Hreq.
  split; [exact Hreq|].
  unfold getStats; cbn [hitRate totalHits totalMisses].
  rewrite Hreq. reflexivity.
Qed.
End WithValue.

Example getStats_hitRate_half :
  hitRate (getStats (run (create nat {| cfg_maxSize := 3; cfg_ttl := 1000;
                                        cfg_updateAgeOnGet := None |})
                         [(1, OpSet "key1" 7%nat); (2, OpGet _ "key1");
                          (3, OpGet _ "non-existent")]))
  = S754_finite false 4503599627370496 (-53).
Proof. vm_compute. reflexivity. Qed.

End MemoryCacheFacts.

Module PoolFacts.
Import Pool.
Local Open Scope nat_scope.

Local Notation "'occ'" := (count_occ Nat.eq_dec).

(** [Conn] and [Caller] are [nat]; linear arithmetic wants to see it. *)
Ltac plia := unfold Conn, Caller in *; lia.

(** *** The array and Set primitives, by number of occurrences *)

Lemma has_occ (c : nat) (l : list nat) : has c l = (0 <? occ l c).
Proof.
  induction l as [|x l IH]; simpl; [reflexivity|].
  destruct (Nat.eq_dec x c) as [->|Hne].
  - rewrite Nat.eqb_refl. reflexivity.
  - destruct (Nat.eqb_spec c x); [congruence|]. exact IH.
Qed.

Lemma occ_remove_first (c x : nat) (l : list nat) :
  occ (remove_first c l) x = if Nat.eq_dec x c then pred (occ l c) else occ l x.
Proof.
  induction l as [|y l IH]; simpl.
  - destruct (Nat.eq_dec x c); reflexivity.
  - destruct (Nat.eqb_spec c y) as [->|Hne].
    + destruct (Nat.eq_dec y y); [|congruence].
      destruct (Nat.eq_dec x y) as [->|]; [reflexivity|].
      destruct (Nat.eq_dec y x); [congruence|reflexivity].
    + simpl. rewrite IH.
      destruct (Nat.eq_dec y c); [congruence|].
      destruct (Nat.eq_dec x c) as [->|]; [|reflexivity].
      destruct (Nat.eq_dec y c); [congruence|reflexivity].
Qed.

Lemma occ_snoc (c x : nat) (l : list nat) :
  occ (l ++ [c]) x = occ l x + if Nat.eq_dec x c then 1 else 0.
Proof.
  rewrite count_occ_app. simpl.
  destruct (Nat.eq_dec c x), (Nat.eq_dec x c); congruence || lia.
Qed.

Lemma occ_set_add (c x : nat) (s : list nat) :
  occ (set_add c s) x = if Nat.eq_dec x c then Nat.max 1 (occ s c) else occ s x.
Proof.
  unfold set_add. rewrite has_occ.
  destruct (Nat.ltb_spec 0 (occ s c)).
  - destruct (Nat.eq_dec x c) as [->|]; lia.
  - rewrite occ_snoc. destruct (Nat.eq_dec x c) as [->|]; lia.
Qed.

Lemma pop_snoc (l : list nat) :
  match pop l with
  | Some (c, r) => l = r ++ [c]
  | None => l = []
  end.
Proof.
  induction l as [|x l IH]; simpl; [reflexivity|].
  destruct (pop l) as [[y r]|]; subst; reflexivity.
Qed.

Lemma pop_rest_snoc (l : list nat) (c : nat) : pop_rest (l ++ [c]) = l.
Proof.
  unfold pop_rest. pose proof (pop_snoc (l ++ [c])) as H.
  destruct (pop (l ++ [c])) as [[y r]|].
  - apply app_inj_tail in H. symmetry. apply H.
  - destruct l; discriminate.
Qed.

Lemma occ_firstn_skipn (n x : nat) (l : list nat) :
  occ l x = occ (firstn n l) x + occ (skipn n l) x.
Proof. rewrite <- count_occ_app, firstn_skipn. reflexivity. Qed.

Lemma length_remove_first (c : nat) (l : list nat) :
  length (remove_first c l) = length l - if 0 <? occ l c then 1 else 0.
Proof.
  induction l as [|y l IH]; simpl; [reflexivity|].
  destruct (Nat.eqb_spec c y) as [->|Hne].
  - destruct (Nat.eq_dec y y); [|congruence]. simpl. lia.
  - destruct (Nat.eq_dec y c); [congruence|]. simpl. rewrite IH.
    destruct (Nat.ltb_spec 0 (occ l c)); [|lia].
    assert (0 < length l); [|lia].
    destruct l; simpl in *; lia.
Qed.

Lemma length_set_add (c : nat) (s : list nat) :
  length (set_add c s) = length s + if 0 <? occ s c then 0 else 1.
Proof.
  unfold set_add. rewrite has_occ.
  destruct (0 <? occ s c); [lia|]. rewrite length_app. reflexivity.
Qed.

Lemma occ_le_length (l : list nat) (x : nat) : occ l x <= length l.
Proof.
  induction l as [|y l IH]; simpl; [lia|]. destruct (Nat.eq_dec y x); lia.
Qed.

Lemma occ_nil_all (l : list nat) : (forall x, occ l x = 0) -> l = [].
Proof.
  destruct l as [|y l]; [reflexivity|]. intros H. specialize (H y). simpl in H.
  destruct (Nat.eq_dec y y); [discriminate|congruence].
Qed.

(** Two lists with the same occurrences have the same length. *)
Lemma occ_length (l1 l2 : list nat) :
  (forall x, occ l1 x = occ l2 x) -> length l1 = length l2.
Proof.
  intros H. apply Permutation_length.
  apply (Permutation_count_occ Nat.eq_dec). exact H.
Qed.

(** *** The invariant of non-overlapping use *)

(** Every connection of [connections] is idle, active, or held by the
    cleanup loop ([lim]), and never twice. *)
Definition balanced (p : t) (lim : list Conn) : Prop :=
  forall x,
    occ (connections p) x =
    occ (availableConnections p) x + occ (activeConnections p) x + occ lim x.

Definition distinct (p : t) : Prop := forall x, occ (connections p) x <= 1.

Definition fresh_above (p : t) : Prop :=
  forall x, nextConn p <= x -> occ (connections p) x = 0.

Definition within (p : t) (n : nat) : Prop :=
  length (connections p) + n <= maxConnections p.

(** What may be pending, and what it guarantees. *)
Inductive pend_ok (p : t) : list task -> Prop :=
| pend_inits (ids : list Conn) :
    (forall x, occ ids x <= 1) ->
    (forall x, 0 < occ ids x -> x < nextConn p /\ occ (connections p) x = 0) ->
    within p (length ids) -> balanced p [] ->
    pend_ok p (map AwaitInitConnect ids)
| pend_health k c :
    within p 0 -> balanced p [] -> pend_ok p [AwaitHealth k c]
| pend_disconnect k c :
    within p 0 -> balanced p [] -> pend_ok p [AwaitDisconnect k c]
| pend_connect k c :
    c < nextConn p -> occ (connections p) c = 0 ->
    within p 1 -> balanced p [] -> pend_ok p [AwaitConnect k c]
| pend_create k c rest :
    availableConnections p = rest ++ [c] ->
    within p 0 -> balanced p [] -> pend_ok p [AwaitCreate k c]
| pend_cleanup rest :
    within p 0 -> balanced p rest -> pend_ok p [AwaitCleanup rest]
| pend_shutdown :
    within p 0 -> balanced p [] -> pend_ok p [AwaitShutdown].

Definition Inv (s : sys) : Prop :=
  distinct (pool s) /\ fresh_above (pool s) /\ pend_ok (pool s) (pending s).

Lemma pend_ok_nil (p : t) : within p 0 -> balanced p [] -> pend_ok p [].
Proof.
  intros Hw Hb. apply (@pend_inits p []); simpl; auto.
  intros x Hx. lia.
Qed.

Lemma pend_ok_nil_inv (p : t) : pend_ok p [] -> within p 0 /\ balanced p [].
Proof.
  intros H. inversion H as [ids H1 H2 H3 H4 Heq| | | | | |].
  destruct ids; [|discriminate]. simpl in H3. auto.
Qed.

Lemma pend_ok_within (p : t) (l : list task) : pend_ok p l -> within p 0.
Proof.
  unfold within. intros H; inversion H; subst; unfold within in *; lia.
Qed.

Lemma pend_ok_balanced (p : t) (l : list task) :
  pend_ok p l -> exists lim, balanced p lim.
Proof. intros H; inversion H; subst; eauto. Qed.

(** The first conjuncts of the specification's invariant follow. *)
Lemma Inv_counts (s : sys) :
  Inv s ->
  length (activeConnections (pool s)) + length (availableConnections (pool s))
    <= length (connections (pool s)) /\
  length (connections (pool s)) <= maxConnections (pool s).
Proof.
  intros (_ & _ & Hp). split.
  - destruct (pend_ok_balanced Hp) as [lim Hb].
    assert (Hlen : length (connections (pool s)) =
                   length (availableConnections (pool s) ++ activeConnections (pool s) ++ lim)).
    { apply occ_length. intros x. rewrite !count_occ_app, Hb. plia. }
    rewrite Hlen, !length_app. lia.
  - apply pend_ok_within in Hp. unfold within in Hp. lia.
Qed.

Ltac dec_lia :=
  repeat match goal with
         | |- context [Nat.eq_dec ?a ?b] => destruct (Nat.eq_dec a b); subst
         | H : context [Nat.eq_dec ?a ?b] |- _ => destruct (Nat.eq_dec a b); subst
         end;
  cbn [count_occ] in *; cbv beta iota in *; try congruence; plia.

Ltac unfold_inv :=
  unfold Inv, distinct, fresh_above, within, balanced in *;
  unfold removeConnection, createConnection_finish, enqueue, settle, spawn,
    allocate in *;
  unfold with_pool, set_lists, set_queue in *;
  cbn [pool pending settled connections availableConnections activeConnections
       waitingQueue maxConnections isShuttingDown nextConn fst snd] in *.

(** Instantiates the pointwise facts at [x]. *)
Ltac at_conn x :=
  repeat match goal with
         | H : forall y : nat, _ = _ |- _ => pose proof (H x); revert H
         | H : forall y : nat, _ <= 1 |- _ => pose proof (H x); revert H
         end; intros.

Lemma getConnection_Inv (k : Caller) (s : sys) :
  Inv s -> pending s = [] -> Inv (getConnection k s).
Proof.
  destruct s as [[conns avail active queue mx sd nxt] pend done].
  intros (Hd & Hf & Hp) Hpend. cbn in Hpend; subst pend.
  apply pend_ok_nil_inv in Hp. destruct Hp as [Hw Hb].
  unfold getConnection; cbn [pool isShuttingDown availableConnections].
  destruct sd.
  { repeat split; auto. apply pend_ok_nil; auto. }
  pose proof (pop_snoc avail) as Hpop.
  destruct (pop avail) as [[c rest]|].
  - subst avail. repeat split; auto.
    apply pend_health; [exact Hw|].
    unfold_inv. intros x. at_conn x. at_conn c.
    rewrite occ_snoc in *. rewrite occ_set_add. dec_lia.
  - cbn [connections maxConnections].
    destruct (Nat.ltb_spec (length conns) mx).
    + repeat split; auto.
      * unfold_inv. intros x Hx. apply Hf. plia.
      * apply pend_connect; unfold_inv; auto. plia.
    + repeat split; auto. apply pend_ok_nil; auto.
Qed.

Lemma task_eqb_eq (a b : task) : task_eqb a b = true -> a = b.
Proof.
  destruct a, b; simpl; try discriminate; intros H;
    repeat match goal with
           | H : _ && _ = true |- _ => apply andb_prop in H; destruct H
           | H : Nat.eqb _ _ = true |- _ => apply Nat.eqb_eq in H; subst
           end; try reflexivity.
  destruct (list_eq_dec Nat.eq_dec rest rest0); [subst; reflexivity|discriminate].
Qed.

Lemma take_single (a b : task) (r : list task) :
  take a [b] = Some r -> b = a /\ r = [].
Proof.
  simpl. destruct (task_eqb a b) eqn:E; [|discriminate].
  intros H; inversion H. apply task_eqb_eq in E. auto.
Qed.

Lemma take_inits (a : task) (ids : list Conn) (r : list task) :
  take a (map AwaitInitConnect ids) = Some r ->
  exists c, a = AwaitInitConnect c /\ 0 < occ ids c /\
            r = map AwaitInitConnect (remove_first c ids).
Proof.
  revert r. induction ids as [|y ids IH]; simpl; intros r; [discriminate|].
  destruct (task_eqb a (AwaitInitConnect y)) eqn:E.
  - intros H; inversion H; subst. apply task_eqb_eq in E. subst a.
    exists y. rewrite Nat.eqb_refl. destruct (Nat.eq_dec y y); [|congruence].
    repeat split; auto. plia.
  - destruct (take a (map AwaitInitConnect ids)) as [r'|]; [|discriminate].
    intros H; inversion H; subst.
    destruct (IH r' eq_refl) as (c & -> & Hc & ->).
    exists c. simpl in E. destruct (Nat.eqb_spec c y); [discriminate|].
    destruct (Nat.eq_dec y c); [congruence|]. repeat split; auto.
Qed.

(** A change of the idle and active lists that keeps the books balanced
    keeps what is pending in order. *)
(** A pending task that is not one of [initialize] is alone. *)
Lemma pend_take (p : t) (pend rest : list task) (a : task) :
  pend_ok p pend -> take a pend = Some rest ->
  (forall c, a <> AwaitInitConnect c) ->
  pend = [a] /\ rest = [].
Proof.
  intros Hp Ht Ha.
  inversion Hp; subst;
    try (apply take_single in Ht; destruct Ht as [-> ->]; auto).
  apply take_inits in Ht. destruct Ht as (c & -> & _). exfalso. exact (Ha c eq_refl).
Qed.

Lemma inits_single (ids : list Conn) (a : task) :
  map AwaitInitConnect ids = [a] -> exists c, a = AwaitInitConnect c.
Proof. destruct ids as [|c [|? ?]]; try discriminate. intros H; inversion H; eauto. Qed.

Ltac inv_pend H :=
  inversion H as [ids ? ? ? ? Heq| | | | | |]; subst;
  [apply inits_single in Heq; destruct Heq; discriminate|].

Lemma removeConnection_balanced (c : Conn) (p : t) (lim : list Conn) :
  distinct p -> balanced p lim ->
  balanced (removeConnection c p) (remove_first c lim).
Proof.
  destruct p as [conns avail active queue mx sd nxt].
  intros Hd Hb. unfold_inv. intros x. at_conn x. at_conn c.
  rewrite !occ_remove_first. dec_lia.
Qed.

Lemma removeConnection_rest (c : Conn) (p : t) :
  distinct p ->
  distinct (removeConnection c p) /\
  (fresh_above p -> fresh_above (removeConnection c p)) /\
  (forall n, within p n -> within (removeConnection c p) n).
Proof.
  destruct p as [conns avail active queue mx sd nxt].
  intros Hd. unfold_inv. repeat split.
  - intros x. at_conn x. at_conn c. rewrite occ_remove_first. dec_lia.
  - intros Hf x Hx. specialize (Hf x Hx). at_conn c. rewrite occ_remove_first. dec_lia.
  - intros n Hn. rewrite length_remove_first. destruct (0 <? occ conns c); plia.
Qed.

Lemma releaseConnection_Inv (c : Conn) (s : sys) :
  Inv s -> pending s = [] -> Inv (releaseConnection c s).
Proof.
  destruct s as [[conns avail active queue mx sd nxt] pend done].
  intros (Hd & Hf & Hp) Hpend. cbn in Hpend; subst pend.
  pose proof Hp as Hp'. apply pend_ok_nil_inv in Hp'. destruct Hp' as [Hw Hb].
  unfold releaseConnection.
  cbn [pool activeConnections waitingQueue]. rewrite has_occ.
  destruct (Nat.ltb_spec 0 (occ active c)) as [Hin|Hout]; cbn [negb];
    [|repeat split; auto].
  destruct queue as [|waiter queue]; (repeat split; [exact Hd|exact Hf|]);
    cbn [pool pending settle with_pool];
    (apply pend_ok_nil; [exact Hw|]);
    unfold_inv; intros x; at_conn x; at_conn c;
    rewrite ?occ_snoc, ?occ_set_add, ?occ_remove_first; dec_lia.
Qed.

Lemma timeout_Inv (k : Caller) (s : sys) : Inv s -> pending s = [] -> Inv (timeout k s).
Proof.
  destruct s as [[conns avail active queue mx sd nxt] pend done].
  intros (Hd & Hf & Hp) Hpend. cbn in Hpend; subst pend.
  apply pend_ok_nil_inv in Hp. destruct Hp as [Hw Hb].
  unfold timeout. cbn [pool waitingQueue].
  destruct (has k queue); repeat split; auto; apply pend_ok_nil; auto.
Qed.

Lemma cleanup_next_Inv (rest : list Conn) (s : sys) :
  distinct (pool s) -> fresh_above (pool s) -> within (pool s) 0 ->
  balanced (pool s) rest -> pending s = [] ->
  Inv (cleanup_next rest s).
Proof.
  destruct s as [p pend done]. cbn [pool pending].
  intros Hd Hf Hw Hb ->.
  destruct rest as [|c rest]; cbn [cleanup_next].
  - repeat split; auto. apply pend_ok_nil; auto.
  - destruct (removeConnection_rest c Hd) as (Hd' & Hf' & Hw').
    pose proof (removeConnection_balanced c Hd Hb) as Hb'.
    cbn [remove_first] in Hb'. rewrite Nat.eqb_refl in Hb'.
    repeat split; cbn [pool pending spawn with_pool]; auto.
    apply pend_cleanup; auto.
Qed.

Lemma cleanupIdleConnections_Inv (s : sys) :
  Inv s -> pending s = [] -> Inv (cleanupIdleConnections s).
Proof.
  destruct s as [[conns avail active queue mx sd nxt] pend done].
  intros (Hd & Hf & Hp) Hpend. cbn in Hpend; subst pend.
  pose proof Hp as Hp'. apply pend_ok_nil_inv in Hp'. destruct Hp' as [Hw Hb].
  unfold cleanupIdleConnections. cbn [pool isShuttingDown availableConnections].
  destruct (sd || (length avail <=? 2)); [repeat split; auto|].
  apply cleanup_next_Inv; auto.
  unfold_inv. intros x. at_conn x.
  rewrite (occ_firstn_skipn (length avail - 2) x avail) in *. dec_lia.
Qed.

Lemma shutdown_Inv (s : sys) : Inv s -> pending s = [] -> Inv (shutdown s).
Proof.
  destruct s as [[conns avail active queue mx sd nxt] pend done].
  intros (Hd & Hf & Hp) Hpend. cbn in Hpend; subst pend.
  apply pend_ok_nil_inv in Hp. destruct Hp as [Hw Hb].
  repeat split; auto. apply pend_shutdown; auto.
Qed.

Lemma initialize_loop_Inv (n : nat) :
  forall (s : sys) (ids : list Conn),
    distinct (pool s) -> fresh_above (pool s) -> balanced (pool s) [] ->
    pending s = map AwaitInitConnect ids ->
    (forall x, occ ids x <= 1) ->
    (forall x, 0 < occ ids x -> x < nextConn (pool s) /\ occ (connections (pool s)) x = 0) ->
    within (pool s) (length ids + n) ->
    Inv (initialize_loop n s).
Proof.
  induction n as [|n IH]; intros s ids Hd Hf Hb Hpend Hids Hnew Hw.
  - cbn [initialize_loop]. repeat split; auto. rewrite Hpend.
    apply pend_inits; auto. rewrite Nat.add_0_r in Hw. exact Hw.
  - cbn [initialize_loop].
    destruct s as [[conns avail active queue mx sd nxt] pend done].
    unfold_inv. subst pend.
    destruct (Nat.leb_spec mx (length conns)); [plia|].
    apply (IH _ (ids ++ [nxt])); unfold_inv; auto.
    + intros x Hx. apply Hf. plia.
    + rewrite map_app. reflexivity.
    + intros x. rewrite occ_snoc. specialize (Hids x).
      destruct (Nat.eq_dec x nxt) as [->|]; [|plia].
      destruct (Nat.ltb_spec 0 (occ ids nxt)) as [Hin|]; [|plia].
      apply Hnew in Hin. plia.
    + intros x. rewrite occ_snoc.
      destruct (Nat.eq_dec x nxt) as [->|].
      * intros _. split; [plia|]. apply Hf. plia.
      * intros Hx. rewrite Nat.add_0_r in Hx. apply Hnew in Hx. plia.
    + rewrite length_app. simpl. plia.
Qed.

Lemma initialize_Inv (s : sys) :
  Inv s -> pending s = [] -> connections (pool s) = [] -> Inv (initialize s).
Proof.
  intros (Hd & Hf & Hp) Hpend Hconns. rewrite Hpend in Hp.
  apply pend_ok_nil_inv in Hp. destruct Hp as [Hw Hb].
  apply (@initialize_loop_Inv _ s []); auto.
  - simpl. intros x Hx. plia.
  - unfold within in *. rewrite Hconns. cbn [length]. plia.
Qed.

Lemma may_enter_call (s : sys) (a : action) :
  may_enter s a = true -> is_call a = true ->
  pending s = [] /\ (a = Initialize -> connections (pool s) = []).
Proof.
  unfold may_enter. intros H Hc. rewrite Hc in H.
  destruct (pending s); [|discriminate]. split; [reflexivity|].
  intros ->. destruct (connections (pool s)); [reflexivity|discriminate].
Qed.

Lemma resume_inv (a : task) (s s' : sys) (k : sys -> sys) :
  resume a s k = Some s' ->
  exists rest, take a (pending s) = Some rest /\
               s' = k {| pool := pool s; pending := rest; settled := settled s |}.
Proof.
  unfold resume. destruct (take a (pending s)) as [rest|]; [|discriminate].
  intros H; injection H as <-. eauto.
Qed.

(** Preservation by every transition of a sequential trace. *)
Lemma fire_Inv (s s' : sys) (a : action) :
  Inv s -> may_enter s a = true -> fire s a = Some s' -> Inv s'.
Proof.
  intros HI Henter Hfire.
  destruct a; cbn [fire] in Hfire;
    try (destruct (may_enter_call _ _ Henter eq_refl) as [Hpend Hinit];
         injection Hfire as <-);
    try (apply resume_inv in Hfire; destruct Hfire as (rest' & Ht & ->);
         destruct HI as (Hd & Hf & Hp);
         destruct s as [[conns avail active queue mx sd nxt] pend done];
         cbn [pool pending settled] in *).
  - apply initialize_Inv; auto.
  - apply getConnection_Inv; auto.
  - apply releaseConnection_Inv; auto.
  - apply timeout_Inv; auto.
  - apply cleanupIdleConnections_Inv; auto.
  - apply shutdown_Inv; auto.
  - (* HealthResult *)
    destruct (pend_take Hp Ht) as [-> ->]; [discriminate|].
    inv_pend Hp.
    unfold health_result. destruct ok.
    + repeat split; auto. apply pend_ok_nil; auto.
    + match goal with Hd : distinct ?p |- _ =>
        destruct (removeConnection_rest c Hd) as (Hd' & Hf' & Hw');
        assert (Hb' : balanced (removeConnection c p) []) by
          (apply (@removeConnection_balanced c p []); auto)
      end.
      repeat split; cbn [pool pending spawn with_pool]; auto.
      apply pend_disconnect; auto.
  - (* Disconnected *)
    destruct (pend_take Hp Ht) as [-> ->]; [discriminate|].
    inv_pend Hp.
    apply getConnection_Inv; [|reflexivity].
    repeat split; auto. apply pend_ok_nil; auto.
  - (* ConnectResult *)
    destruct (pend_take Hp Ht) as [-> ->]; [discriminate|].
    inv_pend Hp.
    unfold connect_result. destruct ok.
    + unfold_inv. split; [|split].
      * intros x. at_conn x. rewrite occ_snoc. dec_lia.
      * intros x Hx. rewrite occ_snoc. specialize (Hf x Hx). dec_lia.
      * apply (@pend_create _ k c avail); unfold_inv; auto.
        -- rewrite length_app. simpl. plia.
        -- intros x. at_conn x. rewrite !occ_snoc. dec_lia.
    + repeat split; auto. apply pend_ok_nil; unfold_inv; auto. plia.
  - (* Created *)
    destruct (pend_take Hp Ht) as [-> ->]; [discriminate|].
    inv_pend Hp.
    unfold created. unfold_inv.
    match goal with H : avail = _ ++ [c] |- _ => rewrite H in *; clear H end.
    rewrite pop_rest_snoc. repeat split; auto.
    apply pend_ok_nil; unfold_inv; auto.
    intros x. at_conn x. at_conn c. rewrite occ_snoc in *. rewrite occ_set_add. dec_lia.
  - (* InitConnectResult *)
    inversion Hp as [ids H1 H2 H3 H4 Heq| | | | | |]; subst pend;
      try (apply take_single in Ht; destruct Ht as [Ht ->]; discriminate).
    apply take_inits in Ht. destruct Ht as (c' & Hc' & Hin & ->).
    injection Hc' as <-.
    assert (Hlen : length (remove_first c ids) + 1 = length ids).
    { rewrite length_remove_first.
      destruct (Nat.ltb_spec 0 (occ ids c)); [|plia].
      pose proof (occ_le_length ids c). plia. }
    destruct (H2 c Hin) as [Hlt Hnot].
    unfold init_connect_result. destruct ok.
    + unfold_inv. split; [|split].
      * intros x. at_conn x. rewrite occ_snoc. dec_lia.
      * intros x Hx. rewrite occ_snoc. specialize (Hf x Hx). dec_lia.
      * apply pend_inits; unfold_inv.
        -- intros x. rewrite occ_remove_first. pose proof (H1 x). pose proof (H1 c).
           dec_lia.
        -- intros x. rewrite occ_remove_first, occ_snoc. specialize (H1 c).
           destruct (Nat.eq_dec x c) as [->|]; [plia|].
           intros Hx. apply H2 in Hx. plia.
        -- rewrite length_app. simpl. plia.
        -- intros x. at_conn x. rewrite !occ_snoc. dec_lia.
    + unfold_inv. split; [|split]; auto.
      apply pend_inits; unfold_inv; auto.
      * intros x. rewrite occ_remove_first. pose proof (H1 x). pose proof (H1 c).
        dec_lia.
      * intros x. rewrite occ_remove_first. specialize (H1 c).
        destruct (Nat.eq_dec x c) as [->|]; [plia|]. apply H2.
      * plia.
  - (* CleanupRemoved *)
    destruct (pend_take Hp Ht) as [-> ->]; [discriminate|].
    inv_pend Hp.
    apply cleanup_next_Inv; auto.
  - (* ShutdownClosed *)
    destruct (pend_take Hp Ht) as [-> ->]; [discriminate|].
    inv_pend Hp.
    unfold shutdown_finish. unfold_inv. split; [|split].
    + intros x. simpl. plia.
    + intros x _. reflexivity.
    + apply pend_ok_nil; unfold_inv; simpl; auto. plia.
Qed.

(** *** Waiters only wait on a saturated pool *)

Definition Inv2 (s : sys) : Prop :=
  waitingQueue (pool s) <> [] ->
  availableConnections (pool s) = [] /\ pending s = [] /\
  length (activeConnections (pool s)) = maxConnections (pool s).

Lemma getConnection_Inv2 (k : Caller) (s : sys) :
  Inv s -> pending s = [] -> Inv2 s -> Inv2 (getConnection k s).
Proof.
  destruct s as [[conns avail active queue mx sd nxt] pend done].
  intros (Hd & Hf & Hp) Hpend H2. cbn in Hpend; subst pend.
  apply pend_ok_nil_inv in Hp. destruct Hp as [Hw Hb].
  unfold getConnection; cbn [pool isShuttingDown availableConnections].
  destruct sd; [exact H2|].
  pose proof (pop_snoc avail) as Hpop.
  assert (Hfull : avail = [] -> length conns = length active).
  { intros ->. apply occ_length. intros x. unfold_inv. at_conn x. dec_lia. }
  unfold Inv2 in *. unfold_inv.
  destruct (pop avail) as [[c rest]|].
  - cbn. intros Hq. apply H2 in Hq. destruct Hq as [Hq _]. subst avail.
    destruct rest; discriminate.
  - cbn [connections maxConnections]. specialize (Hfull Hpop).
    destruct (Nat.ltb_spec (length conns) mx); cbn.
    + intros Hq. apply H2 in Hq. plia.
    + intros _. repeat split; auto. plia.
Qed.

Lemma initialize_loop_queue (n : nat) :
  forall s, waitingQueue (pool (initialize_loop n s)) = waitingQueue (pool s).
Proof.
  induction n as [|n IH]; intros s; cbn [initialize_loop]; [reflexivity|].
  destruct (maxConnections (pool s) <=? length (connections (pool s))); [apply IH|].
  unfold allocate. rewrite IH. reflexivity.
Qed.

Lemma cleanup_next_queue (rest : list Conn) (s : sys) :
  waitingQueue (pool (cleanup_next rest s)) = waitingQueue (pool s).
Proof. destruct rest; reflexivity. Qed.

Lemma Inv_active_once (s : sys) (c : Conn) :
  Inv s -> occ (activeConnections (pool s)) c <= 1.
Proof.
  intros (Hd & _ & Hp). destruct (pend_ok_balanced Hp) as [lim Hb].
  specialize (Hb c). specialize (Hd c). plia.
Qed.

Lemma fire_Inv2 (s s' : sys) (a : action) :
  Inv s -> Inv2 s -> may_enter s a = true -> connects a = true ->
  fire s a = Some s' -> Inv2 s'.
Proof.
  intros HI H2 Henter Hconn Hfire.
  assert (Hquiet : forall t rest, take t (pending s) = Some rest ->
                                  waitingQueue (pool s) = []).
  { intros t rest Ht.
    destruct (waitingQueue (pool s)) eqn:Hq; [reflexivity|].
    destruct H2 as (_ & Hp & _); [rewrite Hq; discriminate|].
    rewrite Hp in Ht. discriminate. }
  destruct a; cbn [fire connects] in *;
    try (destruct (may_enter_call _ _ Henter eq_refl) as [Hpend Hinit];
         injection Hfire as <-);
    try (apply resume_inv in Hfire; destruct Hfire as (rest' & Ht & ->);
         pose proof (Hquiet _ _ Ht) as Hq).
  - (* Initialize *)
    specialize (Hinit eq_refl).
    intros Hq. unfold initialize in *. rewrite initialize_loop_queue in Hq.
    pose proof (H2 Hq) as (Ha & _ & Hm).
    destruct HI as (_ & _ & Hpo). rewrite Hpend in Hpo.
    apply pend_ok_nil_inv in Hpo. destruct Hpo as [_ Hb].
    assert (Hz : activeConnections (pool s) = []).
    { apply occ_nil_all. intros x. specialize (Hb x). rewrite Hinit in Hb.
      simpl in Hb. plia. }
    rewrite Hz in Hm. simpl in Hm. rewrite <- Hm. cbn [Nat.min initialize_loop].
    rewrite Hpend, Hz, <- Hm. auto.
  - apply getConnection_Inv2; auto.
  - (* ReleaseConnection *)
    pose proof (Inv_active_once c HI) as Honce.
    destruct s as [[conns avail active queue mx sd nxt] pend done].
    unfold releaseConnection, Inv2 in *. unfold_inv. rewrite has_occ.
    destruct (Nat.ltb_spec 0 (occ active c)) as [Hin|Hout]; cbn [negb]; [|exact H2].
    destruct queue as [|waiter queue]; cbn; [intros Hq; congruence|].
    intros _. destruct H2 as (-> & -> & Hm); [discriminate|].
    repeat split; auto.
    rewrite length_set_add, occ_remove_first, length_remove_first.
    destruct (Nat.eq_dec c c); [|congruence].
    destruct (Nat.ltb_spec 0 (occ active c)); [|plia].
    pose proof (occ_le_length active c).
    destruct (Nat.ltb_spec 0 (pred (occ active c))); plia.
  - (* Timeout *)
    destruct s as [[conns avail active queue mx sd nxt] pend done].
    unfold timeout, Inv2 in *. unfold_inv.
    destruct (has k queue); cbn; [|exact H2].
    intros Hq. apply H2. destruct queue; [contradiction|discriminate].
  - (* CleanupTick *)
    destruct s as [[conns avail active queue mx sd nxt] pend done].
    unfold cleanupIdleConnections, Inv2 in *. unfold_inv.
    destruct (sd || (length avail <=? 2)) eqn:E; [exact H2|].
    rewrite cleanup_next_queue. cbn. intros Hq.
    destruct (H2 Hq) as (-> & _). rewrite orb_true_r in E. discriminate.
  - (* Shutdown *)
    intros Hq. cbn in Hq. contradiction.
  - (* HealthResult *)
    intros Hq'. exfalso. apply Hq'. unfold health_result. destruct ok; exact Hq.
  - (* Disconnected *)
    destruct HI as (Hd & Hf & Hp).
    destruct s as [p pend done]. cbn [pool pending settled] in *.
    destruct (pend_take Hp Ht) as [-> ->]; [discriminate|].
    inv_pend Hp.
    apply getConnection_Inv2; [|reflexivity|].
    + repeat split; auto. apply pend_ok_nil; auto.
    + intros Hq'. cbn in Hq'. contradiction.
  - (* ConnectResult *)
    subst ok. intros Hq'. exfalso. apply Hq'. exact Hq.
  - (* Created *)
    intros Hq'. exfalso. apply Hq'. exact Hq.
  - (* InitConnectResult *)
    intros Hq'. exfalso. apply Hq'. unfold init_connect_result.
    destruct ok; exact Hq.
  - (* CleanupRemoved *)
    intros Hq'. exfalso. apply Hq'. rewrite cleanup_next_queue. exact Hq.
  - (* ShutdownClosed *)
    intros Hq'. exfalso. apply Hq'. exact Hq.
Qed.

Lemma start_Inv (mx : nat) : Inv (start mx) /\ Inv2 (start mx).
Proof.
  split.
  - repeat split.
    + intros x. simpl. lia.
    + apply pend_ok_nil; unfold within, balanced; simpl; auto. lia.
  - intros Hq. simpl in Hq. contradiction.
Qed.

Lemma run_Inv (trace : list action) :
  forall s s',
    Inv s -> sequential s trace = true -> run s trace = Some s' ->
    Inv s' /\ (Inv2 s -> forallb connects trace = true -> Inv2 s').
Proof.
  induction trace as [|a trace IH]; intros s s' HI Hseq Hrun.
  - injection Hrun as <-. auto.
  - cbn [run sequential forallb] in *.
    apply andb_prop in Hseq. destruct Hseq as [Henter Hseq].
    destruct (fire s a) as [s1|] eqn:Hfire; [|discriminate].
    pose proof (fire_Inv a HI Henter Hfire) as HI1.
    destruct (IH s1 s' HI1 Hseq Hrun) as [HI' H2'].
    split; [exact HI'|].
    intros H2 Hc. apply andb_prop in Hc. destruct Hc as [Hc Hcs].
    apply H2'; [|exact Hcs].
    exact (fire_Inv2 a HI H2 Henter Hc Hfire).
Qed.

(** C4, as amended.  On a pool whose [maxConnections] is a non-negative
    integer, whose asynchronous methods do not overlap and that is only
    initialized while it holds no connection, every reachable state has
    [active + idle <= total <= maxConnections]; and when no [connect()] has
    failed, [waitingRequests > 0] implies [active = maxConnections]. *)
Theorem sequential_pool_invariant (mx : nat) (trace : list action) (s : sys) :
  run (start mx) trace = Some s ->
  sequential (start mx) trace = true ->
  let st := getStats (pool s) in
  stat_activeConnections st + stat_idleConnections st <= stat_totalConnections st /\
  stat_totalConnections st <= stat_maxConnections st /\
  (forallb connects trace = true ->
   0 < stat_waitingRequests st -> stat_activeConnections st = stat_maxConnections st).
Proof.
  intros Hrun Hseq. destruct (start_Inv mx) as [HI0 H20].
  destruct (run_Inv trace HI0 Hseq Hrun) as [HI H2].
  destruct (Inv_counts HI) as [Hsum Hmax].
  cbn [getStats stat_activeConnections stat_idleConnections stat_totalConnections
       stat_maxConnections stat_waitingRequests].
  repeat split; auto.
  intros Hc Hw. apply (H2 H20 Hc).
  destruct (waitingQueue (pool s)); [simpl in Hw; lia|discriminate].
Qed.

Definition waiting_trace : list action :=
  [GetConnection 1; ConnectResult 1 0 true; Created 1 0; GetConnection 2].

Lemma sequential_pool_invariant_witness :
  exists s, run (start 1) waiting_trace = Some s /\
            stat_waitingRequests (getStats (pool s)) = 1 /\
            stat_activeConnections (getStats (pool s)) = stat_maxConnections (getStats (pool s)).
Proof.
  eexists. split; [reflexivity|]. split; [reflexivity|].
  apply (@sequential_pool_invariant 1 waiting_trace _ eq_refl eq_refl);
    [reflexivity|simpl; lia].
Defined.

(** The three ways out of the invariant. *)

Definition failed_connect_trace : list action :=
  [GetConnection 1; ConnectResult 1 0 false].

Definition overlapping_trace : list action :=
  [GetConnection 1; GetConnection 2;
   ConnectResult 1 0 true; Created 1 0; ConnectResult 2 1 true; Created 2 1].

Definition double_initialize_trace : list action :=
  [Initialize; InitConnectResult 0 true; InitConnectResult 1 true;
   Initialize; InitConnectResult 2 true; InitConnectResult 3 true].

Example failed_connect_stats :
  option_map (fun s => getStats (pool s)) (run (start 1) failed_connect_trace)
  = Some {| stat_activeConnections := 0; stat_idleConnections := 0;
            stat_totalConnections := 0; stat_maxConnections := 1;
            stat_waitingRequests := 1 |}.
Proof. reflexivity. Qed.

Example overlapping_stats :
  option_map (fun s => getStats (pool s)) (run (start 1) overlapping_trace)
  = Some {| stat_activeConnections := 2; stat_idleConnections := 0;
            stat_totalConnections := 2; stat_maxConnections := 1;
            stat_waitingRequests := 0 |}.
Proof. reflexivity. Qed.

Example double_initialize_stats :
  option_map (fun s => getStats (pool s)) (run (start 3) double_initialize_trace)
  = Some {| stat_activeConnections := 0; stat_idleConnections := 4;
            stat_totalConnections := 4; stat_maxConnections := 3;
            stat_waitingRequests := 0 |}.
Proof. reflexivity. Qed.

(** C4 as stated fails: after a failed [connect()] a caller waits while no
    connection is active, and two overlapping [getConnection] calls on a pool
    of size 1 leave it with two connections. *)
Lemma pool_invariant_counterexample :
  ~ (forall mx s, reachable mx s ->
       0 < stat_waitingRequests (getStats (pool s)) ->
       stat_activeConnections (getStats (pool s)) = stat_maxConnections (getStats (pool s)))
  /\
  ~ (forall mx s, reachable mx s ->
       stat_totalConnections (getStats (pool s)) <= stat_maxConnections (getStats (pool s))).
Proof.
  split; intros H.
  - destruct (run (start 1) failed_connect_trace) as [s|] eqn:E; [|discriminate].
    assert (Hr : reachable 1 s) by (exists failed_connect_trace; exact E).
    specialize (H 1 s Hr). injection E as <-. simpl in H.
    specialize (H (Nat.lt_0_succ 0)). discriminate.
  - destruct (run (start 1) overlapping_trace) as [s|] eqn:E; [|discriminate].
    assert (Hr : reachable 1 s) by (exists overlapping_trace; exact E).
    specialize (H 1 s Hr). injection E as <-. simpl in H. lia.
Qed.

(** *** First come, first served *)

Lemma releaseConnection_head (s : sys) (c : Conn) (w : Caller) (queue : list Caller) :
  has c (activeConnections (pool s)) = true ->
  waitingQueue (pool s) = w :: queue ->
  let s' := releaseConnection c s in
  settled s' = settled s ++ [(w, Ok c)] /\
  waitingQueue (pool s') = queue /\
  has c (activeConnections (pool s')) = true /\
  availableConnections (pool s') = availableConnections (pool s).
Proof.
  destruct s as [[conns avail active q mx sd nxt] pend done].
  cbn [pool activeConnections waitingQueue]. intros Hc ->.
  unfold releaseConnection. cbn [pool activeConnections waitingQueue].
  rewrite Hc.
  cbn [negb pool settled waitingQueue activeConnections availableConnections
       settle with_pool set_queue set_lists].
  repeat split.
  rewrite !has_occ, occ_set_add. destruct (Nat.eq_dec c c); [|congruence].
  apply Nat.ltb_lt. lia.
Qed.

Lemma getConnection_saturated (s : sys) (k : Caller) :
  isShuttingDown (pool s) = false ->
  availableConnections (pool s) = [] ->
  maxConnections (pool s) <= length (connections (pool s)) ->
  getConnection k s = enqueue k s.
Proof.
  destruct s as [[conns avail active q mx sd nxt] pend done].
  cbn [pool isShuttingDown availableConnections maxConnections connections].
  intros -> -> Hfull. unfold getConnection.
  cbn [pool isShuttingDown availableConnections maxConnections connections pop].
  destruct (Nat.ltb_spec (length conns) mx); [lia|reflexivity].
Qed.

(** C6.  On a saturated pool, two [getConnection] calls [w1] then [w2] join
    the waiting queue in that order, behind the callers already waiting; with
    no earlier waiter, a release hands the connection to [w1], leaves [w2] at
    the head of the queue, and the connection stays marked active (it is not
    returned to the idle list). *)
Theorem waiters_served_fifo (s : sys) (c : Conn) (w1 w2 : Caller) :
  isShuttingDown (pool s) = false ->
  availableConnections (pool s) = [] ->
  maxConnections (pool s) <= length (connections (pool s)) ->
  has c (activeConnections (pool s)) = true ->
  let queue := waitingQueue (pool s) in
  let s2 := getConnection w2 (getConnection w1 s) in
  waitingQueue (pool s2) = queue ++ [w1; w2] /\
  (queue = [] ->
   let s3 := releaseConnection c s2 in
   settled s3 = settled s ++ [(w1, Ok c)] /\
   waitingQueue (pool s3) = [w2] /\
   has c (activeConnections (pool s3)) = true /\
   availableConnections (pool s3) = []).
Proof.
  intros Hsd Hav Hfull Hc. cbv zeta.
  rewrite (getConnection_saturated s w1 Hsd Hav Hfull).
  rewrite getConnection_saturated; [|exact Hsd|exact Hav|exact Hfull].
  destruct s as [[conns avail active q mx sd nxt] pend done].
  cbn [pool isShuttingDown availableConnections maxConnections connections
       activeConnections waitingQueue] in *.
  subst sd avail.
  cbn [enqueue pool waitingQueue set_queue connections availableConnections
       activeConnections maxConnections isShuttingDown nextConn pending settled].
  rewrite <- app_assoc. split; [reflexivity|].
  intros ->. cbn [app].
  match goal with |- context [releaseConnection c ?s2] =>
    destruct (@releaseConnection_head s2 c w1 [w2] Hc eq_refl) as (H1 & H2 & H3 & H4)
  end.
  rewrite H1, H2, H3, H4. cbn. auto.
Qed.

Definition saturated_pool : sys :=
  {| pool := {| connections := [0]; availableConnections := []; activeConnections := [0];
                waitingQueue := []; maxConnections := 1; isShuttingDown := false;
                nextConn := 1 |};
     pending := []; settled := [] |}.

Lemma waiters_served_fifo_witness :
  waitingQueue (pool (getConnection 2 (getConnection 1 saturated_pool))) = [1; 2] /\
  settled (releaseConnection 0 (getConnection 2 (getConnection 1 saturated_pool)))
    = [(1, Ok 0)].
Proof.
  destruct (@waiters_served_fifo saturated_pool 0 1 2 eq_refl eq_refl (le_n 1) eq_refl)
    as [H1 H2].
  split; [exact H1|]. exact (proj1 (H2 eq_refl)).
Defined.

End PoolFacts.

Module MigrationsFacts.
Import Sql Migrations.
Local Open Scope sql_scope.







Definition current_version (db : Db) : Z :=
  match schema_migrations (data db) with
  | None | Some [] => 0
  | Some (m :: ms) => fold_left Z.max (map mig_version ms) (mig_version m)
  end.





Lemma version_after_insert (ms : list MigrationRow) (r : MigrationRow) (db db' : Db) :
  schema_migrations (data db) = Some ms ->
  schema_migrations (data db') = Some (ms ++ [r]) ->
  current_version db' =
    match ms with [] => mig_version r | _ => Z.max (current_version db) (mig_version r) end.
Proof.
  unfold current_version. intros -> ->. destruct ms as [|m ms]; [reflexivity|].
  simpl. rewrite map_app, fold_left_app. reflexivity.
Qed.





Definition empty_database : Db :=
  {| data := {| tables := []; schema_migrations := None; indexes := []; triggers := [] |};
     transaction := None |}.




End MigrationsFacts.

Module StorageFacts.
Import Sql Migrations Storage.
Local Open Scope sql_scope.

(** The database of a fresh installation. *)
Definition installed : Db := snd (initializeSchema 0 MigrationsFacts.empty_database).

Definition rule_r1 : Rule :=
  {| rule_id := "r1"; rule_content := "Always validate input";
     rule_embedding := None; rule_tags := ["sec"%string; "validate"%string];
     rule_tier := 1; rule_metadata := None;
     rule_created_at := 0; rule_updated_at := 0 |}.

Definition only_tier (tier : Z) : RuleUpdates :=
  {| upd_rule_id := None; upd_rule_content := None; upd_rule_embedding := None;
     upd_rule_tags := None; upd_rule_tier := Some tier; upd_rule_metadata := None;
     upd_rule_created_at := None; upd_rule_updated_at := None |}.

(** *** Time stamps *)

Lemma RuleStorage_create_timestamps (rule : Rule) (now : instant) (db db' : Db) (created : Rule) :
  RuleStorage_create rule now db = (Ok created, db') ->
  rule_created_at created = now /\ rule_updated_at created = now.
Proof.
  unfold RuleStorage_create, mbind, ret.
  destruct (insert_row _ _ db) as [[[]|e] db1]; intros H; inversion H; subst; auto.
Qed.

Lemma ProjectDocStorage_create_timestamps (doc : ProjectDoc) (now : instant) (db db' : Db)
  (created : ProjectDoc) :
  ProjectDocStorage_create doc now db = (Ok created, db') ->
  doc_created_at created = now /\ doc_updated_at created = now.
Proof.
  unfold ProjectDocStorage_create, argument, mbind, ret, throw.
  destruct (doc_file_path doc); [|discriminate].
  destruct (insert_row _ _ db) as [[[]|e] db1]; intros H; inversion H; subst; auto.
Qed.

Lemma RefStorage_create_timestamps (ref : Ref) (now : instant) (db db' : Db) (created : Ref) :
  RefStorage_create ref now db = (Ok created, db') ->
  ref_created_at created = now /\ ref_updated_at created = now.
Proof.
  unfold RefStorage_create, argument, mbind, ret, throw.
  destruct (ref_channel_id ref); [|discriminate].
  destruct (insert_row _ _ db) as [[[]|e] db1]; intros H; inversion H; subst; auto.
Qed.

(** A successful update returns the clock reading taken during the update,
    whatever the time stamp of the row was. *)
Lemma RuleStorage_update_timestamp (id_ : string) (updates : RuleUpdates)
  (now ts : instant) (db db' : Db) (updated : Rule) :
  RuleStorage_update id_ updates now ts db = (Ok (Some updated), db') ->
  rule_updated_at updated = now.
Proof.
  unfold RuleStorage_update. unfold mbind at 1.
  destruct (RuleStorage_findById id_ db) as [[[existing|]|e] db1];
    try (unfold ret; discriminate).
  unfold mbind, ret. destruct (update_where _ _ _ _ db1) as [[n|e] db2]; [|discriminate].
  intros H; inversion H; subst; reflexivity.
Qed.

Definition stamped (rule : Rule) (tier : Z) (created updated : instant) : Rule :=
  {| rule_id := rule_id rule; rule_content := rule_content rule;
     rule_embedding := rule_embedding rule; rule_tags := rule_tags rule;
     rule_tier := tier; rule_metadata := rule_metadata rule;
     rule_created_at := created; rule_updated_at := updated |}.

Definition after_create : Db := snd (RuleStorage_create rule_r1 1000 installed).

(** C2.  A rule created and then updated within the same millisecond (clock
    reading 1000 both times): [create] sets both time stamps to 1000, and the
    update succeeds and returns [updated_at = 1000], which is the
    [updated_at] the row had before, not a later instant. *)
Theorem update_same_millisecond :
  fst (RuleStorage_create rule_r1 1000 installed) = Ok (stamped rule_r1 1 1000 1000) /\
  fst (RuleStorage_findById "r1" after_create) = Ok (Some (stamped rule_r1 1 1000 1000)) /\
  fst (RuleStorage_update "r1" (only_tier 2) 1000 1000 after_create)
    = Ok (Some (stamped rule_r1 2 1000 1000)).
Proof. vm_compute. repeat split. Qed.

End StorageFacts.

Module VectorIndexFacts.
Import JSNumber VectorOperations Sql Migrations Storage VectorIndex StorageFacts.
Local Open Scope sql_scope.

(** *** Table names *)

(** Whatever [storeEmbedding] fails with, it is the dimension check or the
    engine: the table name is never looked up in the list of known
    tables. *)
Lemma storeEmbedding_errors (dims : nat) (table id_ : string) (embedding : Embedding)
  (ts : instant) (db db' : Db) (e : error) :
  storeEmbedding dims table id_ embedding ts db = (Err e, db') ->
  e = EmbeddingDimensions (length embedding) dims \/ e = no_such_table table.
Proof.
  unfold storeEmbedding, mbind, lift, validateDimensions, update_where.
  destruct (negb (Nat.eqb (length embedding) dims)).
  - intros H; inversion H; auto.
  - destruct (find_table table (tables (data db))); intros H; inversion H; auto.
Qed.

Definition one_two_three : Embedding := [of_Z 1; of_Z 2; of_Z 3].

(** C1.  [RULES] is not one of the three allowlisted names ([getTableType]
    rejects it), yet [storeEmbedding] raises no error: it sends
    [UPDATE RULES SET embedding = ? WHERE id = ?], which the engine runs on
    the table [rules].  A name that denotes no table fails with the engine's
    error. *)
Theorem storeEmbedding_unlisted_table :
  getTableType "RULES" = Err (UnknownTableType "RULES") /\
  fst (storeEmbedding 3 "RULES" "r1" one_two_three 2000 after_create) = Ok tt /\
  fst (getEmbedding "rules" "r1"
         (snd (storeEmbedding 3 "RULES" "r1" one_two_three 2000 after_create)))
    = Ok (Some one_two_three) /\
  fst (storeEmbedding 3 "users" "r1" one_two_three 2000 after_create)
    = Err (SqlError "no such table: users").
Proof. vm_compute. repeat split. Qed.

End VectorIndexFacts.

(** ** Sorting and slicing *)

Module JSArrayFacts.
Import JSNumber JSArray.

Section SortFacts.
Variable A : Type.
Variable compareFn : A -> A -> number.
(** The elements the comparator orders, and the order it puts them in: a
    greater key goes first. *)
Variable good : A -> Prop.
Variable key : A -> Z.
Hypothesis compare_key :
  forall a b, good a -> good b -> goes_before compareFn a b = (key b <? key a).


Lemma insert_perm (x : A) (l : list A) : Permutation (x :: l) (insert compareFn x l).
Proof.
  induction l as [|y l IH]; cbn [insert]; [reflexivity|].
  destruct (goes_before compareFn y x); [|reflexivity].
  rewrite perm_swap. apply perm_skip. exact IH.
Qed.

Lemma sort_perm (l : list A) : Permutation l (sort compareFn l).
Proof.
  induction l as [|x l IH]; cbn [sort]; [reflexivity|].
  rewrite <- insert_perm. apply perm_skip. exact IH.
Qed.

Lemma sort_good (l : list A) : Forall good l -> Forall good (sort compareFn l).
Proof. intros H. exact (Permutation_Forall (sort_perm l) H). Qed.



(** Stability: the elements of one rank keep the order they came in. *)
Section Stable.
Variable same : A -> bool.
Hypothesis same_key :
  forall a b, good a -> good b -> same a = true -> same b = true -> key a = key b.


End Stable.
End SortFacts.




End JSArrayFacts.

(** ** Semantic search *)

Module SemanticSearchFacts.
Import JSNumber JSNumberFacts VectorOperations Sql Storage VectorIndex JSArray JSArrayFacts.
Import StorageFacts VectorIndexFacts.
Local Open Scope sql_scope.

(** *** What the search is to return *)

(** The cosine similarity of a row's stored embedding with the query. *)
Definition similarity (q : Embedding) (row : Row) : number :=
  match deserializeEmbedding (default (row_embedding row) []) with
  | Ok e => match cosineSimilarity q e with Ok s => s | Err _ => nan end
  | Err _ => nan
  end.

Definition hit (q : Embedding) (includeMetadata : bool) (tr : table_type * Row)
  : SearchResult :=
  {| id := row_id (snd tr); content := row_content (snd tr);
     similarity_score := similarity q (snd tr); type := fst tr;
     metadata := result_metadata includeMetadata (snd tr) |}.

(** The rows that have an embedding, in table iteration order and, within a
    table, in row order. *)
Definition rows_of (tables : list (string * table_type)) (d : Data)
  : list (table_type * Row) :=
  flat_map (fun t => map (pair (snd t))
                       (filter embedded (default (find_table (fst t) (Sql.tables d)) [])))
           tables.

Definition embedded_rows (d : Data) : list (table_type * Row) := rows_of search_tables d.








(** *** The scores *)










(** *** The scan *)




(** *** The result *)


(** *** Examples *)

Definition rule_r2 : Rule :=
  {| rule_id := "r2"; rule_content := "Prefer composition";
     rule_embedding := None; rule_tags := [];
     rule_tier := 2; rule_metadata := None;
     rule_created_at := 0; rule_updated_at := 0 |}.

Definition three_two_one : Embedding := [of_Z 3; of_Z 2; of_Z 1].

(** Two rules with embeddings: [r1] with [1, 2, 3], then [r2] with
    [3, 2, 1]. *)
Definition two_rules : Db :=
  let db1 := snd (RuleStorage_create rule_r2 1000 after_create) in
  let db2 := snd (storeEmbedding 3 "rules" "r1" one_two_three 2000 db1) in
  snd (storeEmbedding 3 "rules" "r2" three_two_one 2000 db2).

Definition defaults : VectorSearchOptions :=
  {| limit := None; threshold := None; includeMetadata := None |}.




End SemanticSearchFacts.


Module MemoryServiceFacts.
Import JSNumber VectorOperations Sql Migrations Storage VectorIndex MemoryService.
Local Open Scope sql_scope.

(** *** The underlying cache *)

Section LRUFacts.
Variable V : Type.
Implicit Types (l : list (LRU.item V)) (c : LRU.t V).

Lemma lookup_remove_other (k k' : string) l :
  k <> k' -> LRU.lookup k (LRU.remove k' l) = LRU.lookup k l.
Proof.
  intros Hne. induction l as [|it l IH]; simpl; [reflexivity|].
  destruct (String.eqb_spec (LRU.item_key it) k') as [Hk'|Hk'].
  - destruct (String.eqb_spec (LRU.item_key it) k); [congruence|reflexivity].
  - simpl. rewrite IH. reflexivity.
Qed.

Lemma lookup_removelast (k : string) l :
  LRU.lookup k (removelast l) = LRU.lookup k l \/ LRU.lookup k (removelast l) = None.
Proof.
  induction l as [|it l IH]; [left; reflexivity|].
  destruct l as [|it' l']; [right; reflexivity|].
  change (removelast (it :: it' :: l')) with (it :: removelast (it' :: l')).
  cbn [LRU.lookup]. destruct (String.eqb (LRU.item_key it) k); [left; reflexivity|exact IH].
Qed.

Lemma length_remove (k : string) l (it : LRU.item V) :
  LRU.lookup k l = Some it -> S (length (LRU.remove k l)) = length l.
Proof.
  induction l as [|x l IH]; simpl; [discriminate|].
  destruct (String.eqb (LRU.item_key x) k); [reflexivity|].
  intros H. simpl. rewrite IH; auto.
Qed.

Lemma length_removelast (l : list (LRU.item V)) :
  l <> [] -> S (length (removelast l)) = length l.
Proof.
  intros H. destruct (exists_last H) as (l' & a & ->).
  rewrite removelast_last, length_app. simpl. lia.
Qed.

(** The cache holds as many items as it may and cannot take one more without
    evicting. *)
Definition full c : Prop := LRU.size c = LRU.max c /\ LRU.max c <> 0%nat.

(** What may have happened to the entry under [k] between [c0] and [c]: it is
    as it was, or it is gone and the cache is full. *)
Definition kept_or_evicted (k : string) c0 c : Prop :=
  LRU.lookup k (LRU.items c) = LRU.lookup k (LRU.items c0) \/
  (LRU.lookup k (LRU.items c) = None /\ full c).

Lemma set_other (k k' : string) (v : V) (now : Z) c :
  k <> k' -> kept_or_evicted k c (LRU.set c k' v now).
Proof.
  intros Hne. unfold kept_or_evicted, LRU.set.
  assert (Hhead : forall rest, LRU.lookup k (LRU.Item k' v now :: rest) = LRU.lookup k rest).
  { intros rest. simpl. destruct (String.eqb_spec k' k); [congruence|reflexivity]. }
  destruct (LRU.lookup k' (LRU.items c)) as [it|] eqn:E; cbn [LRU.items LRU.with_items].
  - left. rewrite Hhead. apply lookup_remove_other; exact Hne.
  - destruct (Nat.eqb_spec (LRU.size c) (LRU.max c)) as [Hfull|]; cbn [andb];
      [|left; apply Hhead].
    destruct (Nat.eqb_spec (LRU.max c) 0) as [Hz|Hnz]; cbn [negb]; [left; apply Hhead|].
    rewrite Hhead. destruct (lookup_removelast k (LRU.items c)) as [H|H]; [left; exact H|].
    right. split; [exact H|]. unfold full, LRU.size in *.
    cbn [LRU.items LRU.max LRU.with_items length]. split; [|exact Hnz].
    rewrite length_removelast; [exact Hfull|].
    intros Hnil. rewrite Hnil in Hfull. simpl in Hfull. congruence.
Qed.

Lemma set_full (k' : string) (v : V) (now : Z) c : full c -> full (LRU.set c k' v now).
Proof.
  unfold full, LRU.set, LRU.size. intros [Hsize Hnz].
  destruct (LRU.lookup k' (LRU.items c)) as [it|] eqn:E;
    cbn [LRU.items LRU.max LRU.with_items length].
  - rewrite (length_remove _ _ E). auto.
  - unfold LRU.size. rewrite Hsize, Nat.eqb_refl.
    destruct (Nat.eqb_spec (LRU.max c) 0); [contradiction|]. cbn [andb negb].
    split; [|exact Hnz]. rewrite length_removelast; [exact Hsize|].
    intros Hnil. rewrite Hnil in Hsize. simpl in Hsize. congruence.
Qed.

Lemma set_other_again (k k' : string) (v : V) (now : Z) c0 c :
  k <> k' -> kept_or_evicted k c0 c -> kept_or_evicted k c0 (LRU.set c k' v now).
Proof.
  intros Hne [Hkept|[Hgone Hfull]].
  - destruct (set_other v now c Hne) as [H|H]; [left; congruence|right; exact H].
  - right. split; [|apply set_full; exact Hfull].
    destruct (set_other v now c Hne) as [H|[H _]]; congruence.
Qed.

Lemma delete_other (k k' : string) c :
  k <> k' -> LRU.lookup k (LRU.items (snd (LRU.delete c k'))) = LRU.lookup k (LRU.items c).
Proof.
  intros Hne. unfold LRU.delete.
  destruct (LRU.lookup k' (LRU.items c)); cbn; [|reflexivity].
  apply lookup_remove_other; exact Hne.
Qed.
End LRUFacts.

(** *** Cache keys *)

Definition is_search_key (k : string) : bool := String.prefix "search:" k.

Definition schema_names : list string := ["rules"; "project_docs"; "refs"]%string.

(** The database holds the row tables of the schema and no other. *)
Definition schema_tables_only (db : Db) : Prop :=
  forall n, In n (map fst (tables (data db))) -> In (lower n) schema_names.

Definition entry (k : string) (s : t) : option (LRU.item (MemoryCache.CacheEntry cached)) :=
  LRU.lookup k (LRU.items (MemoryCache.cache (cache s))).

Lemma search_key_neq (k k' : string) :
  is_search_key k = true -> is_search_key k' = false -> k <> k'.
Proof. intros H H' ->. congruence. Qed.

(** The cache key of a batch entry whose table is one of the schema's. *)
Lemma batch_key_not_search (table id_ : string) :
  In (lower table) schema_names ->
  is_search_key (drop_last table ++ ":" ++ id_) = false.
Proof.
  intros H. destruct table as [|c0 [|c1 rest]].
  - simpl in H. intuition discriminate.
  - simpl in H. intuition discriminate.
  - unfold is_search_key. cbn [drop_last append String.prefix].
    destruct (ascii_dec "s" c0) as [<-|]; [|reflexivity].
    exfalso. cbn in H. intuition discriminate.
Qed.

(** *** Which tables a successful batch has touched *)

Lemma find_table_name (name : string) (ts : list (string * list Row)) (rows : list Row) :
  find_table name ts = Some rows ->
  exists n, In n (map fst ts) /\ same_name n name = true.
Proof.
  induction ts as [|[n r] ts IH]; simpl; [discriminate|].
  destruct (same_name n name) eqn:E.
  - intros _. exists n. auto.
  - intros H. destruct (IH H) as (n' & Hin & Hn'). exists n'. auto.
Qed.

Lemma set_table_names (name : string) (rows : list Row) (ts : list (string * list Row)) :
  map fst (set_table name rows ts) = map fst ts.
Proof.
  induction ts as [|[n r] ts IH]; simpl; [reflexivity|].
  destruct (same_name n name); simpl; [reflexivity|]. rewrite IH. reflexivity.
Qed.

Lemma storeEmbedding_table (dims : nat) (table id_ : string) (embedding : Embedding)
  (ts : instant) (db db' : Db) :
  storeEmbedding dims table id_ embedding ts db = (Ok tt, db') ->
  map fst (tables (data db')) = map fst (tables (data db)) /\
  exists n, In n (map fst (tables (data db))) /\ same_name n table = true.
Proof.
  unfold storeEmbedding, mbind, lift, update_where, ret.
  destruct (validateDimensions embedding dims); [|discriminate].
  destruct (find_table table (tables (data db))) as [rows|] eqn:E; [|discriminate].
  intros H. inversion H; subst. cbn. split; [apply set_table_names|].
  apply (find_table_name _ _ E).
Qed.

Lemma for_each_tables (dims : nat) (ts : instant)
  (documents : list (string * string * Embedding)) :
  forall db db',
    for_each documents
      (fun doc => let '(table, id_, embedding) := doc in
                  storeEmbedding dims table id_ embedding ts) db = (Ok tt, db') ->
    map fst (tables (data db')) = map fst (tables (data db)) /\
    forall table id_ embedding,
      In (table, id_, embedding) documents ->
      exists n, In n (map fst (tables (data db))) /\ same_name n table = true.
Proof.
  induction documents as [|[[table id_] embedding] documents IH]; intros db db'.
  - cbn. intros H; inversion H; subst. split; [reflexivity|]. intros ? ? ? [].
  - cbn [for_each]. unfold mbind at 1.
    destruct (storeEmbedding dims table id_ embedding ts db) as [[[]|e] db1] eqn:E;
      [|discriminate].
    intros H. destruct (storeEmbedding_table _ _ _ _ _ _ E) as [Hn Hres].
    destruct (IH db1 db' H) as [Hn' Hall]. split; [congruence|].
    intros table' id' embedding' [Heq|Hin].
    + inversion Heq; subst. exact Hres.
    + rewrite <- Hn. eapply Hall; eauto.
Qed.

Lemma batch_tables (dims : nat) (ts : instant)
  (documents : list (string * string * Embedding)) (db db' : Db) :
  VectorIndex.batchStoreEmbeddings dims documents ts db = (Ok tt, db') ->
  forall table id_ embedding,
    In (table, id_, embedding) documents ->
    exists n, In n (map fst (tables (data db))) /\ same_name n table = true.
Proof.
  unfold VectorIndex.batchStoreEmbeddings. unfold mbind at 1, begin_transaction.
  destruct (transaction db); [discriminate|].
  unfold try_catch. unfold mbind at 1.
  match goal with |- context [for_each documents ?body ?d] =>
    destruct (for_each documents body d) as [[[]|e] db1] eqn:E end.
  - intros _. apply for_each_tables in E. destruct E as [_ Hall]. exact Hall.
  - unfold mbind, rollback, throw. cbn.
    destruct (transaction db1); discriminate.
Qed.

(** *** The facade *)

Lemma withConnection_cache {A} (env : environment) (s : t) (operation : M A)
  (after : A -> MemoryCache.t cached -> MemoryCache.t cached) :
  cache (snd (withConnection env s operation after)) = cache s \/
  exists a db, operation (database s) = (Ok a, db) /\
               cache (snd (withConnection env s operation after)) = after a (cache s).
Proof.
  unfold withConnection.
  destruct (isInitialized s); cbn [negb]; [|left; reflexivity].
  destruct (checkout env); [|left; reflexivity].
  destruct (operation (database s)) as [[x|e] db] eqn:E; [|left; reflexivity].
  right. exists x, db. auto.
Qed.

Definition survives (k : string) (s s' : t) : Prop :=
  kept_or_evicted k (MemoryCache.cache (cache s)) (MemoryCache.cache (cache s')).

Lemma survives_refl (k : string) (s s' : t) : cache s' = cache s -> survives k s s'.
Proof. intros H. left. rewrite H. reflexivity. Qed.

Lemma batch_deletes (k : string) (documents : list (string * string * Embedding)) :
  (forall doc, In doc documents -> is_search_key (batch_key doc) = false) ->
  is_search_key k = true ->
  forall c : MemoryCache.t cached,
    LRU.lookup k (LRU.items (MemoryCache.cache
      (fold_left (fun c doc => snd (MemoryCache.delete c (batch_key doc))) documents c)))
    = LRU.lookup k (LRU.items (MemoryCache.cache c)).
Proof.
  intros Hkeys Hk. induction documents as [|doc documents IH]; intros c; [reflexivity|].
  cbn [fold_left]. rewrite IH by (intros d Hd; apply Hkeys; right; exact Hd).
  unfold MemoryCache.delete.
  pose proof (@delete_other _ k (batch_key doc) (MemoryCache.cache c)) as Hdel.
  destruct (LRU.delete (MemoryCache.cache c) (batch_key doc)) as [[|] lru];
    cbn [snd MemoryCache.cache] in *; apply Hdel;
    apply search_key_neq; auto; apply Hkeys; left; reflexivity.
Qed.

Section Search.
Variable JSON_stringify : Embedding -> QueryOptions -> string.

(** A fresh entry under the key of a search is what [semanticSearch]
    returns, and the database is not consulted. *)
Lemma semanticSearch_hit (queryEmbedding : Embedding) (options : QueryOptions)
  (env : environment) (s : t) (it : LRU.item (MemoryCache.CacheEntry cached)) :
  isInitialized s = true ->
  entry (cacheKey JSON_stringify queryEmbedding options) s = Some it ->
  LRU.isStale (MemoryCache.cache (cache s)) (now env) it = false ->
  fst (semanticSearch JSON_stringify queryEmbedding options env s)
    = Ok (MemoryCache.value (LRU.item_value it)) /\
  database (snd (semanticSearch JSON_stringify queryEmbedding options env s)) = database s.
Proof.
  unfold entry, semanticSearch, MemoryCache.get, LRU.get. intros -> -> ->.
  cbn. auto.
Qed.

(** C10, as amended.  On a database that holds no table besides the
    schema's, a row mutation through the facade leaves every cache entry
    whose key begins with [search:] as it was, unless the entry is evicted
    because the mutation caches a record in a full cache; and while the
    entry is there and has not expired, [semanticSearch] returns the cached
    results unchanged.  Without the restriction on the tables the claim
    fails, as the example after the witness shows. *)
Theorem search_entries_survive (m : mutation) (env : environment) (s : t) (k : string) :
  is_search_key k = true ->
  schema_tables_only (database s) ->
  let s' := mutate m env s in
  (entry k s' = entry k s \/
   (entry k s' = None /\ full (MemoryCache.cache (cache s')))) /\
  (forall queryEmbedding options env' it,
     cacheKey JSON_stringify queryEmbedding options = k ->
     isInitialized s' = true ->
     entry k s' = Some it ->
     LRU.isStale (MemoryCache.cache (cache s')) (now env') it = false ->
     fst (semanticSearch JSON_stringify queryEmbedding options env' s')
       = Ok (MemoryCache.value (LRU.item_value it))).
Proof.
  intros Hk Hschema. cbv zeta. split.
  - change (survives k s (mutate m env s)).
    assert (Hrule : forall x, k <> ("rule:" ++ x)%string)
      by (intros x; apply search_key_neq; [exact Hk|reflexivity]).
    assert (Hdoc : forall x, k <> ("project_doc:" ++ x)%string)
      by (intros x; apply search_key_neq; [exact Hk|reflexivity]).
    assert (Href : forall x, k <> ("ref:" ++ x)%string)
      by (intros x; apply search_key_neq; [exact Hk|reflexivity]).
    destruct m as [rule|id_ updates|id_|doc|ref|documents]; cbn [mutate].
    + unfold createRule.
      match goal with |- context [withConnection env s ?op ?after] =>
        destruct (withConnection_cache env s op after) as [H|(a & db & _ & H)] end;
        [apply survives_refl; exact H|].
      unfold survives. rewrite H. apply set_other. apply Hrule.
    + unfold updateRule.
      match goal with |- context [withConnection env s ?op ?after] =>
        destruct (withConnection_cache env s op after) as [H|(a & db & _ & H)] end;
        [apply survives_refl; exact H|].
      unfold survives. rewrite H. destruct a as [updated|]; [|left; reflexivity].
      apply set_other. apply Hrule.
    + unfold deleteRule.
      match goal with |- context [withConnection env s ?op ?after] =>
        destruct (withConnection_cache env s op after) as [H|(a & db & _ & H)] end;
        [apply survives_refl; exact H|].
      unfold survives. rewrite H. destruct a; [|left; reflexivity].
      left. unfold MemoryCache.delete.
      pose proof (@delete_other _ k ("rule:" ++ id_)%string (MemoryCache.cache (cache s))
                    (Hrule id_)) as Hdel.
      destruct (LRU.delete (MemoryCache.cache (cache s)) ("rule:" ++ id_)) as [[|] lru];
        exact Hdel.
    + unfold createProjectDoc.
      match goal with |- context [withConnection env s ?op ?after] =>
        destruct (withConnection_cache env s op after) as [H|(a & db & _ & H)] end;
        [apply survives_refl; exact H|].
      unfold survives. rewrite H. apply set_other. apply Hdoc.
    + unfold createRef.
      match goal with |- context [withConnection env s ?op ?after] =>
        destruct (withConnection_cache env s op after) as [H|(a & db & _ & H)] end;
        [apply survives_refl; exact H|].
      unfold survives. rewrite H. cbn [MemoryCache.set MemoryCache.cache].
      apply set_other_again; [apply Href|]. apply set_other. apply Href.
    + unfold MemoryService.batchStoreEmbeddings.
      match goal with |- context [withConnection env s ?op ?after] =>
        destruct (withConnection_cache env s op after) as [H|(a & db & Hop & H)] end;
        [apply survives_refl; exact H|].
      unfold survives. rewrite H. left. apply batch_deletes; [|exact Hk].
      intros [[table id_] embedding] Hin. destruct a.
      destruct (batch_tables _ _ _ _ Hop _ _ _ Hin) as (n & Hn & Hsame).
      apply batch_key_not_search. apply Hschema in Hn.
      unfold same_name in Hsame. apply String.eqb_eq in Hsame. rewrite <- Hsame. exact Hn.
  - intros queryEmbedding options env' it <- Hinit Hentry Hfresh.
    apply semanticSearch_hit; assumption.
Qed.
End Search.

(** A service on a fresh installation that has answered one search. *)
Definition stringify_stub (embedding : Embedding) (options : QueryOptions) : string := "{}".

Definition no_options : QueryOptions :=
  {| q_limit := None; q_threshold := None; q_project_id := None; q_channel_id := None;
     q_tags := None; q_tier := None |}.

Definition at_time (now : instant) : environment :=
  {| now := now; current_timestamp := now; checkout := Ok tt |}.

Definition searched : t :=
  snd (semanticSearch stringify_stub VectorIndexFacts.one_two_three no_options (at_time 10)
         {| config := {| cfg_cache := {| MemoryCache.cfg_maxSize := 10;
                                         MemoryCache.cfg_ttl := 1000;
                                         MemoryCache.cfg_updateAgeOnGet := None |};
                         cfg_vectorDimensions := 3 |};
            cache := MemoryCache.create cached
                       {| MemoryCache.cfg_maxSize := 10; MemoryCache.cfg_ttl := 1000;
                          MemoryCache.cfg_updateAgeOnGet := None |};
            database := StorageFacts.installed;
            isInitialized := true |}).

(** [JSON.stringify({ embedding: [1, 2, 3], options: {} })], the text that
    the one query of the examples below is rendered to. *)
Definition quoted (name : string) : string :=
  String (ascii_of_nat 34) (name ++ String (ascii_of_nat 34) EmptyString).

Definition query_text : string :=
  "{" ++ quoted "embedding" ++ ":[1,2,3]," ++ quoted "options" ++ ":{}}".

Definition stringify_query (embedding : Embedding) (options : QueryOptions) : string :=
  query_text.

Definition query_key : string := "search:" ++ query_text.

(** A service on a database that has answered that query. *)
Definition answered (database : Db) : t :=
  snd (semanticSearch stringify_query VectorIndexFacts.one_two_three no_options (at_time 10)
         {| config := {| cfg_cache := {| MemoryCache.cfg_maxSize := 10;
                                         MemoryCache.cfg_ttl := 1000;
                                         MemoryCache.cfg_updateAgeOnGet := None |};
                         cfg_vectorDimensions := 3 |};
            cache := MemoryCache.create cached
                       {| MemoryCache.cfg_maxSize := 10; MemoryCache.cfg_ttl := 1000;
                          MemoryCache.cfg_updateAgeOnGet := None |};
            database := database;
            isInitialized := true |}).

(** The ids of the results cached under the key of that query. *)
Definition cached_ids (s : t) : option (list string) :=
  match entry query_key s with
  | Some it =>
      match MemoryCache.value (LRU.item_value it) with
      | CachedSearch results => Some (map id results)
      | _ => None
      end
  | None => None
  end.

(** The two rules have been found; then [r1] is deleted. *)
Definition found_two : t := answered SemanticSearchFacts.two_rules.

Lemma search_entries_survive_witness :
  let s' := mutate (DeleteRule "r1") (at_time 20) found_two in
  (cached_ids found_two = Some ["r1"; "r2"]%string /\
   fst (RuleStorage_findById "r1" (database s')) = Ok None /\
   cached_ids s' = Some ["r1"; "r2"]%string) /\
  (entry query_key s' = entry query_key found_two \/
   (entry query_key s' = None /\ full (MemoryCache.cache (cache s')))) /\
  (forall queryEmbedding options env' it,
     cacheKey stringify_query queryEmbedding options = query_key ->
     isInitialized s' = true ->
     entry query_key s' = Some it ->
     LRU.isStale (MemoryCache.cache (cache s')) (now env') it = false ->
     fst (semanticSearch stringify_query queryEmbedding options env' s')
       = Ok (MemoryCache.value (LRU.item_value it))).
Proof.
  split; [vm_compute; repeat split|].
  apply (@search_entries_survive stringify_query (DeleteRule "r1") (at_time 20) found_two
           query_key eq_refl).
  intros n Hn. vm_compute in Hn.
  destruct Hn as [<-|[<-|[<-|[]]]]; vm_compute; auto.
Defined.

(** A database that holds one more table, [searchx]. *)
Definition with_searchx : Db := snd (create_table "searchx" StorageFacts.installed).

Definition found_none : t := answered with_searchx.

(** C10 as stated fails.  [batchStoreEmbeddings] deletes the cache key
    [table.slice(0, -1) + ':' + id] of each document.  For a document of the
    table [searchx], which this database holds, whose id is the text of the
    query, that is the key of the cached search: the entry is deleted from
    a cache that holds nothing else and has room for ten. *)
Lemma search_entries_counterexample :
  let s' := mutate (BatchStoreEmbeddings [("searchx"%string, query_text,
                                           VectorIndexFacts.one_two_three)])
              (at_time 20) found_none in
  is_search_key query_key = true /\
  cacheKey stringify_query VectorIndexFacts.one_two_three no_options = query_key /\
  cached_ids found_none = Some [] /\
  fst (VectorIndex.batchStoreEmbeddings 3
         [("searchx"%string, query_text, VectorIndexFacts.one_two_three)]
         20 (database found_none)) = Ok tt /\
  entry query_key s' = None /\
  LRU.size (MemoryCache.cache (cache s')) = 0%nat /\
  LRU.max (MemoryCache.cache (cache s')) = 10%nat.
Proof. vm_compute. repeat split. Qed.

Example cached_search_entry :
  option_map (fun it => MemoryCache.value (LRU.item_value it)) (entry "search:{}" searched)
  = Some (CachedSearch []).
Proof. vm_compute. reflexivity. Qed.

End MemoryServiceFacts.

(** ** Vector arithmetic *)

Module VectorAlgebraFacts.
Import JSNumber JSNumberFacts VectorOperations VectorOperationsFacts.

(** *** Multiplication and subtraction with the operands swapped *)

Lemma mul_comm (x y : number) : mul x y = mul y x.
Proof.
  unfold mul.
  destruct x as [sx|sx| |sx mx ex], y as [sy|sy| |sy my ey]; cbn [SFmul];
    try rewrite (xorb_comm sy sx); try reflexivity.
  rewrite (Pos.mul_comm my mx), (Z.add_comm ey ex). reflexivity.
Qed.

Lemma binary_round_aux_opp (s : bool) (m e : Z) (l : location) :
  binary_round_aux prec emax (negb s) m e l = SFopp (binary_round_aux prec emax s m e l).
Proof.
  unfold binary_round_aux.
  destruct (shr_fexp prec emax m e l) as [mrs e1].
  destruct (shr_fexp prec emax _ e1 loc_Exact) as [mrs2 e2].
  destruct (shr_m mrs2); [reflexivity| |reflexivity].
  destruct (e2 <=? emax - prec); reflexivity.
Qed.

Lemma binary_round_opp (s : bool) (m : positive) (e : Z) :
  binary_round prec emax (negb s) m e = SFopp (binary_round prec emax s m e).
Proof.
  unfold binary_round. destruct (shl_align m e _) as [mz ez]. apply binary_round_aux_opp.
Qed.

(** Two numbers with the same square: equal up to the sign. *)
Definition same_magnitude (x y : number) : Prop := x = y \/ x = SFopp y.

Lemma same_magnitude_square (x y : number) : same_magnitude x y -> mul x x = mul y y.
Proof.
  intros [->| ->]; [reflexivity|]. unfold mul.
  destruct y as [s|s| |s m e]; cbn [SFopp SFmul]; try reflexivity;
    destruct s; reflexivity.
Qed.

Lemma sub_swap (x y : number) : same_magnitude (sub x y) (sub y x).
Proof.
  unfold same_magnitude, sub.
  destruct x as [sx|sx| |sx mx ex], y as [sy|sy| |sy my ey]; cbn [SFsub SFopp];
    try (destruct sx, sy; cbn; auto; fail); try (destruct sx; cbn; auto; fail);
    try (destruct sy; cbn; auto; fail); auto.
  rewrite (Z.min_comm ey ex).
  set (X := Z.pos (fst (shl_align mx ex (Z.min ex ey)))).
  set (Y := Z.pos (fst (shl_align my ey (Z.min ex ey)))).
  replace (cond_Zopp sy Y - cond_Zopp sx X) with (- (cond_Zopp sx X - cond_Zopp sy Y)) by lia.
  destruct (cond_Zopp sx X - cond_Zopp sy Y) as [|d|d]; cbn [Z.opp binary_normalize].
  - left. reflexivity.
  - right. apply (binary_round_opp true).
  - right. apply (binary_round_opp false).
Qed.

Lemma distance_loop_swap (a b : Embedding) (sum : number) :
  distance_loop a b sum = distance_loop b a sum.
Proof.
  revert b sum. induction a as [|x a IH]; intros [|y b] sum; try reflexivity.
  cbn [distance_loop]. cbv zeta.
  rewrite (same_magnitude_square (sub_swap x y)). apply IH.
Qed.

Lemma dot_loop_swap (a b : Embedding) (product : number) :
  dot_loop a b product = dot_loop b a product.
Proof.
  revert b product. induction a as [|x a IH]; intros [|y b] product; try reflexivity.
  cbn [dot_loop]. rewrite (mul_comm x y). apply IH.
Qed.

Lemma cosine_loop_swap (a b : Embedding) (d na nb : number) :
  cosine_loop b a (d, nb, na) =
  (let '(d', na', nb') := cosine_loop a b (d, na, nb) in (d', nb', na')).
Proof.
  revert b d na nb. induction a as [|x a IH]; intros [|y b] d na nb; try reflexivity.
  cbn [cosine_loop]. rewrite (mul_comm y x). apply IH.
Qed.

Lemma strict_eq_zero_swap (x y : number) :
  strict_eq x zero || strict_eq y zero = strict_eq y zero || strict_eq x zero.
Proof. apply orb_comm. Qed.

(** X1.  On vectors of one length [cosineSimilarity], [euclideanDistance] and
    [dotProduct] return the same number whichever way round the arguments
    come: the products commute, and [a - b] and [b - a] have the same
    square. *)
Theorem measures_symmetric (a b : Embedding) :
  length a = length b ->
  cosineSimilarity a b = cosineSimilarity b a /\
  euclideanDistance a b = euclideanDistance b a /\
  dotProduct a b = dotProduct b a.
Proof.
  intros Hlen. unfold cosineSimilarity, euclideanDistance, dotProduct.
  rewrite <- Hlen, Nat.eqb_refl. cbn [negb].
  split; [|split].
  - rewrite (cosine_loop_swap a b zero zero zero).
    destruct (cosine_loop a b (zero, zero, zero)) as [[d na] nb].
    rewrite (orb_comm (strict_eq (sqrt nb) zero)), (mul_comm (sqrt nb)). reflexivity.
  - rewrite distance_loop_swap. reflexivity.
  - rewrite dot_loop_swap. reflexivity.
Qed.

Lemma measures_symmetric_witness :
  let a := [of_Z 1; of_Z 2; of_Z 3] in
  let b := [of_Z 3; of_Z 2; of_Z 1] in
  cosineSimilarity a b = cosineSimilarity b a /\
  euclideanDistance a b = euclideanDistance b a /\
  dotProduct a b = dotProduct b a.
Proof.
  exact (@measures_symmetric [of_Z 1; of_Z 2; of_Z 3] [of_Z 3; of_Z 2; of_Z 1] eq_refl).
Defined.

(** *** How the measures are built from one another *)

Lemma cosine_loop_dot (a b : Embedding) (d na nb : number) :
  fst (fst (cosine_loop a b (d, na, nb))) = dot_loop a b d.
Proof.
  revert b d na nb. induction a as [|x a IH]; intros [|y b] d na nb; try reflexivity.
  cbn [cosine_loop dot_loop]. apply IH.
Qed.

Lemma dot_loop_squares (v : Embedding) (sum : number) :
  dot_loop v v sum = sum_squares v sum.
Proof.
  revert sum. induction v as [|x v IH]; intros sum; [reflexivity|].
  cbn [dot_loop]. unfold sum_squares. cbn [fold_left]. apply IH.
Qed.

(** [dotProduct(a, b) / (magnitude(a) * magnitude(b))]. *)
Definition quotient (a b : Embedding) : result number :=
  product <- dotProduct a b ;;
  Ok (div product (mul (magnitude a) (magnitude b))).

(** X2.  [cosineSimilarity(a, b)] is [dotProduct(a, b)] divided by the product of
    the two magnitudes, all in the arithmetic of the three functions, and 0
    when a magnitude is 0; [magnitude(v)] is the square root of
    [dotProduct(v, v)]. *)
Theorem cosineSimilarity_by_parts (a b : Embedding) :
  length a = length b ->
  cosineSimilarity a b =
    (if strict_eq (magnitude a) zero || strict_eq (magnitude b) zero then Ok zero
     else quotient a b) /\
  dotProduct a a = Ok (sum_squares a zero) /\
  magnitude a = sqrt (sum_squares a zero).
Proof.
  intros Hlen. split; [|split; [|reflexivity]].
  - unfold cosineSimilarity, quotient, dotProduct. rewrite Hlen, Nat.eqb_refl. cbn [negb bind].
    destruct (cosine_loop_norms a b Hlen zero zero zero) as [Ha Hb].
    pose proof (cosine_loop_dot a b zero zero zero) as Hd.
    destruct (cosine_loop a b (zero, zero, zero)) as [[d na] nb].
    cbn [fst snd] in Ha, Hb, Hd. subst d na nb. reflexivity.
  - unfold dotProduct. rewrite Nat.eqb_refl. cbn [negb]. rewrite dot_loop_squares.
    reflexivity.
Qed.

Lemma cosineSimilarity_by_parts_witness :
  let a := [of_Z 3; of_Z 4] in
  let b := [of_Z 4; of_Z 3] in
  cosineSimilarity a b =
    (if strict_eq (magnitude a) zero || strict_eq (magnitude b) zero then Ok zero
     else quotient a b) /\
  dotProduct a a = Ok (sum_squares a zero) /\
  magnitude a = sqrt (sum_squares a zero).
Proof.
  exact (@cosineSimilarity_by_parts [of_Z 3; of_Z 4] [of_Z 4; of_Z 3] eq_refl).
Defined.

(** *** Buffers *)

Lemma deserializeEmbedding_blocks (n : nat) :
  forall buffer : Buffer, (length buffer <= n)%nat ->
    if (length buffer mod 4 =? 0)%nat
    then exists e, deserializeEmbedding buffer = Ok e /\ (4 * length e = length buffer)%nat
    else deserializeEmbedding buffer = Err BufferOutOfRange.
Proof.
  induction n as [|n IH]; intros buffer Hn.
  - destruct buffer; [|cbn in Hn; lia]. cbn. exists []. split; reflexivity.
  - destruct buffer as [|b0 [|b1 [|b2 [|b3 rest]]]]; try (cbn; reflexivity).
    + cbn. exists []. split; reflexivity.
    + cbn [length] in Hn. specialize (IH rest ltac:(lia)).
      replace (length (b0 :: b1 :: b2 :: b3 :: rest)) with (length rest + 1 * 4)%nat
        by (cbn [length]; lia).
      rewrite Nat.Div0.mod_add. cbn [deserializeEmbedding].
      destruct (length rest mod 4 =? 0)%nat.
      * destruct IH as [e [He Hl]]. rewrite He. cbn [bind].
        eexists. split; [reflexivity|]. cbn [length]. lia.
      * rewrite IH. reflexivity.
Qed.

(** X3.  [deserializeEmbedding] succeeds exactly on the buffers whose length is a
    multiple of 4, with one element per four bytes; on any other buffer the
    read of the last, partial group is out of range. *)
Theorem deserializeEmbedding_length (buffer : Buffer) :
  if (length buffer mod 4 =? 0)%nat
  then exists e, deserializeEmbedding buffer = Ok e /\ (4 * length e = length buffer)%nat
  else deserializeEmbedding buffer = Err BufferOutOfRange.
Proof. apply (@deserializeEmbedding_blocks (length buffer) buffer). lia. Qed.

End VectorAlgebraFacts.

(** ** Stored blobs *)

Module ExactRoundingFacts.
Import JSNumber JSNumberFacts VectorOperations VectorOperationsFacts.

Section Exact.
Variables prec emax : Z.
Hypothesis Hprec : 0 < prec.

Local Notation "'fexp'" := (SpecFloat.fexp prec emax).
Local Notation "'emin'" := (SpecFloat.emin prec emax).

(** A mantissa that already sits at the exponent of the format is not
    rounded. *)
Lemma binary_round_aux_exact (s : bool) (m : positive) (e : Z) :
  fexp (Zdigits2 (Z.pos m) + e) = e -> e <= emax - prec ->
  binary_round_aux prec emax s (Z.pos m) e loc_Exact = S754_finite s m e.
Proof.
  intros Hc He. unfold binary_round_aux, shr_fexp.
  rewrite Hc, Z.sub_diag. cbn [shr shr_record_of_loc shr_m loc_of_shr_record round_nearest_even].
  rewrite Hc, Z.sub_diag. cbn [shr shr_record_of_loc shr_m].
  apply Z.leb_le in He. rewrite He. reflexivity.
Qed.

Lemma shr_1_even (p : positive) :
  shr_1 {| shr_m := Z.pos p~0; shr_r := false; shr_s := false |}
  = {| shr_m := Z.pos p; shr_r := false; shr_s := false |}.
Proof. reflexivity. Qed.

Lemma shr_iter_exact (n : nat) (m : positive) :
  Nat.iter n shr_1 {| shr_m := Z.pos (Nat.iter n xO m); shr_r := false; shr_s := false |}
  = {| shr_m := Z.pos m; shr_r := false; shr_s := false |}.
Proof.
  induction n as [|n IH]; [reflexivity|].
  rewrite Nat.iter_succ_r.
  change (Nat.iter (S n) xO m) with (xO (Nat.iter n xO m)).
  rewrite shr_1_even. exact IH.
Qed.

Lemma Zpos_iter_nat (n : nat) (m : positive) :
  Z.pos (Nat.iter n xO m) = Z.pos m * 2 ^ Z.of_nat n.
Proof.
  induction n as [|n IH]; [cbn; lia|].
  change (Nat.iter (S n) xO m) with (xO (Nat.iter n xO m)).
  rewrite Pos2Z.inj_xO, IH, Nat2Z.inj_succ, Z.pow_succ_r by lia. lia.
Qed.

(** A number of the format, written with a longer mantissa at a smaller
    exponent, rounds to itself. *)
Lemma binary_round_aux_shifted (s : bool) (m mz : positive) (e d : Z) :
  0 <= d -> Z.pos mz = Z.pos m * 2 ^ d ->
  fexp (Zdigits2 (Z.pos m) + e) = e -> e <= emax - prec ->
  binary_round_aux prec emax s (Z.pos mz) (e - d) loc_Exact = S754_finite s m e.
Proof.
  intros Hd Hmz Hc He.
  destruct (Z.eq_dec d 0) as [->|Hd0].
  { rewrite Z.pow_0_r, Z.mul_1_r in Hmz. injection Hmz as ->. rewrite Z.sub_0_r.
    apply binary_round_aux_exact; assumption. }
  assert (Zdigits2 (Z.pos mz) = Zdigits2 (Z.pos m) + d) as Hdig.
  { rewrite Hmz, <- Z.shiftl_mul_pow2 by lia. apply Zdigits2_shiftl; lia. }
  unfold binary_round_aux, shr_fexp.
  replace (Zdigits2 (Z.pos mz) + (e - d)) with (Zdigits2 (Z.pos m) + e) by lia.
  rewrite Hc. replace (e - (e - d)) with d by lia.
  destruct d as [|p|p]; try lia. cbn [shr shr_record_of_loc].
  rewrite iter_pos_nat.
  assert (mz = Nat.iter (Pos.to_nat p) xO m) as ->.
  { apply Pos2Z.inj. rewrite Zpos_iter_nat, positive_nat_Z. exact Hmz. }
  rewrite shr_iter_exact. cbn [shr_m loc_of_shr_record round_nearest_even].
  replace (e - Z.pos p + Z.pos p) with e by lia.
  rewrite Hc, Z.sub_diag. cbn [shr shr_record_of_loc shr_m].
  apply Z.leb_le in He. rewrite He. reflexivity.
Qed.

Lemma binary_round_shifted (s : bool) (m mz : positive) (e d : Z) :
  0 <= d -> Z.pos mz = Z.pos m * 2 ^ d ->
  fexp (Zdigits2 (Z.pos m) + e) = e -> e <= emax - prec ->
  binary_round prec emax s mz (e - d) = S754_finite s m e.
Proof.
  intros Hd Hmz Hc He. unfold binary_round.
  change (Z.pos (digits2_pos mz)) with (Zdigits2 (Z.pos mz)).
  assert (Zdigits2 (Z.pos mz) = Zdigits2 (Z.pos m) + d) as Hdig.
  { destruct (Z.eq_dec d 0) as [->|Hd0].
    - rewrite Z.pow_0_r, Z.mul_1_r in Hmz. rewrite Hmz. lia.
    - rewrite Hmz, <- Z.shiftl_mul_pow2 by lia. apply Zdigits2_shiftl; lia. }
  rewrite Hdig. replace (Zdigits2 (Z.pos m) + d + (e - d)) with (Zdigits2 (Z.pos m) + e) by lia.
  rewrite Hc. unfold shl_align. replace (e - (e - d)) with d by lia.
  destruct d as [|p|p]; try lia; apply binary_round_aux_shifted; assumption || lia.
Qed.

(** Rounding a number that the format can hold with room to spare only
    rewrites it with the mantissa the format asks for. *)
Lemma binary_round_widened (s : bool) (m : positive) (e : Z) :
  fexp (Zdigits2 (Z.pos m) + e) <= e -> fexp (Zdigits2 (Z.pos m) + e) <= emax - prec ->
  exists mz,
    Z.pos mz = Z.pos m * 2 ^ (e - fexp (Zdigits2 (Z.pos m) + e)) /\
    binary_round prec emax s m e = S754_finite s mz (fexp (Zdigits2 (Z.pos m) + e)).
Proof.
  intros Hle Hmax. unfold binary_round.
  change (Z.pos (digits2_pos m)) with (Zdigits2 (Z.pos m)).
  set (t := fexp (Zdigits2 (Z.pos m) + e)) in *.
  destruct (shl_align_value m e t) as [He Hm].
  destruct (shl_align m e t) as [mz ez]. cbn [fst snd] in He, Hm.
  replace (Z.min e t) with t in * by lia. subst ez.
  exists mz. split; [exact Hm|].
  apply binary_round_aux_exact; [|exact Hmax].
  destruct (Z.eq_dec (e - t) 0) as [E0|E0].
  - rewrite E0, Z.pow_0_r, Z.mul_1_r in Hm. rewrite Hm.
    replace t with e at 1 by lia. reflexivity.
  - rewrite Hm, <- Z.shiftl_mul_pow2 by lia. rewrite Zdigits2_shiftl by lia.
    replace (Zdigits2 (Z.pos m) + (e - t) + t) with (Zdigits2 (Z.pos m) + e) by lia.
    reflexivity.
Qed.

End Exact.

(** *** Singles and doubles *)

(** Widening a single to a double and narrowing it again gives the single
    back. *)
Lemma to_single_of_single (y : spec_float) :
  valid_binary prec32 emax32 y = true -> to_single (of_single y) = y.
Proof.
  destruct y as [s|s| |s m e]; try reflexivity. intros Hv.
  destruct (@valid_finite_bounds prec32 emax32 s m e Hv) as [He [Hd Hn]].
  assert (SpecFloat.fexp prec32 emax32 (Zdigits2 (Z.pos m) + e) = e) as Hc.
  { unfold valid_binary, bounded, canonical_mantissa in Hv.
    apply andb_prop in Hv. destruct Hv as [Hv _]. apply Z.eqb_eq in Hv. exact Hv. }
  pose proof (@Zdigits2_pos (Z.pos m) ltac:(lia)) as Hpos.
  unfold SpecFloat.emin, prec32, emax32 in *.
  cbn [of_single].
  destruct (@binary_round_widened prec emax s m e) as [mz [Hmz Hr]].
  { unfold SpecFloat.fexp, SpecFloat.emin, prec, emax. lia. }
  { unfold SpecFloat.fexp, SpecFloat.emin, prec, emax. lia. }
  rewrite Hr. cbn [to_single].
  set (t := SpecFloat.fexp prec emax (Zdigits2 (Z.pos m) + e)) in *.
  assert (t <= e) as Ht by (subst t; unfold SpecFloat.fexp, SpecFloat.emin, prec, emax; lia).
  replace t with (e - (e - t)) by lia.
  apply binary_round_shifted with (d := e - t);
    first [assumption | lia | unfold prec32, emax32; lia].
Qed.

Lemma to_single_valid (x : number) : valid_binary prec32 emax32 (to_single x) = true.
Proof. destruct x; try reflexivity. apply binary_round_valid. reflexivity. Qed.

(** *** Bit patterns *)

Lemma sign_bit (w : Z) :
  0 <= w < 2 ^ 32 -> w = (if Z.testbit w 31 then 2 ^ 31 else 0) + w mod 2 ^ 31.
Proof.
  intros Hw. rewrite Z.testbit_eqb by lia.
  change (2 ^ 31) with 2147483648 in *. change (2 ^ 32) with 4294967296 in *.
  destruct (Z.eqb_spec ((w / 2147483648) mod 2) 1); Z.div_mod_to_equations; lia.
Qed.

Lemma fields (w : Z) :
  0 <= w < 2 ^ 32 ->
  w = (if Z.testbit w 31 then 2 ^ 31 else 0) + ((w / 2 ^ 23) mod 256 * 2 ^ 23 + w mod 2 ^ 23) /\
  0 <= (w / 2 ^ 23) mod 256 < 256 /\ 0 <= w mod 2 ^ 23 < 2 ^ 23.
Proof.
  intros Hw. pose proof (sign_bit Hw) as Hs.
  change (2 ^ 31) with 2147483648 in *. change (2 ^ 23) with 8388608 in *.
  change (2 ^ 32) with 4294967296 in *.
  destruct (Z.testbit w 31); Z.div_mod_to_equations; lia.
Qed.

(** Every bit pattern that is not a NaN denotes a single, whose pattern it
    is. *)
Lemma bits_of_single_of_bits (w : Z) :
  0 <= w < 2 ^ 32 -> single_of_bits w <> S754_nan ->
  valid_binary prec32 emax32 (single_of_bits w) = true /\
  bits_of_single (single_of_bits w) = w.
Proof.
  intros Hw. destruct (fields Hw) as [Hdec [He Hf]]. revert Hdec.
  unfold single_of_bits.
  set (s := Z.testbit w 31). set (e := (w / 2 ^ 23) mod 256) in *.
  set (f := w mod 2 ^ 23) in *. cbv zeta. intros Hdec.
  destruct (Z.eqb_spec e 0) as [E0|E0].
  - destruct f as [|m|m] eqn:Ef; try lia.
    + intros _. split; [reflexivity|]. cbn [bits_of_single]. lia.
    + intros _. assert (Zdigits2 (Z.pos m) <= 23) as Hd.
      { destruct (Z_le_gt_dec (Zdigits2 (Z.pos m)) 23) as [H|H]; [exact H|].
        pose proof (@Zdigits2_spec (Z.pos m) ltac:(lia)) as [Hl _].
        assert (2 ^ 23 <= 2 ^ (Zdigits2 (Z.pos m) - 1)) by (apply Z.pow_le_mono_r; lia).
        lia. }
      split.
      * cbn [valid_binary]. unfold bounded, canonical_mantissa.
        change (Z.pos (digits2_pos m)) with (Zdigits2 (Z.pos m)).
        apply andb_true_intro. split; [apply Z.eqb_eq|apply Z.leb_le].
        -- unfold SpecFloat.fexp, SpecFloat.emin, prec32, emax32. lia.
        -- unfold prec32, emax32. lia.
      * cbn [bits_of_single]. destruct (Z.ltb_spec (Z.pos m) (2 ^ 23)); lia.
  - destruct (Z.eqb_spec e 255) as [E1|E1].
    + destruct (Z.eqb_spec f 0) as [F0|F0]; [|congruence].
      intros _. split; [reflexivity|]. cbn [bits_of_single]. lia.
    + destruct (f + 2 ^ 23) as [|m|m] eqn:Ef; try lia.
      intros _. assert (Zdigits2 (Z.pos m) = 24) as Hd.
      { apply Zdigits2_unique; [|lia]. change (24 - 1) with 23.
        change (2 ^ 24) with (2 ^ 23 + 2 ^ 23). lia. }
      split.
      * cbn [valid_binary]. unfold bounded, canonical_mantissa.
        change (Z.pos (digits2_pos m)) with (Zdigits2 (Z.pos m)).
        apply andb_true_intro. split; [apply Z.eqb_eq|apply Z.leb_le].
        -- rewrite Hd. unfold SpecFloat.fexp, SpecFloat.emin, prec32, emax32. lia.
        -- unfold prec32, emax32. lia.
      * cbn [bits_of_single]. destruct (Z.ltb_spec (Z.pos m) (2 ^ 23)); lia.
Qed.

(** *** Bytes *)

Lemma Z_of_byte_range (b : Byte.byte) : 0 <= Z_of_byte b < 256.
Proof.
  unfold Z_of_byte. pose proof (Byte.to_N_bounded b) as H. lia.
Qed.

Lemma byte_of_Z_of_byte (b : Byte.byte) (z : Z) :
  z mod 256 = Z_of_byte b -> byte_of_Z z = b.
Proof.
  intros H. unfold byte_of_Z. rewrite H. unfold Z_of_byte.
  rewrite N2Z.id, Byte.of_to_N. reflexivity.
Qed.

Lemma writeFloatLE_readFloatLE (b0 b1 b2 b3 : Byte.byte) :
  is_nan (readFloatLE b0 b1 b2 b3) = false ->
  writeFloatLE (readFloatLE b0 b1 b2 b3) = [b0; b1; b2; b3].
Proof.
  unfold readFloatLE, writeFloatLE.
  pose proof (Z_of_byte_range b0) as H0. pose proof (Z_of_byte_range b1) as H1.
  pose proof (Z_of_byte_range b2) as H2. pose proof (Z_of_byte_range b3) as H3.
  set (w := Z_of_byte b0 + Z_of_byte b1 * 2 ^ 8 + Z_of_byte b2 * 2 ^ 16 + Z_of_byte b3 * 2 ^ 24).
  assert (0 <= w < 2 ^ 32) as Hw by (subst w; lia).
  intros Hnan.
  assert (single_of_bits w <> S754_nan) as Hn.
  { intros E. rewrite E in Hnan. discriminate. }
  destruct (bits_of_single_of_bits Hw Hn) as [Hv Hb].
  rewrite (to_single_of_single _ Hv), Hb. cbv zeta.
  change (2 ^ 8) with 256 in *. change (2 ^ 16) with 65536 in *.
  change (2 ^ 24) with 16777216 in *. change (2 ^ 32) with 4294967296 in *.
  repeat f_equal; apply byte_of_Z_of_byte; subst w; Z.div_mod_to_equations; lia.
Qed.

(** X4.  A stored blob that holds no NaN is the serialization of what it
    deserializes to: reading an embedding and writing it back gives the same
    bytes. *)
Theorem serialize_deserialized (buffer : Buffer) (embedding : Embedding) :
  deserializeEmbedding buffer = Ok embedding ->
  forallb (fun value => negb (is_nan value)) embedding = true ->
  serializeEmbedding embedding = buffer.
Proof.
  revert embedding.
  assert (forall n (buffer : Buffer), (length buffer <= n)%nat -> forall embedding,
             deserializeEmbedding buffer = Ok embedding ->
             forallb (fun value => negb (is_nan value)) embedding = true ->
             serializeEmbedding embedding = buffer) as H.
  { induction n as [|n IH]; intros [|b0 [|b1 [|b2 [|b3 rest]]]] Hn embedding Hd Hf;
      cbn [length] in Hn; try lia; cbn [deserializeEmbedding] in Hd; try discriminate;
      try (injection Hd as <-; reflexivity).
    destruct (deserializeEmbedding rest) as [e|] eqn:Er; [|discriminate].
    cbn [bind] in Hd. injection Hd as <-.
    cbn [forallb] in Hf. apply andb_prop in Hf. destruct Hf as [Hx Hrest].
    apply negb_true_iff in Hx.
    cbn [serializeEmbedding]. rewrite (writeFloatLE_readFloatLE _ _ _ _ Hx).
    rewrite (IH rest ltac:(lia) e Er Hrest). reflexivity. }
  intros embedding. apply (H (length buffer)). lia.
Qed.

(** The eight bytes of 1 and 2 as float32, little end first. *)
Definition one_and_two : Buffer :=
  [Byte.x00; Byte.x00; Byte.x80; Byte.x3f; Byte.x00; Byte.x00; Byte.x00; Byte.x40].

Lemma serialize_deserialized_witness :
  deserializeEmbedding one_and_two = Ok [of_Z 1; of_Z 2] /\
  serializeEmbedding [of_Z 1; of_Z 2] = one_and_two.
Proof.
  split; [vm_compute; reflexivity|].
  apply (@serialize_deserialized one_and_two [of_Z 1; of_Z 2]); vm_compute; reflexivity.
Defined.

End ExactRoundingFacts.

(** ** The SQL engine *)

Module SqlFacts.
Import Sql.

Lemma same_name_refl (a : string) : same_name a a = true.
Proof. apply String.eqb_refl. Qed.

Lemma same_name_trans (a b c : string) :
  same_name a b = true -> same_name b c = true -> same_name a c = true.
Proof.
  unfold same_name. intros H1 H2.
  apply String.eqb_eq in H1, H2. apply String.eqb_eq. congruence.
Qed.

Lemma same_name_sym (a b : string) : same_name a b = same_name b a.
Proof. apply String.eqb_sym. Qed.

Lemma find_table_set_table (name : string) (rows' : list Row) (ts : list (string * list Row)) :
  find_table name ts <> None -> find_table name (set_table name rows' ts) = Some rows'.
Proof.
  induction ts as [|[n old] ts IH]; cbn [find_table set_table]; [congruence|].
  destruct (same_name n name) eqn:E; cbn [find_table]; rewrite E; auto.
Qed.

Lemma find_table_set_table_other (name other : string) (rows' : list Row)
  (ts : list (string * list Row)) :
  same_name other name = false ->
  find_table other (set_table name rows' ts) = find_table other ts.
Proof.
  intros Hne. induction ts as [|[n old] ts IH]; cbn [find_table set_table]; [reflexivity|].
  destruct (same_name n name) eqn:E; cbn [find_table]; [|rewrite IH; reflexivity].
  destruct (same_name n other) eqn:E'; [|reflexivity].
  rewrite same_name_sym in E'.
  rewrite (same_name_trans _ _ _ E' E) in Hne. discriminate.
Qed.

Lemma set_table_same (name : string) (rows : list Row) (ts : list (string * list Row)) :
  find_table name ts = Some rows -> set_table name rows ts = ts.
Proof.
  induction ts as [|[n old] ts IH]; cbn [find_table set_table]; [reflexivity|].
  destruct (same_name n name); intros H; [congruence|rewrite IH by exact H; reflexivity].
Qed.

Lemma with_same_data (db : Db) : with_data db (with_tables (data db) (tables (data db))) = db.
Proof. destruct db as [[ts ms ix tr] tx]. reflexivity. Qed.

Lemma map_unchanged {A} (cond : A -> bool) (f : A -> A) (l : list A) :
  existsb cond l = false -> map (fun a => if cond a then f a else a) l = l.
Proof.
  induction l as [|a l IH]; [reflexivity|]. cbn [existsb map]. intros H.
  apply orb_false_elim in H. destruct H as [Ha Hl]. rewrite Ha, IH by exact Hl. reflexivity.
Qed.

Lemma filter_none {A} (cond : A -> bool) (l : list A) :
  existsb cond l = false -> filter cond l = [].
Proof.
  induction l as [|a l IH]; [reflexivity|]. cbn [existsb filter]. intros H.
  apply orb_false_elim in H. destruct H as [Ha Hl]. rewrite Ha. auto.
Qed.

(** The rows of a table that exists. *)
Definition rows_in (table : string) (db : Db) : list Row :=
  match find_table table (tables (data db)) with
  | Some rows => rows
  | None => []
  end.

End SqlFacts.

(** ** Stored embeddings *)

Module VectorStoreFacts.
Import JSNumber JSNumberFacts VectorOperations VectorOperationsFacts Sql SqlFacts VectorIndex.
Local Open Scope sql_scope.

Lemma deserialize_serialize (embedding : Embedding) :
  deserializeEmbedding (serializeEmbedding embedding) = Ok (map fround embedding).
Proof.
  induction embedding as [|value rest IH]; [reflexivity|].
  pose proof (readFloatLE_writeFloatLE value) as Hr.
  cbn [serializeEmbedding map].
  destruct (writeFloatLE value) as [|b0 [|b1 [|b2 [|b3 [|]]]]]; try contradiction.
  cbn [app deserializeEmbedding]. rewrite IH, Hr. reflexivity.
Qed.

(** The rows of [table] after [UPDATE table SET embedding = ? WHERE id = ?]. *)
Definition stored (fired : bool) (id_ : string) (serialized : Buffer) (ts : instant)
  (rows : list Row) : list Row :=
  map (fun r => if has_id id_ r
                then (if fired then touch ts (set_embedding serialized r)
                      else set_embedding serialized r)
                else r) rows.

Lemma storeEmbedding_run (dims : nat) (table id_ : string) (embedding : Embedding)
  (ts : instant) (db : Db) (rows : list Row) :
  length embedding = dims ->
  find_table table (tables (data db)) = Some rows ->
  storeEmbedding dims table id_ embedding ts db =
  (Ok tt, with_data db (with_tables (data db)
            (set_table table
               (stored (has_trigger table (data db)) id_ (serializeEmbedding embedding) ts rows)
               (tables (data db))))).
Proof.
  intros Hlen Hfind. unfold storeEmbedding, mbind, lift, validateDimensions, update_where, ret.
  rewrite Hlen, Nat.eqb_refl. cbn [negb]. rewrite Hfind. reflexivity.
Qed.

Lemma stored_first (fired : bool) (id_ : string) (serialized : Buffer) (ts : instant)
  (rows : list Row) :
  existsb (has_id id_) rows = true ->
  exists row rest,
    filter (fun r => has_id id_ r && embedded r) (stored fired id_ serialized ts rows)
      = row :: rest /\
    row_embedding row = Some serialized.
Proof.
  induction rows as [|r rows IH]; [discriminate|].
  cbn [existsb stored map filter]. fold (stored fired id_ serialized ts rows).
  destruct (has_id id_ r) eqn:E.
  - intros _. destruct fired; unfold has_id, embedded in *;
      cbn [touch set_embedding row_id row_embedding]; rewrite E; cbn [andb];
      eexists; eexists; split; reflexivity.
  - cbn [orb]. intros H. rewrite E. cbn [andb]. apply IH. exact H.
Qed.

(** X5.  An embedding stored for a row that exists is the one [getEmbedding]
    reads back, rounded to float32. *)
Theorem storeEmbedding_getEmbedding (dims : nat) (table id_ : string) (embedding : Embedding)
  (ts : instant) (db : Db) (rows : list Row) :
  length embedding = dims ->
  find_table table (tables (data db)) = Some rows ->
  existsb (has_id id_) rows = true ->
  fst (storeEmbedding dims table id_ embedding ts db) = Ok tt /\
  fst (getEmbedding table id_ (snd (storeEmbedding dims table id_ embedding ts db)))
    = Ok (Some (map fround embedding)).
Proof.
  intros Hlen Hfind Hrow. rewrite (@storeEmbedding_run dims table id_ embedding ts db rows Hlen Hfind).
  cbn [fst snd]. split; [reflexivity|].
  unfold getEmbedding, mbind, select_where. cbn [data with_data tables with_tables].
  rewrite find_table_set_table by congruence.
  destruct (@stored_first (has_trigger table (data db)) id_ (serializeEmbedding embedding) ts
              rows Hrow) as (row & rest & Hf & He).
  rewrite Hf. unfold lift. rewrite He. cbn [default]. rewrite deserialize_serialize.
  reflexivity.
Qed.

(** X6.  [storeEmbedding] for an id that the table does not hold reports
    success and leaves the database as it was; [getEmbedding] then finds
    nothing. *)
Theorem storeEmbedding_unknown_id (dims : nat) (table id_ : string) (embedding : Embedding)
  (ts : instant) (db : Db) (rows : list Row) :
  length embedding = dims ->
  find_table table (tables (data db)) = Some rows ->
  existsb (has_id id_) rows = false ->
  storeEmbedding dims table id_ embedding ts db = (Ok tt, db) /\
  getEmbedding table id_ db = (Ok None, db).
Proof.
  intros Hlen Hfind Hrow. split.
  - rewrite (@storeEmbedding_run dims table id_ embedding ts db rows Hlen Hfind). unfold stored.
    rewrite map_unchanged by exact Hrow.
    rewrite (@set_table_same _ _ _ Hfind), with_same_data. reflexivity.
  - unfold getEmbedding, mbind, select_where. rewrite Hfind.
    replace (filter (fun r => has_id id_ r && embedded r) rows) with (@nil Row); [reflexivity|].
    symmetry. apply filter_none.
    clear Hfind. induction rows as [|r rows IH]; [reflexivity|].
    cbn [existsb] in *. apply orb_false_elim in Hrow. destruct Hrow as [Hr Hrows].
    rewrite Hr. cbn [andb orb]. apply IH. exact Hrows.
Qed.

(** A wrong number of dimensions is rejected before the database is
    touched, whatever the table name. *)
Lemma storeEmbedding_wrong_dimensions (dims : nat) (table id_ : string)
  (embedding : Embedding) (ts : instant) (db : Db) :
  length embedding <> dims ->
  storeEmbedding dims table id_ embedding ts db
    = (Err (EmbeddingDimensions (length embedding) dims), db).
Proof.
  intros H. apply Nat.eqb_neq in H.
  unfold storeEmbedding, mbind, lift, validateDimensions. rewrite H. reflexivity.
Qed.

Lemma storeEmbedding_getEmbedding_witness :
  let db := StorageFacts.after_create in
  let embedding := VectorIndexFacts.one_two_three in
  fst (storeEmbedding 3 "rules" "r1" embedding 2000 db) = Ok tt /\
  fst (getEmbedding "rules" "r1" (snd (storeEmbedding 3 "rules" "r1" embedding 2000 db)))
    = Ok (Some (map fround embedding)).
Proof.
  apply (@storeEmbedding_getEmbedding 3 "rules" "r1" VectorIndexFacts.one_two_three 2000
           StorageFacts.after_create (rows_in "rules" StorageFacts.after_create));
    vm_compute; reflexivity.
Defined.

Lemma storeEmbedding_unknown_id_witness :
  let db := StorageFacts.after_create in
  storeEmbedding 3 "rules" "r9" VectorIndexFacts.one_two_three 2000 db = (Ok tt, db) /\
  getEmbedding "rules" "r9" db = (Ok None, db).
Proof.
  apply (@storeEmbedding_unknown_id 3 "rules" "r9" VectorIndexFacts.one_two_three 2000
           StorageFacts.after_create (rows_in "rules" StorageFacts.after_create));
    vm_compute; reflexivity.
Defined.

End VectorStoreFacts.

Module VectorBatchFacts.
Import JSNumber JSNumberFacts VectorOperations VectorOperationsFacts Sql SqlFacts VectorIndex.
Import VectorStoreFacts.
Local Open Scope sql_scope.

(** *** Transactions *)

Lemma storeEmbedding_transaction (dims : nat) (table id_ : string) (embedding : Embedding)
  (ts : instant) (db : Db) :
  transaction (snd (storeEmbedding dims table id_ embedding ts db)) = transaction db.
Proof.
  unfold storeEmbedding, mbind, lift, validateDimensions, update_where, ret.
  destruct (negb _); [reflexivity|].
  destruct (find_table table (tables (data db))); reflexivity.
Qed.

Definition store (dims : nat) (ts : instant) (doc : string * string * Embedding) : M unit :=
  let '(table, id_, embedding) := doc in storeEmbedding dims table id_ embedding ts.

Lemma for_each_store_transaction (dims : nat) (ts : instant)
  (documents : list (string * string * Embedding)) (db : Db) :
  transaction (snd (for_each documents (store dims ts) db)) = transaction db.
Proof.
  revert db. induction documents as [|[[table id_] embedding] documents IH]; intros db;
    [reflexivity|].
  cbn [for_each]. unfold mbind. cbn [store].
  pose proof (storeEmbedding_transaction dims table id_ embedding ts db) as H.
  destruct (storeEmbedding dims table id_ embedding ts db) as [[[]|e] db1]; cbn [snd] in H |- *.
  - rewrite IH. exact H.
  - exact H.
Qed.

(** X7.  [batchStoreEmbeddings] stores all the embeddings or none: when it fails
    the database is as it was before the call, and when it succeeds the
    database holds what the [storeEmbedding] calls made of it, one after the
    other, with the transaction closed. *)
Theorem batchStoreEmbeddings_atomic (dims : nat)
  (documents : list (string * string * Embedding)) (ts : instant) (db : Db) :
  match batchStoreEmbeddings dims documents ts db with
  | (Err _, db') => db' = db
  | (Ok _, db') =>
      transaction db = None /\ transaction db' = None /\
      exists opened,
        for_each documents (store dims ts)
          {| data := data db; transaction := Some (data db) |} = (Ok tt, opened) /\
        data db' = data opened
  end.
Proof.
  unfold batchStoreEmbeddings, mbind, begin_transaction.
  destruct (transaction db) as [saved|] eqn:Htx; [reflexivity|].
  unfold try_catch, mbind.
  change (fun doc : string * string * Embedding =>
            let '(table, id_, embedding) := doc in storeEmbedding dims table id_ embedding ts)
    with (store dims ts).
  pose proof (for_each_store_transaction dims ts documents
                {| data := data db; transaction := Some (data db) |}) as Hkeep.
  destruct (for_each documents (store dims ts) _) as [[[]|e] db1]; cbn [snd transaction] in Hkeep.
  - unfold commit. rewrite Hkeep. split; [reflexivity|]. split; [reflexivity|].
    exists db1. split; reflexivity.
  - unfold rollback, throw. rewrite Hkeep. destruct db as [d tx]. cbn in Htx. subst tx.
    reflexivity.
Qed.

End VectorBatchFacts.

(** ** Search in one table, and similar documents *)

Module TableSearchFacts.
Import JSNumber JSNumberFacts VectorOperations VectorOperationsFacts Sql SqlFacts VectorIndex.
Import JSArray JSArrayFacts SemanticSearchFacts.
Local Open Scope sql_scope.





(** X9.  Another spelling of one of the three table names ([RULES],
    [Rules], ...) is refused only after the query has run: the engine, which
    does not tell the spellings apart, answers the query, and [searchInTable]
    then fails with [Unknown table type], the database unchanged. *)
Theorem searchInTable_unlisted (dims : nat) (table : string) (q : Embedding)
  (options : VectorSearchOptions) (db : Db) (rows : list Row) :
  In (lower table) index_tables ->
  getTableType table = Err (UnknownTableType table) ->
  find_table table (tables (data db)) = Some rows ->
  length q = dims ->
  fst (select_where table embedded db) = Ok (filter embedded rows) /\
  searchInTable dims table q options db = (Err (UnknownTableType table), db).
Proof.
  intros _ Hty Hfind Hq.
  unfold searchInTable, mbind, lift, validateDimensions, select_where.
  rewrite Hq, Nat.eqb_refl, Hfind. cbn [negb fst]. rewrite Hty. split; reflexivity.
Qed.

(** *** [findSimilar] *)

(** X10.  A [findSimilar] that succeeds has found a stored embedding of the target:
    its results are those of [semanticSearch] on that embedding, with every
    result of the target's id removed afterwards (so a full page of [limit]
    results shrinks by one). *)
Theorem findSimilar_excludes_target (dims : nat) (table targetId : string)
  (options : VectorSearchOptions) (db db' : Db) (results : list SearchResult) :
  findSimilar dims table targetId options db = (Ok results, db') ->
  Forall (fun r => id r <> targetId) results /\
  exists embedding all,
    fst (getEmbedding table targetId db) = Ok (Some embedding) /\
    fst (semanticSearch dims embedding options db) = Ok all /\
    results = filter (fun r => negb (String.eqb (id r) targetId)) all.
Proof.
  unfold findSimilar, mbind.
  assert (Hsame : snd (getEmbedding table targetId db) = db).
  { unfold getEmbedding, mbind, select_where, lift.
    destruct (find_table table (tables (data db))) as [rows|]; [|reflexivity].
    destruct (filter _ rows) as [|row rest]; [reflexivity|].
    destruct (deserializeEmbedding _); reflexivity. }
  destruct (getEmbedding table targetId db) as [[[embedding|]|e] db1]; cbn [snd] in Hsame;
    subst db1; try (unfold throw; discriminate).
  destruct (semanticSearch dims embedding options db) as [[all|e] db2] eqn:Es;
    [|discriminate].
  unfold ret. intros H. injection H as <- <-. split.
  - apply Forall_forall. intros r Hr. apply filter_In in Hr. destruct Hr as [_ Hr].
    apply negb_true_iff in Hr. apply String.eqb_neq in Hr. exact Hr.
  - exists embedding, all. rewrite Es. repeat split.
Qed.

Lemma findSimilar_no_embedding (dims : nat) (table targetId : string)
  (options : VectorSearchOptions) (db : Db) (rows : list Row) :
  find_table table (tables (data db)) = Some rows ->
  existsb (fun r => has_id targetId r && embedded r) rows = false ->
  findSimilar dims table targetId options db = (Err (NoEmbeddingFound table targetId), db).
Proof.
  intros Hfind Hnone. unfold findSimilar, getEmbedding, mbind, select_where.
  rewrite Hfind. rewrite filter_none by exact Hnone. reflexivity.
Qed.


Lemma searchInTable_unlisted_witness :
  fst (select_where "RULES" embedded two_rules)
    = Ok (filter embedded (rows_in "rules" two_rules)) /\
  searchInTable 3 "RULES" VectorIndexFacts.one_two_three defaults two_rules
    = (Err (UnknownTableType "RULES"), two_rules).
Proof.
  apply (@searchInTable_unlisted 3 "RULES" VectorIndexFacts.one_two_three defaults
           two_rules (rows_in "rules" two_rules)).
  - left. reflexivity.
  - reflexivity.
  - vm_compute. reflexivity.
  - reflexivity.
Defined.

(** The results of [findSimilar] on the two rules, for the target [r1]. *)
Definition similar_to_r1 : list SearchResult :=
  match fst (findSimilar 3 "rules" "r1" defaults two_rules) with
  | Ok results => results
  | Err _ => []
  end.

Lemma findSimilar_excludes_target_witness :
  map id similar_to_r1 = ["r2"%string] /\
  Forall (fun r => id r <> "r1"%string) similar_to_r1 /\
  exists embedding all,
    fst (getEmbedding "rules" "r1" two_rules) = Ok (Some embedding) /\
    fst (semanticSearch 3 embedding defaults two_rules) = Ok all /\
    similar_to_r1 = filter (fun r => negb (String.eqb (id r) "r1")) all.
Proof.
  split; [vm_compute; reflexivity|].
  apply (@findSimilar_excludes_target 3 "rules" "r1" defaults two_rules two_rules
           similar_to_r1).
  vm_compute. reflexivity.
Defined.

End TableSearchFacts.

(** ** Index statistics *)

Module IndexStatsFacts.
Import JSNumber JSNumberFacts VectorOperations VectorOperationsFacts Sql SqlFacts VectorIndex.
Import JSArray JSArrayFacts SemanticSearchFacts.
Local Open Scope sql_scope.

(** The three tables, with their rows. *)
Definition holds (d : Data) (rules docs refs : list Row) : Prop :=
  find_table "rules" (tables d) = Some rules /\
  find_table "project_docs" (tables d) = Some docs /\
  find_table "refs" (tables d) = Some refs.

Definition count_embedded (rows : list Row) : nat := length (filter embedded rows).

Lemma filter_length_le {A} (f : A -> bool) (l : list A) : (length (filter f l) <= length l)%nat.
Proof. induction l as [|a l IH]; cbn; [lia|]. destruct (f a); cbn; lia. Qed.

Lemma filter_all {A} (l : list A) : filter (fun _ => true) l = l.
Proof. induction l as [|a l IH]; cbn; congruence. Qed.

Lemma count_where_run (table : string) (cond : Row -> bool) (db : Db) (rows : list Row) :
  find_table table (tables (data db)) = Some rows ->
  count_where table cond db = (Ok (length (filter cond rows)), db).
Proof. intros H. unfold count_where, mbind, select_where, ret. rewrite H. reflexivity. Qed.

Lemma getIndexStats_run (db : Db) (rules docs refs : list Row) :
  holds (data db) rules docs refs ->
  getIndexStats db =
  (Ok {| totalDocuments := 0 + length rules + length docs + length refs;
         embeddedDocuments := 0 + count_embedded rules + count_embedded docs + count_embedded refs;
         byTable :=
           [("rules"%string, {| stats_total := length rules;
                                stats_embedded := count_embedded rules |});
            ("project_docs"%string, {| stats_total := length docs;
                                       stats_embedded := count_embedded docs |});
            ("refs"%string, {| stats_total := length refs;
                               stats_embedded := count_embedded refs |})] |}, db).
Proof.
  intros (H1 & H2 & H3).
  unfold getIndexStats, index_tables. cbn [index_stats_loop]. unfold mbind.
  repeat (first [rewrite (@count_where_run "rules" _ db rules H1)
                |rewrite (@count_where_run "project_docs" _ db docs H2)
                |rewrite (@count_where_run "refs" _ db refs H3)]; cbv beta iota).
  rewrite !filter_all. reflexivity.
Qed.

Lemma embedded_rows_length (d : Data) (rules docs refs : list Row) :
  holds d rules docs refs ->
  length (embedded_rows d) = (count_embedded rules + count_embedded docs + count_embedded refs)%nat.
Proof.
  intros (H1 & H2 & H3). unfold embedded_rows, rows_of, search_tables. cbn [flat_map fst snd].
  rewrite H1, H2, H3. cbn [default]. rewrite !length_app, !length_map. cbn [length].
  unfold count_embedded. lia.
Qed.

(** X11.  When the three tables exist [getIndexStats] succeeds without changing
    the database; [embeddedDocuments] is the number of rows that
    [semanticSearch] scans, it is at most [totalDocuments], and both are the
    sums of the figures by table. *)
Theorem getIndexStats_counts (db : Db) (rules docs refs : list Row) :
  holds (data db) rules docs refs ->
  exists stats,
    getIndexStats db = (Ok stats, db) /\
    embeddedDocuments stats = length (embedded_rows (data db)) /\
    (embeddedDocuments stats <= totalDocuments stats)%nat /\
    map fst (byTable stats) = index_tables /\
    totalDocuments stats = list_sum (map (fun t => stats_total (snd t)) (byTable stats)) /\
    embeddedDocuments stats = list_sum (map (fun t => stats_embedded (snd t)) (byTable stats)).
Proof.
  intros H. eexists. split; [apply (@getIndexStats_run db rules docs refs H)|].
  cbn [embeddedDocuments totalDocuments byTable map fst snd stats_total stats_embedded list_sum].
  rewrite (@embedded_rows_length (data db) rules docs refs H).
  pose proof (filter_length_le embedded rules). pose proof (filter_length_le embedded docs).
  pose proof (filter_length_le embedded refs). unfold count_embedded in *.
  unfold list_sum. cbn [fold_right].
  repeat split; first [reflexivity | lia].
Qed.

(** *** [clearEmbeddings] *)

Definition cleared (fired : bool) (ts : instant) (rows : list Row) : list Row :=
  map (fun r => if fired then touch ts (clear_embedding r) else clear_embedding r) rows.

Lemma cleared_embedded (fired : bool) (ts : instant) (rows : list Row) :
  filter embedded (cleared fired ts rows) = [].
Proof.
  induction rows as [|r rows IH]; [reflexivity|].
  cbn [cleared map filter]. fold (cleared fired ts rows).
  destruct fired; cbn; exact IH.
Qed.

Lemma cleared_length (fired : bool) (ts : instant) (rows : list Row) :
  length (cleared fired ts rows) = length rows.
Proof. apply length_map. Qed.

Lemma clear_table_run (table : string) (ts : instant) (db : Db) (rows : list Row) :
  find_table table (tables (data db)) = Some rows ->
  clear_table table ts db =
  (Ok tt, with_data db (with_tables (data db)
            (set_table table (cleared (has_trigger table (data db)) ts rows)
                       (tables (data db))))).
Proof.
  intros H. unfold clear_table, mbind, update_where, ret. rewrite H. reflexivity.
Qed.

Lemma clearEmbeddings_all_run (table : option string) (ts : instant) (db : Db)
  (rules docs refs : list Row) :
  table = None \/ table = Some ""%string ->
  holds (data db) rules docs refs ->
  exists db',
    clearEmbeddings table ts db = (Ok tt, db') /\
    holds (data db')
      (cleared (has_trigger "rules" (data db)) ts rules)
      (cleared (has_trigger "project_docs" (data db)) ts docs)
      (cleared (has_trigger "refs" (data db)) ts refs).
Proof.
  intros Ht (H1 & H2 & H3).
  assert (clearEmbeddings table ts db
          = for_each index_tables (fun tableName => clear_table tableName ts) db) as ->
    by (destruct Ht as [-> | ->]; reflexivity).
  unfold index_tables. cbn [for_each]. unfold mbind at 1.
  rewrite (@clear_table_run "rules" ts db rules H1).
  set (db1 := with_data db _).
  assert (find_table "project_docs" (tables (data db1)) = Some docs) as H2'.
  { subst db1. cbn [data with_data tables with_tables].
    rewrite find_table_set_table_other by reflexivity. exact H2. }
  assert (find_table "refs" (tables (data db1)) = Some refs) as H3'.
  { subst db1. cbn [data with_data tables with_tables].
    rewrite find_table_set_table_other by reflexivity. exact H3. }
  assert (find_table "rules" (tables (data db1))
          = Some (cleared (has_trigger "rules" (data db)) ts rules)) as H1'.
  { subst db1. cbn [data with_data tables with_tables].
    apply find_table_set_table. congruence. }
  unfold mbind at 1. rewrite (@clear_table_run "project_docs" ts db1 docs H2').
  set (db2 := with_data db1 _).
  assert (find_table "refs" (tables (data db2)) = Some refs) as H3''.
  { subst db2. cbn [data with_data tables with_tables].
    rewrite find_table_set_table_other by reflexivity. exact H3'. }
  unfold mbind at 1. rewrite (@clear_table_run "refs" ts db2 refs H3'').
  eexists. split; [reflexivity|].
  unfold holds. cbn [data with_data tables with_tables].
  split; [|split].
  - rewrite find_table_set_table_other by reflexivity. subst db2.
    cbn [data with_data tables with_tables].
    rewrite find_table_set_table_other by reflexivity. exact H1'.
  - rewrite find_table_set_table_other by reflexivity. subst db2.
    cbn [data with_data tables with_tables].
    rewrite find_table_set_table by congruence. subst db1. reflexivity.
  - rewrite find_table_set_table by congruence. subst db2 db1. reflexivity.
Qed.

Lemma no_embedded_rows (d : Data) (rules docs refs : list Row) :
  holds d rules docs refs ->
  filter embedded rules = [] -> filter embedded docs = [] -> filter embedded refs = [] ->
  embedded_rows d = [].
Proof.
  intros (H1 & H2 & H3) E1 E2 E3. unfold embedded_rows, rows_of, search_tables.
  cbn [flat_map fst snd]. rewrite H1, H2, H3. cbn [default]. rewrite E1, E2, E3. reflexivity.
Qed.

Lemma slice0_nil {A} (limit : number) : slice0 (@nil A) limit = [].
Proof.
  unfold slice0. destruct (trunc limit) as [k|[|]]; try reflexivity.
  destruct (k <? 0); apply firstn_nil.
Qed.

Lemma semanticSearch_nothing_embedded (dims : nat) (q : Embedding)
  (options : VectorSearchOptions) (db : Db) (rules docs refs : list Row) :
  length q = dims ->
  holds (data db) rules docs refs ->
  filter embedded rules = [] -> filter embedded docs = [] -> filter embedded refs = [] ->
  semanticSearch dims q options db = (Ok [], db).
Proof.
  intros Hq (H1 & H2 & H3) E1 E2 E3.
  unfold semanticSearch, mbind, lift, validateDimensions. rewrite Hq, Nat.eqb_refl.
  cbn [negb]. unfold search_tables. cbn [scan_tables]. unfold mbind, select_where, lift.
  rewrite H1, E1. cbn [scan]. rewrite H2, E2. cbn [scan]. rewrite H3, E3. cbn [scan].
  unfold ret. cbn [sort]. rewrite slice0_nil. reflexivity.
Qed.

(** X12.  After [clearEmbeddings()] (no table given, or the empty string) no row
    of the three tables has an embedding: [getIndexStats] reports
    [embeddedDocuments = 0] with [totalDocuments] as before, and
    [semanticSearch] returns no result, for every query of the configured
    dimensions. *)
Theorem clearEmbeddings_all (table : option string) (ts : instant) (db : Db)
  (rules docs refs : list Row) (dims : nat) (q : Embedding) (options : VectorSearchOptions) :
  table = None \/ table = Some ""%string ->
  holds (data db) rules docs refs ->
  length q = dims ->
  exists db' stats stats',
    clearEmbeddings table ts db = (Ok tt, db') /\
    getIndexStats db = (Ok stats, db) /\
    getIndexStats db' = (Ok stats', db') /\
    embeddedDocuments stats' = 0%nat /\
    totalDocuments stats' = totalDocuments stats /\
    semanticSearch dims q options db' = (Ok [], db').
Proof.
  intros Ht H Hq.
  destruct (@clearEmbeddings_all_run table ts db rules docs refs Ht H) as (db' & Hrun & H').
  exists db'. eexists. eexists.
  split; [exact Hrun|]. split; [apply (@getIndexStats_run db rules docs refs H)|].
  split; [apply (@getIndexStats_run db' _ _ _ H')|].
  cbn [embeddedDocuments totalDocuments]. unfold count_embedded.
  rewrite !cleared_embedded, !cleared_length. cbn [length].
  repeat split.
  apply (@semanticSearch_nothing_embedded dims q options db' _ _ _ Hq H'); apply cleared_embedded.
Qed.

Lemma getIndexStats_counts_witness :
  exists stats,
    getIndexStats two_rules = (Ok stats, two_rules) /\
    embeddedDocuments stats = length (embedded_rows (data two_rules)) /\
    (embeddedDocuments stats <= totalDocuments stats)%nat /\
    map fst (byTable stats) = index_tables /\
    totalDocuments stats = list_sum (map (fun t => stats_total (snd t)) (byTable stats)) /\
    embeddedDocuments stats = list_sum (map (fun t => stats_embedded (snd t)) (byTable stats)).
Proof.
  apply (@getIndexStats_counts two_rules (rows_in "rules" two_rules)
           (rows_in "project_docs" two_rules) (rows_in "refs" two_rules)).
  vm_compute. repeat split.
Defined.

Lemma clearEmbeddings_all_witness :
  exists db' stats stats',
    clearEmbeddings None 3000 two_rules = (Ok tt, db') /\
    getIndexStats two_rules = (Ok stats, two_rules) /\
    getIndexStats db' = (Ok stats', db') /\
    embeddedDocuments stats' = 0%nat /\
    totalDocuments stats' = totalDocuments stats /\
    semanticSearch 3 VectorIndexFacts.one_two_three defaults db' = (Ok [], db').
Proof.
  apply (@clearEmbeddings_all None 3000 two_rules (rows_in "rules" two_rules)
           (rows_in "project_docs" two_rules) (rows_in "refs" two_rules) 3
           VectorIndexFacts.one_two_three defaults).
  - left. reflexivity.
  - vm_compute. repeat split.
  - reflexivity.
Defined.

End IndexStatsFacts.

(** ** The storage of rules *)

Module RuleStorageFacts.
Import VectorOperations Sql SqlFacts Storage.
Local Open Scope sql_scope.

(** What [findById] makes of a rule that [create] or [update] returned: the
    row has no [embedding] column for it to read, and an empty metadata text
    reads as no metadata. *)
Definition as_stored (rule : Rule) : Rule :=
  {| rule_id := rule_id rule; rule_content := rule_content rule; rule_embedding := None;
     rule_tags := rule_tags rule; rule_tier := rule_tier rule;
     rule_metadata := deserializeMetadata (rule_metadata rule);
     rule_created_at := rule_created_at rule; rule_updated_at := rule_updated_at rule |}.


Lemma findById_run (id_ : string) (db : Db) (rows : list Row) :
  find_table "rules" (tables (data db)) = Some rows ->
  RuleStorage_findById id_ db =
  (Ok (match filter (by_id id_) rows with
       | [] => None
       | row :: _ => Some (rule_of_row row)
       end), db).
Proof.
  intros H. unfold RuleStorage_findById, mbind, select_where. rewrite H.
  destruct (filter (by_id id_) rows); reflexivity.
Qed.

Lemma by_id_existsb (id_ : string) (rows : list Row) :
  existsb (fun r => String.eqb (row_id r) id_) rows = false -> filter (by_id id_) rows = [].
Proof. intros H. apply filter_none. exact H. Qed.

(** X13.  A rule that [create] has stored is the one [findById] returns, with the
    time stamps of the creation; the embedding is not part of what comes
    back. *)
Theorem RuleStorage_create_findById (rule : Rule) (now : instant) (db db' : Db)
  (created : Rule) :
  RuleStorage_create rule now db = (Ok created, db') ->
  rule_created_at created = now /\ rule_updated_at created = now /\
  rule_embedding created = rule_embedding rule /\
  RuleStorage_findById (rule_id rule) db' = (Ok (Some (as_stored created)), db').
Proof.
  unfold RuleStorage_create, mbind, insert_row, ret.
  destruct (find_table "rules" (tables (data db))) as [rows|] eqn:Hfind; [|discriminate].
  destruct (existsb _ rows) eqn:Hex; [discriminate|].
  intros H. injection H as <- <-. cbn [rule_created_at rule_updated_at rule_embedding].
  repeat split.
  erewrite findById_run;
    [|cbn [data with_data tables with_tables]; apply find_table_set_table; congruence].
  cbn [row_id] in Hex.
  rewrite filter_app, by_id_existsb by exact Hex. cbn [app filter]. unfold by_id. cbn [row_id].
  rewrite String.eqb_refl. reflexivity.
Qed.

(** X14.  [create] with an id that the table already holds fails and leaves the
    database as it was. *)
Theorem RuleStorage_create_duplicate (rule : Rule) (now : instant) (db : Db)
  (rows : list Row) :
  find_table "rules" (tables (data db)) = Some rows ->
  existsb (by_id (rule_id rule)) rows = true ->
  exists e, RuleStorage_create rule now db = (Err e, db).
Proof.
  intros Hfind Hex. unfold RuleStorage_create, mbind, insert_row. rewrite Hfind.
  cbn [row_id]. unfold by_id in Hex. rewrite Hex. eexists. reflexivity.
Qed.

Lemma filter_filter_neg {A} (f : A -> bool) (l : list A) :
  filter f (filter (fun a => negb (f a)) l) = [].
Proof.
  induction l as [|a l IH]; [reflexivity|]. cbn [filter].
  destruct (f a) eqn:E; cbn [negb filter]; [exact IH|rewrite E; exact IH].
Qed.

Lemma filter_filter_other (id_ other : string) (rows : list Row) :
  other <> id_ ->
  filter (by_id other) (filter (fun r => negb (by_id id_ r)) rows) = filter (by_id other) rows.
Proof.
  intros Hne. induction rows as [|r rows IH]; [reflexivity|]. cbn [filter].
  destruct (by_id id_ r) eqn:E; cbn [negb].
  - assert (by_id other r = false) as ->; [|exact IH].
    unfold by_id in *. apply String.eqb_eq in E. apply String.eqb_neq. congruence.
  - cbn [filter]. destruct (by_id other r); rewrite IH; reflexivity.
Qed.

Lemma some_filtered {A} (f : A -> bool) (l : list A) :
  Nat.ltb 0 (length (filter f l)) = existsb f l.
Proof.
  induction l as [|a l IH]; [reflexivity|]. cbn [filter existsb].
  destruct (f a); [reflexivity|exact IH].
Qed.

(** X15.  [delete] answers whether the rule existed; afterwards [findById] finds
    no rule of that id, and finds every other rule as before. *)
Theorem RuleStorage_delete_findById (id_ : string) (db : Db) (rows : list Row) :
  find_table "rules" (tables (data db)) = Some rows ->
  let db' := snd (RuleStorage_delete id_ db) in
  fst (RuleStorage_delete id_ db) = Ok (existsb (by_id id_) rows) /\
  RuleStorage_findById id_ db' = (Ok None, db') /\
  (forall other, other <> id_ ->
     fst (RuleStorage_findById other db') = fst (RuleStorage_findById other db)).
Proof.
  intros Hfind. unfold RuleStorage_delete, mbind, delete_where, ret. rewrite Hfind.
  cbn [fst snd].
  assert (Hfind' : find_table "rules"
            (tables (data (with_data db (with_tables (data db)
               (set_table "rules" (filter (fun r => negb (by_id id_ r)) rows)
                  (tables (data db)))))))
          = Some (filter (fun r => negb (by_id id_ r)) rows)).
  { cbn [data with_data tables with_tables]. apply find_table_set_table. congruence. }
  split; [|split].
  - f_equal. apply some_filtered.
  - rewrite (@findById_run _ _ _ Hfind'). rewrite filter_filter_neg. reflexivity.
  - intros other Hne. rewrite (@findById_run _ _ _ Hfind'), (@findById_run _ _ _ Hfind).
    cbn [fst]. rewrite filter_filter_other by exact Hne. reflexivity.
Qed.

(** [update] of an id that the table does not hold returns [null] and
    leaves the database as it was. *)
Lemma RuleStorage_update_missing (id_ : string) (updates : RuleUpdates)
  (now ts : instant) (db : Db) (rows : list Row) :
  find_table "rules" (tables (data db)) = Some rows ->
  existsb (by_id id_) rows = false ->
  RuleStorage_update id_ updates now ts db = (Ok None, db).
Proof.
  intros Hfind Hex. unfold RuleStorage_update. unfold mbind at 1.
  rewrite (@findById_run _ _ _ Hfind), by_id_existsb by exact Hex. reflexivity.
Qed.




(** *** On the database of the first rule *)



Lemma RuleStorage_create_findById_witness :
  let created := StorageFacts.stamped StorageFacts.rule_r1 1 1000 1000 in
  rule_created_at created = 1000 /\ rule_updated_at created = 1000 /\
  rule_embedding created = rule_embedding StorageFacts.rule_r1 /\
  RuleStorage_findById "r1" StorageFacts.after_create
    = (Ok (Some (as_stored created)), StorageFacts.after_create).
Proof.
  apply (@RuleStorage_create_findById StorageFacts.rule_r1 1000 StorageFacts.installed
           StorageFacts.after_create (StorageFacts.stamped StorageFacts.rule_r1 1 1000 1000)).
  vm_compute. reflexivity.
Defined.

Lemma RuleStorage_create_duplicate_witness :
  exists e,
    RuleStorage_create StorageFacts.rule_r1 3000 StorageFacts.after_create
      = (Err e, StorageFacts.after_create).
Proof.
  apply (@RuleStorage_create_duplicate StorageFacts.rule_r1 3000 StorageFacts.after_create
           (rows_in "rules" StorageFacts.after_create));
    vm_compute; reflexivity.
Defined.

Lemma RuleStorage_delete_findById_witness :
  let db := StorageFacts.after_create in
  let db' := snd (RuleStorage_delete "r1" db) in
  fst (RuleStorage_delete "r1" db) = Ok (existsb (by_id "r1") (rows_in "rules" db)) /\
  RuleStorage_findById "r1" db' = (Ok None, db') /\
  (forall other, other <> "r1"%string ->
     fst (RuleStorage_findById other db') = fst (RuleStorage_findById other db)).
Proof.
  apply (@RuleStorage_delete_findById "r1" StorageFacts.after_create
           (rows_in "rules" StorageFacts.after_create)).
  vm_compute. reflexivity.
Defined.



End RuleStorageFacts.

(** ** The cache, whatever it is used for *)

Module MemoryCacheMoreFacts.
Import MemoryCache.

Section WithValue.
Variable T : Type.
Implicit Types (c : MemoryCache.t T) (l : list (LRU.item (CacheEntry T))).

Definition key_list l : list string := map (@LRU.item_key _) l.

(** The keys are distinct, and a bounded cache is within its bound. *)
Definition well_formed (lru : LRU.t (CacheEntry T)) : Prop :=
  NoDup (key_list (LRU.items lru)) /\
  (LRU.max lru <> 0%nat -> (LRU.size lru <= LRU.max lru)%nat).

Lemma lookup_None l (k : string) : LRU.lookup k l = None <-> ~ In k (key_list l).
Proof.
  induction l as [|it l IH]; cbn [LRU.lookup key_list map In]; [tauto|].
  destruct (String.eqb_spec (LRU.item_key it) k) as [E|E].
  - split; [discriminate|]. intros H. exfalso. apply H. left. exact E.
  - fold (key_list l). rewrite IH. tauto.
Qed.

Lemma lookup_Some_key l (k : string) (it : LRU.item (CacheEntry T)) :
  LRU.lookup k l = Some it -> LRU.item_key it = k.
Proof.
  induction l as [|x l IH]; cbn [LRU.lookup]; [discriminate|].
  destruct (String.eqb_spec (LRU.item_key x) k) as [E|E]; [|exact IH].
  intros H. injection H as <-. exact E.
Qed.

Lemma remove_keys_incl l (k k' : string) :
  In k' (key_list (LRU.remove k l)) -> In k' (key_list l).
Proof.
  induction l as [|x l IH]; cbn [LRU.remove key_list map In]; [tauto|].
  destruct (String.eqb (LRU.item_key x) k); cbn [map In]; fold (key_list l);
    fold (key_list (LRU.remove k l)); tauto.
Qed.

Lemma remove_NoDup l (k : string) :
  NoDup (key_list l) -> NoDup (key_list (LRU.remove k l)) /\ ~ In k (key_list (LRU.remove k l)).
Proof.
  induction l as [|x l IH]; cbn [LRU.remove key_list map]; intros H.
  - split; [constructor|intros []].
  - fold (key_list l) in *. inversion H as [|? ? Hx Hl]; subst.
    destruct (String.eqb_spec (LRU.item_key x) k) as [E|E].
    + subst k. split; assumption.
    + destruct (IH Hl) as [H1 H2]. cbn [map]. fold (key_list (LRU.remove k l)). split.
      * constructor; [|exact H1]. intros Hin. apply Hx. apply (@remove_keys_incl _ _ _ Hin).
      * intros [Hin|Hin]; [congruence|tauto].
Qed.

Lemma removelast_NoDup {A} (l : list A) : NoDup l -> NoDup (removelast l).
Proof.
  intros H. destruct l as [|a l] using rev_ind; [exact H|].
  rewrite removelast_last. rewrite <- (app_nil_r l).
  apply NoDup_remove_1 with (a := a). exact H.
Qed.

Lemma removelast_incl {A} (l : list A) (a : A) : In a (removelast l) -> In a l.
Proof.
  destruct l as [|b l] using rev_ind; [tauto|].
  rewrite removelast_last. intros H. apply in_or_app. left. exact H.
Qed.

Lemma key_list_removelast l : key_list (removelast l) = removelast (key_list l).
Proof.
  destruct l as [|b l] using rev_ind; [reflexivity|].
  unfold key_list. rewrite map_app. cbn [map]. rewrite !removelast_last. reflexivity.
Qed.

Lemma key_list_modify (lru : LRU.t (CacheEntry T)) (k : string)
  (f : CacheEntry T -> CacheEntry T) :
  key_list (LRU.items (LRU.modify lru k f)) = key_list (LRU.items lru).
Proof.
  unfold LRU.modify. cbn [LRU.items LRU.with_items]. unfold key_list. rewrite map_map.
  apply map_ext. intros it. destruct (String.eqb (LRU.item_key it) k); reflexivity.
Qed.

Lemma length_remove_le l (k : string) : (length (LRU.remove k l) <= length l)%nat.
Proof.
  induction l as [|x l IH]; cbn [LRU.remove length]; [lia|].
  destruct (String.eqb (LRU.item_key x) k); cbn [length]; lia.
Qed.

Lemma length_remove_found l (k : string) (it : LRU.item (CacheEntry T)) :
  LRU.lookup k l = Some it -> S (length (LRU.remove k l)) = length l.
Proof.
  induction l as [|x l IH]; cbn [LRU.lookup LRU.remove length]; [discriminate|].
  destruct (String.eqb (LRU.item_key x) k); [reflexivity|].
  intros H. cbn [length]. rewrite IH by exact H. reflexivity.
Qed.

Lemma well_formed_set (lru : LRU.t (CacheEntry T)) (k : string) (v : CacheEntry T) (now : Z) :
  well_formed lru -> well_formed (LRU.set lru k v now).
Proof.
  intros [Hnd Hsize]. unfold well_formed, LRU.set, LRU.size in *.
  destruct (LRU.lookup k (LRU.items lru)) as [it|] eqn:E;
    cbn [LRU.items LRU.max LRU.with_items key_list map LRU.item_key length].
  - fold (key_list (LRU.remove k (LRU.items lru))).
    destruct (@remove_NoDup _ k Hnd) as [H1 H2]. split; [constructor; assumption|].
    rewrite (@length_remove_found _ _ _ E). exact Hsize.
  - apply lookup_None in E.
    destruct (Nat.eqb_spec (length (LRU.items lru)) (LRU.max lru)) as [Hfull|Hfull];
      cbn [andb].
    + destruct (Nat.eqb_spec (LRU.max lru) 0) as [Hz|Hnz]; cbn [negb].
      * fold (key_list (LRU.items lru)). split; [constructor; assumption|contradiction].
      * fold (key_list (removelast (LRU.items lru))). split.
        -- constructor.
           ++ rewrite key_list_removelast. intros Hin. apply E.
              apply (@removelast_incl _ _ _ Hin).
           ++ rewrite key_list_removelast. apply removelast_NoDup. exact Hnd.
        -- intros _. destruct (LRU.items lru) as [|x l] eqn:El; [cbn in *; lia|].
           rewrite <- El in *.
           assert (LRU.items lru <> []) as Hne by (rewrite El; discriminate).
           destruct (exists_last Hne) as (l' & a & Hl). rewrite Hl in *.
           rewrite removelast_last. rewrite length_app in Hfull. cbn [length] in Hfull. lia.
    + fold (key_list (LRU.items lru)). split; [constructor; assumption|].
      intros Hnz. specialize (Hsize Hnz). lia.
Qed.

Lemma well_formed_with_removed (lru : LRU.t (CacheEntry T)) (k : string) :
  well_formed lru -> well_formed (LRU.with_items lru (LRU.remove k (LRU.items lru))).
Proof.
  intros [Hnd Hsize]. unfold well_formed, LRU.size in *. cbn [LRU.items LRU.max LRU.with_items].
  split; [apply remove_NoDup; exact Hnd|].
  intros Hnz. pose proof (length_remove_le (LRU.items lru) k). specialize (Hsize Hnz). lia.
Qed.

Lemma well_formed_get (lru : LRU.t (CacheEntry T)) (k : string) (now : Z) :
  well_formed lru -> well_formed (snd (LRU.get lru k now)).
Proof.
  intros H. unfold LRU.get.
  destruct (LRU.lookup k (LRU.items lru)) as [it|] eqn:E; [|exact H].
  destruct (LRU.isStale lru now it); cbn [snd]; [apply well_formed_with_removed; exact H|].
  destruct H as [Hnd Hsize]. unfold well_formed, LRU.size in *.
  cbn [LRU.items LRU.max LRU.with_items length key_list map].
  fold (key_list (LRU.remove k (LRU.items lru))).
  destruct (@remove_NoDup _ k Hnd) as [H1 H2].
  assert (LRU.item_key (if LRU.updateAgeOnGet lru then LRU.Item k (LRU.item_value it) now else it)
          = k) as ->.
  { destruct (LRU.updateAgeOnGet lru); [reflexivity|apply (@lookup_Some_key _ _ _ E)]. }
  split; [constructor; assumption|].
  rewrite (@length_remove_found _ _ _ E). exact Hsize.
Qed.

Lemma well_formed_modify (lru : LRU.t (CacheEntry T)) (k : string)
  (f : CacheEntry T -> CacheEntry T) :
  well_formed lru -> well_formed (LRU.modify lru k f).
Proof.
  intros [Hnd Hsize]. unfold well_formed. rewrite key_list_modify. split; [exact Hnd|].
  unfold LRU.size, LRU.modify in *. cbn [LRU.items LRU.max LRU.with_items].
  rewrite length_map. exact Hsize.
Qed.

Lemma well_formed_delete (lru : LRU.t (CacheEntry T)) (k : string) :
  well_formed lru -> well_formed (snd (LRU.delete lru k)).
Proof.
  intros H. unfold LRU.delete. destruct (LRU.lookup k (LRU.items lru)); cbn [snd];
    [apply well_formed_with_removed|]; exact H.
Qed.

Lemma filter_keys_NoDup l (f : LRU.item (CacheEntry T) -> bool) :
  NoDup (key_list l) -> NoDup (key_list (filter f l)).
Proof.
  induction l as [|x l IH]; cbn [filter key_list map]; [auto|]. fold (key_list l).
  intros H. inversion H as [|? ? Hx Hl]; subst.
  destruct (f x); cbn [key_list map]; [|apply IH; exact Hl].
  fold (key_list (filter f l)). constructor; [|apply IH; exact Hl].
  intros Hin. apply Hx. unfold key_list in *. apply in_map_iff in Hin.
  destruct Hin as [y [Hy Hin]]. apply filter_In in Hin. apply in_map_iff.
  exists y. tauto.
Qed.

Lemma filter_length {A} (f : A -> bool) (l : list A) : (length (filter f l) <= length l)%nat.
Proof. induction l as [|a l IH]; cbn; [lia|]. destruct (f a); cbn; lia. Qed.

Lemma well_formed_purge (lru : LRU.t (CacheEntry T)) (now : Z) :
  well_formed lru -> well_formed (LRU.purgeStale lru now).
Proof.
  intros [Hnd Hsize]. unfold well_formed, LRU.purgeStale, LRU.size in *.
  cbn [LRU.items LRU.max LRU.with_items]. split; [apply filter_keys_NoDup; exact Hnd|].
  intros Hnz. specialize (Hsize Hnz).
  pose proof (filter_length (fun it => negb (LRU.isStale lru now it)) (LRU.items lru)). lia.
Qed.

Lemma well_formed_clear (lru : LRU.t (CacheEntry T)) : well_formed (LRU.clear lru).
Proof.
  unfold well_formed, LRU.clear, LRU.size. cbn. split; [constructor|lia].
Qed.

Lemma well_formed_apply c (call : Z * op T) :
  well_formed (cache c) -> well_formed (cache (apply c call)).
Proof.
  intros H. destruct call as [now o].
  destruct o as [key|key|key v|key| | | |ents|dmp|]; cbn [apply].
  - unfold get. pose proof (@well_formed_get _ key now H) as Hg.
    destruct (LRU.get (cache c) key now) as [[entry|] lru]; cbn [snd cache] in *;
      [apply well_formed_modify|]; exact Hg.
  - unfold getWithMetadata. pose proof (@well_formed_get _ key now H) as Hg.
    destruct (LRU.get (cache c) key now) as [[entry|] lru]; cbn [snd cache] in *;
      [apply well_formed_modify|]; exact Hg.
  - unfold set. cbn [cache]. apply well_formed_set. exact H.
  - unfold delete. pose proof (@well_formed_delete _ key H) as Hd.
    destruct (LRU.delete (cache c) key) as [[|] lru]; cbn [snd cache] in *; exact Hd.
  - unfold clear. cbn [cache]. apply well_formed_clear.
  - unfold prune. cbn [snd cache]. apply well_formed_purge. exact H.
  - exact H.
  - unfold warmUp. revert c H. induction ents as [|kv ents IH]; intros c H; [exact H|].
    cbn [fold_left]. apply IH. unfold set. cbn [cache]. apply well_formed_set. exact H.
  - unfold load. revert c H. induction dmp as [|kvt dmp IH]; intros c H; [exact H|].
    cbn [fold_left]. apply IH. cbn [cache]. apply well_formed_set. exact H.
  - exact H.
Qed.

Lemma well_formed_run (calls : list (Z * op T)) c :
  well_formed (cache c) -> well_formed (cache (run c calls)).
Proof.
  revert c. induction calls as [|call calls IH]; intros c H; [exact H|].
  unfold run. cbn [fold_left]. apply IH. apply well_formed_apply. exact H.
Qed.

Lemma well_formed_create (config : CacheConfig) : well_formed (cache (create T config)).
Proof. unfold well_formed, create, LRU.size. cbn. split; [constructor|lia]. Qed.

Lemma max_set (lru : LRU.t (CacheEntry T)) (k : string) (v : CacheEntry T) (now : Z) :
  LRU.max (LRU.set lru k v now) = LRU.max lru.
Proof. unfold LRU.set. destruct (LRU.lookup k (LRU.items lru)); reflexivity. Qed.

Lemma max_get (lru : LRU.t (CacheEntry T)) (k : string) (now : Z) :
  LRU.max (snd (LRU.get lru k now)) = LRU.max lru.
Proof.
  unfold LRU.get. destruct (LRU.lookup k (LRU.items lru)); [|reflexivity].
  destruct (LRU.isStale lru now i); reflexivity.
Qed.

Lemma max_apply c (call : Z * op T) : LRU.max (cache (apply c call)) = LRU.max (cache c).
Proof.
  destruct call as [now o].
  destruct o as [key|key|key v|key| | | |ents|dmp|]; cbn [apply]; try reflexivity.
  - unfold get. pose proof (max_get (cache c) key now) as H.
    destruct (LRU.get (cache c) key now) as [[entry|] lru]; exact H.
  - unfold getWithMetadata. pose proof (max_get (cache c) key now) as H.
    destruct (LRU.get (cache c) key now) as [[entry|] lru]; exact H.
  - unfold set. cbn [cache]. apply max_set.
  - unfold delete, LRU.delete. destruct (LRU.lookup key (LRU.items (cache c))); reflexivity.
  - unfold warmUp. revert c. induction ents as [|kv ents IH]; intros c; [reflexivity|].
    cbn [fold_left]. rewrite IH. unfold set. cbn [cache]. apply max_set.
  - unfold load. revert c. induction dmp as [|kvt dmp IH]; intros c; [reflexivity|].
    cbn [fold_left]. rewrite IH. cbn [cache]. apply max_set.
Qed.

Lemma max_run (calls : list (Z * op T)) c : LRU.max (cache (run c calls)) = LRU.max (cache c).
Proof.
  revert c. induction calls as [|call calls IH]; intros c; [reflexivity|].
  unfold run. cbn [fold_left]. fold (run (apply c call) calls). rewrite IH. apply max_apply.
Qed.

(** X17.  Whatever is done with a cache, its keys stay distinct, and when
    [maxSize] is not 0 the [size] that [getStats] reports never exceeds
    [maxSize]. *)
Theorem cache_within_bounds (config : CacheConfig) (calls : list (Z * op T)) :
  let c := run (create T config) calls in
  NoDup (key_list (LRU.items (cache c))) /\
  (cfg_maxSize config <> 0%nat -> (size (getStats c) <= maxSize (getStats c))%nat) /\
  maxSize (getStats c) = cfg_maxSize config.
Proof.
  cbv zeta. destruct (@well_formed_run calls _ (well_formed_create config)) as [Hnd Hsize].
  assert (LRU.max (cache (run (create T config) calls)) = cfg_maxSize config) as Hmax
    by (rewrite max_run; reflexivity).
  split; [exact Hnd|]. unfold getStats. cbn [size maxSize]. rewrite Hmax in *.
  split; [exact Hsize|reflexivity].
Qed.

(** *** Lookups *)

Definition fresh_at (lru : LRU.t (CacheEntry T)) (since now : Z) : Prop :=
  LRU.ttl lru = 0 \/ now - since <= LRU.ttl lru.

Lemma fresh_not_stale (lru : LRU.t (CacheEntry T)) (since now : Z) (k : string)
  (e : CacheEntry T) :
  fresh_at lru since now -> LRU.isStale lru now (LRU.Item k e since) = false.
Proof.
  unfold fresh_at, LRU.isStale. cbn [LRU.item_start]. intros [H|H].
  - rewrite H. reflexivity.
  - destruct (LRU.ttl lru =? 0); [reflexivity|]. cbn [negb andb]. apply Z.ltb_ge. exact H.
Qed.

Lemma ttl_set (lru : LRU.t (CacheEntry T)) (k : string) (v : CacheEntry T) (now : Z) :
  LRU.ttl (LRU.set lru k v now) = LRU.ttl lru.
Proof. unfold LRU.set. destruct (LRU.lookup k (LRU.items lru)); reflexivity. Qed.

Lemma lookup_set (lru : LRU.t (CacheEntry T)) (k : string) (v : CacheEntry T) (now : Z) :
  LRU.lookup k (LRU.items (LRU.set lru k v now)) = Some (LRU.Item k v now).
Proof.
  unfold LRU.set. destruct (LRU.lookup k (LRU.items lru));
    cbn [LRU.items LRU.with_items LRU.lookup LRU.item_key]; rewrite String.eqb_refl;
    reflexivity.
Qed.

(** X18.  A value that was set is what [get], [getWithMetadata] and [peek] return
    for the key until the entry expires: [getWithMetadata] shows the time of
    the [set] and counts its own hit. *)
Theorem set_then_get c (key : string) (v : T) (now now' : Z) :
  fresh_at (cache c) now now' ->
  fst (get (set c key v now) key now') = Some v /\
  fst (getWithMetadata (set c key v now) key now') = Some (v, (now, 1%N)) /\
  peek (set c key v now) key now' = Some v /\
  has (set c key v now) key now' = true.
Proof.
  intros Hfresh.
  assert (Hstale : LRU.isStale (LRU.set (cache c) key (Entry v now 0) now) now'
                     (LRU.Item key (Entry v now 0) now) = false).
  { apply fresh_not_stale. unfold fresh_at. rewrite ttl_set. exact Hfresh. }
  unfold get, getWithMetadata, peek, has, LRU.has, LRU.peek, LRU.get, set. cbn [cache].
  rewrite lookup_set, Hstale. cbn. repeat split.
Qed.

(** X19.  [delete] answers whether the cache held the key, stale or not; for a
    cache that has been used in any way, the key is then gone: [get] misses
    and [has] is false. *)
Theorem delete_then_get (config : CacheConfig) (calls : list (Z * op T)) (key : string)
  (now : Z) :
  let c := run (create T config) calls in
  (fst (delete c key) = true <-> In key (key_list (LRU.items (cache c)))) /\
  fst (get (snd (delete c key)) key now) = None /\
  has (snd (delete c key)) key now = false.
Proof.
  cbv zeta. set (c := run (create T config) calls).
  destruct (@well_formed_run calls _ (well_formed_create config)) as [Hnd _]. fold c in Hnd.
  unfold delete, LRU.delete, get, has, LRU.has, LRU.peek, LRU.get.
  destruct (LRU.lookup key (LRU.items (cache c))) as [it|] eqn:E; cbn [fst snd cache].
  - destruct (@remove_NoDup _ key Hnd) as [_ Hout]. apply lookup_None in Hout.
    cbn [LRU.items LRU.with_items]. rewrite Hout. repeat split; try reflexivity.
    intros _. destruct (in_dec string_dec key (key_list (LRU.items (cache c)))) as [H|H];
      [exact H|]. apply lookup_None in H. congruence.
  - rewrite E. repeat split; try reflexivity; try discriminate.
    intros H. apply lookup_None in E. contradiction.
Qed.

(** *** [dump] and [load] *)

Definition loaded (now : Z) (kvt : string * T * Z) : LRU.item (CacheEntry T) :=
  LRU.Item (fst (fst kvt)) (Entry (snd (fst kvt)) (snd kvt) 0) now.

Definition dumped_keys (d : list (string * T * Z)) : list string :=
  map (fun kvt => fst (fst kvt)) d.

Lemma load_items (d : list (string * T * Z)) (now : Z) c :
  NoDup (dumped_keys d) ->
  (forall k, In k (dumped_keys d) -> ~ In k (key_list (LRU.items (cache c)))) ->
  LRU.max (cache c) = 0%nat \/
    (length (LRU.items (cache c)) + length d <= LRU.max (cache c))%nat ->
  LRU.items (cache (load c d now)) = rev (map (loaded now) d) ++ LRU.items (cache c).
Proof.
  revert c. induction d as [|kvt d IH]; intros c Hnd Hnew Hroom; [reflexivity|].
  unfold load. cbn [fold_left]. fold (load
    {| cache := LRU.set (cache c) (fst (fst kvt)) (Entry (snd (fst kvt)) (snd kvt) 0) now;
       stats := stats c |} d now).
  inversion Hnd as [|? ? Hk Hd]; subst.
  assert (Hset : LRU.items (LRU.set (cache c) (fst (fst kvt))
                              (Entry (snd (fst kvt)) (snd kvt) 0) now)
                 = loaded now kvt :: LRU.items (cache c)).
  { unfold LRU.set, LRU.size.
    assert (LRU.lookup (fst (fst kvt)) (LRU.items (cache c)) = None) as ->.
    { apply lookup_None. apply Hnew. left. reflexivity. }
    destruct Hroom as [Hz|Hroom].
    - rewrite Hz, Nat.eqb_refl. rewrite andb_false_r. reflexivity.
    - cbn [length] in Hroom.
      destruct (Nat.eqb_spec (length (LRU.items (cache c))) (LRU.max (cache c))); [lia|].
      reflexivity. }
  rewrite IH; cbn [cache].
  - rewrite Hset. cbn [map rev]. rewrite <- app_assoc. reflexivity.
  - exact Hd.
  - intros k Hin. rewrite Hset. cbn [key_list map In LRU.item_key loaded].
    fold (key_list (LRU.items (cache c))). intros [H|H].
    + subst k. contradiction.
    + apply (Hnew k); [right; exact Hin|exact H].
  - rewrite max_set, Hset. cbn [length] in *. destruct Hroom; [left; assumption|right; lia].
Qed.

Lemma dumped_keys_live c (now : Z) : dumped_keys (dump c now) = key_list (live c now).
Proof. unfold dumped_keys, dump, key_list. rewrite map_map. reflexivity. Qed.

Lemma ttl_load (d : list (string * T * Z)) (now : Z) c :
  LRU.ttl (cache (load c d now)) = LRU.ttl (cache c).
Proof.
  revert c. induction d as [|kvt d IH]; intros c; [reflexivity|].
  unfold load. cbn [fold_left]. fold (load
    {| cache := LRU.set (cache c) (fst (fst kvt)) (Entry (snd (fst kvt)) (snd kvt) 0) now;
       stats := stats c |} d now).
  rewrite IH. cbn [cache]. apply ttl_set.
Qed.

(** X20.  A dump of a cache, loaded into a new cache with room for it and
    dumped again before the loaded entries expire, has the same keys, values
    and time stamps in the opposite order: the least recently used entry of
    the old cache is the most recently used one of the new.  Both caches
    have configurations that the constructor takes. *)
Theorem load_dump (config config' : CacheConfig) (calls : list (Z * op T))
  (now now' now'' : Z) :
  constructible config = true ->
  constructible config' = true ->
  let c := run (create T config) calls in
  cfg_maxSize config' = 0%nat \/ (length (dump c now) <= cfg_maxSize config')%nat ->
  cfg_ttl config' = 0 \/ now'' - now' <= cfg_ttl config' ->
  dump (load (create T config') (dump c now) now') now'' = rev (dump c now).
Proof.
  intros _ _. cbv zeta. set (c := run (create T config) calls). intros Hroom Hfresh.
  destruct (@well_formed_run calls _ (well_formed_create config)) as [Hnd _]. fold c in Hnd.
  assert (Hitems : LRU.items (cache (load (create T config') (dump c now) now'))
                   = rev (map (loaded now') (dump c now))).
  { rewrite load_items.
    - cbn [create cache LRU.items]. apply app_nil_r.
    - rewrite dumped_keys_live. unfold live. apply filter_keys_NoDup. exact Hnd.
    - intros k _ [].
    - cbn [create cache LRU.items LRU.max length]. exact Hroom. }
  unfold dump at 1. unfold live. rewrite Hitems.
  rewrite <- map_rev.
  assert (Hall : forall d : list (string * T * Z),
             filter (fun it => negb (LRU.isStale
                        (cache (load (create T config') (dump c now) now')) now'' it))
                    (map (loaded now') d) = map (loaded now') d).
  { induction d as [|kvt d IH]; [reflexivity|]. cbn [map filter]. unfold loaded at 1.
    rewrite fresh_not_stale; [cbn [negb]; rewrite IH; reflexivity|].
    unfold fresh_at. rewrite ttl_load. exact Hfresh. }
  rewrite Hall, map_map. rewrite <- (map_id (rev (dump c now))) at 2.
  apply map_ext. intros [[k v] t]. reflexivity.
Qed.

End WithValue.

(** *** A cache of two entries that has seen three keys *)

Definition two_entries : CacheConfig :=
  {| cfg_maxSize := 2; cfg_ttl := 100; cfg_updateAgeOnGet := None |}.

Definition five_entries : CacheConfig :=
  {| cfg_maxSize := 5; cfg_ttl := 100; cfg_updateAgeOnGet := None |}.

Definition three_sets : list (Z * op string) :=
  [(0, OpSet "a" "1"); (1, OpSet "b" "2"); (2, OpSet "c" "3")]%string.

Lemma cache_within_bounds_witness :
  let c := run (create string two_entries) three_sets in
  NoDup (key_list (LRU.items (cache c))) /\
  (cfg_maxSize two_entries <> 0%nat -> (size (getStats c) <= maxSize (getStats c))%nat) /\
  maxSize (getStats c) = cfg_maxSize two_entries.
Proof. exact (@cache_within_bounds string two_entries three_sets). Defined.

Lemma set_then_get_witness :
  let c := set (run (create string two_entries) three_sets) "k" "v"%string 10 in
  fst (get c "k" 50) = Some "v"%string /\
  fst (getWithMetadata c "k" 50) = Some ("v"%string, (10, 1%N)) /\
  peek c "k" 50 = Some "v"%string /\
  has c "k" 50 = true.
Proof.
  apply (@set_then_get string (run (create string two_entries) three_sets) "k" "v"%string
           10 50).
  right. vm_compute. discriminate.
Defined.

Lemma delete_then_get_witness :
  let c := run (create string two_entries) three_sets in
  (fst (delete c "b") = true <-> In "b"%string (key_list (LRU.items (cache c)))) /\
  fst (get (snd (delete c "b")) "b" 3) = None /\
  has (snd (delete c "b")) "b" 3 = false.
Proof. exact (@delete_then_get string two_entries three_sets "b" 3). Defined.

Lemma load_dump_witness :
  let c := run (create string two_entries) three_sets in
  dump c 3 = [("c", "3", 2); ("b", "2", 1)]%string /\
  dump (load (create string five_entries) (dump c 3) 10) 20
    = [("b", "2", 1); ("c", "3", 2)]%string.
Proof.
  split; [vm_compute; reflexivity|].
  apply (@load_dump string two_entries five_entries three_sets 3 10 20).
  - reflexivity.
  - reflexivity.
  - right. vm_compute. repeat constructor.
  - right. vm_compute. intros H. discriminate H.
Defined.

End MemoryCacheMoreFacts.

(** ** The service: writes, reads and the cache *)

Module FacadeFacts.
Import JSNumber JSNumberFacts VectorOperations Sql SqlFacts Storage VectorIndex.
Import MemoryService RuleStorageFacts VectorStoreFacts.
Local Open Scope sql_scope.

Definition lru_of (s : t) : LRU.t (MemoryCache.CacheEntry cached) :=
  MemoryCache.cache (cache s).

(** The entry under [key] has not expired at [now] when it was written at
    [since]. *)
Definition unexpired (s : t) (since now : instant) : Prop :=
  LRU.ttl (lru_of s) = 0 \/ now - since <= LRU.ttl (lru_of s).

Lemma ttl_after_set (c : MemoryCache.t cached) (key : string) (v : cached) (now : Z) :
  LRU.ttl (MemoryCache.cache (MemoryCache.set c key v now)) = LRU.ttl (MemoryCache.cache c).
Proof.
  unfold MemoryCache.set, LRU.set. cbn [MemoryCache.cache].
  destruct (LRU.lookup key _); reflexivity.
Qed.

Lemma get_after_set (c : MemoryCache.t cached) (key : string) (v : cached) (now now' : Z) :
  LRU.ttl (MemoryCache.cache c) = 0 \/ now' - now <= LRU.ttl (MemoryCache.cache c) ->
  fst (MemoryCache.get (MemoryCache.set c key v now) key now') = Some v.
Proof.
  intros Hfresh. unfold MemoryCache.get, LRU.get, MemoryCache.set. cbn [MemoryCache.cache].
  assert (LRU.lookup key (LRU.items (LRU.set (MemoryCache.cache c) key
                                        (MemoryCache.Entry v now 0) now))
          = Some (LRU.Item key (MemoryCache.Entry v now 0) now)) as ->.
  { unfold LRU.set. destruct (LRU.lookup key (LRU.items (MemoryCache.cache c)));
      cbn [LRU.items LRU.with_items LRU.lookup LRU.item_key]; rewrite String.eqb_refl;
      reflexivity. }
  assert (LRU.isStale (LRU.set (MemoryCache.cache c) key (MemoryCache.Entry v now 0) now) now'
            (LRU.Item key (MemoryCache.Entry v now 0) now) = false) as ->.
  { unfold LRU.isStale. cbn [LRU.item_start].
    assert (LRU.ttl (LRU.set (MemoryCache.cache c) key (MemoryCache.Entry v now 0) now)
            = LRU.ttl (MemoryCache.cache c)) as ->
      by (unfold LRU.set; destruct (LRU.lookup key _); reflexivity).
    destruct Hfresh as [H|H]; [rewrite H; reflexivity|].
    destruct (LRU.ttl (MemoryCache.cache c) =? 0); [reflexivity|].
    cbn [negb andb]. apply Z.ltb_ge. exact H. }
  reflexivity.
Qed.

(** *** Before [initialize] *)

Section Guard.
Variable JSON_stringify : Embedding -> QueryOptions -> string.

(** Before [initialize] (and after [shutdown]) every operation of the facade
    fails with [Memory service not initialized] and touches neither the
    database nor the cache. *)
Lemma not_initialized (s : t) (env : environment) :
  isInitialized s = false ->
  (forall rule, createRule rule env s = (Err NotInitialized, s)) /\
  (forall id_, getRule id_ env s = (Err NotInitialized, s)) /\
  (forall id_ updates, updateRule id_ updates env s = (Err NotInitialized, s)) /\
  (forall id_, deleteRule id_ env s = (Err NotInitialized, s)) /\
  (forall doc, createProjectDoc doc env s = (Err NotInitialized, s)) /\
  (forall id_, getProjectDoc id_ env s = (Err NotInitialized, s)) /\
  (forall ref, createRef ref env s = (Err NotInitialized, s)) /\
  (forall id_, getRef id_ env s = (Err NotInitialized, s)) /\
  (forall name, getRefByName name env s = (Err NotInitialized, s)) /\
  (forall q options, semanticSearch JSON_stringify q options env s = (Err NotInitialized, s)) /\
  (forall table id_ options, findSimilar table id_ options env s = (Err NotInitialized, s)) /\
  (forall documents, batchStoreEmbeddings documents env s = (Err NotInitialized, s)) /\
  (forall s0, isInitialized (shutdown s0) = false).
Proof.
  intros H.
  unfold createRule, getRule, updateRule, deleteRule, createProjectDoc, getProjectDoc,
    createRef, getRef, getRefByName, semanticSearch, findSimilar, batchStoreEmbeddings,
    withConnection.
  rewrite H. cbn [negb]. repeat split.
Qed.
End Guard.

(** *** Writes and the reads that follow *)

Lemma withConnection_ok {A} (env : environment) (s s' : t) (operation : M A)
  (after : A -> MemoryCache.t cached -> MemoryCache.t cached) (a : A) :
  withConnection env s operation after = (Ok a, s') ->
  isInitialized s = true /\
  exists db', operation (database s) = (Ok a, db') /\
    s' = {| config := config s; cache := after a (cache s); database := db';
            isInitialized := true |}.
Proof.
  unfold withConnection. destruct (isInitialized s) eqn:Hi; cbn [negb]; [|discriminate].
  destruct (checkout env); [|discriminate].
  destruct (operation (database s)) as [[a'|e] db'] eqn:E; [|discriminate].
  intros H. injection H as <- <-. split; [reflexivity|]. exists db'. split; reflexivity.
Qed.


Lemma lookup_absent (l : list (LRU.item (MemoryCache.CacheEntry cached))) (k : string) :
  ~ In k (map (@LRU.item_key _) l) -> LRU.lookup k l = None.
Proof.
  induction l as [|it l IH]; cbn [LRU.lookup map In]; [reflexivity|]. intros H.
  destruct (String.eqb_spec (LRU.item_key it) k) as [E|E]; [tauto|]. apply IH. tauto.
Qed.

Lemma remove_absent (l : list (LRU.item (MemoryCache.CacheEntry cached))) (k : string) :
  NoDup (map (@LRU.item_key _) l) -> LRU.lookup k (LRU.remove k l) = None.
Proof.
  induction l as [|it l IH]; cbn [LRU.remove map]; [reflexivity|]. intros H.
  inversion H as [|? ? Hx Hl]; subst.
  destruct (String.eqb_spec (LRU.item_key it) k) as [E|E].
  - subst k. apply lookup_absent. exact Hx.
  - cbn [LRU.lookup]. destruct (String.eqb_spec (LRU.item_key it) k); [contradiction|].
    apply IH. exact Hl.
Qed.

(** X22.  After [deleteRule] has reported a deletion, [getRule] finds nothing:
    the cache entry is gone with the row.  The keys of the cache are
    distinct, as they are in every cache that the facade has built. *)
Theorem getRule_after_delete (id_ : string) (env env' : environment) (s s' : t) :
  NoDup (map (@LRU.item_key _) (LRU.items (lru_of s))) ->
  checkout env' = Ok tt ->
  deleteRule id_ env s = (Ok true, s') ->
  fst (getRule id_ env' s') = Ok None.
Proof.
  intros Hnd Hout Hdel. apply withConnection_ok in Hdel.
  destruct Hdel as (Hi & db' & Hop & ->).
  unfold RuleStorage_delete, mbind, delete_where, ret in Hop.
  destruct (find_table "rules" (tables (data (database s)))) as [rows|] eqn:Hfind;
    [|discriminate].
  injection Hop as Hsome <-.
  unfold getRule. cbn [isInitialized negb cache].
  unfold MemoryCache.delete, LRU.delete.
  assert (Hmiss : forall c, MemoryCache.cache c = LRU.with_items (lru_of s)
                              (LRU.remove ("rule:" ++ id_) (LRU.items (lru_of s))) \/
                            (MemoryCache.cache c = lru_of s /\
                             LRU.lookup ("rule:" ++ id_) (LRU.items (lru_of s)) = None) ->
            MemoryCache.get c ("rule:" ++ id_) (now env')
            = (None, {| MemoryCache.cache := MemoryCache.cache c;
                        MemoryCache.stats := MemoryCache.miss (MemoryCache.stats c) |})).
  { intros c Hc. unfold MemoryCache.get, LRU.get.
    destruct Hc as [Hc|[Hc Hn]]; rewrite Hc; cbn [LRU.items LRU.with_items].
    - rewrite remove_absent by exact Hnd. reflexivity.
    - rewrite Hn. reflexivity. }
  unfold lru_of in *.
  destruct (LRU.lookup ("rule:" ++ id_) (LRU.items (MemoryCache.cache (cache s)))) eqn:El;
    cbn [snd]; rewrite Hmiss by (cbn [MemoryCache.cache]; auto);
    unfold withConnection, mbind; cbn [isInitialized negb with_cache database];
    rewrite Hout;
    (erewrite findById_run;
       [|cbn [data with_data tables with_tables]; apply find_table_set_table; congruence]);
    rewrite filter_filter_neg; reflexivity.
Qed.

(** X23.  [createRule] is not one step: when the embedding has the wrong number
    of dimensions the call fails with the dimension error, but the rule has
    already been inserted and stays in the database; the cache is not
    updated. *)
Theorem createRule_wrong_dimensions (rule : Rule) (embedding : Embedding)
  (env : environment) (s : t) (rows : list Row) :
  isInitialized s = true ->
  checkout env = Ok tt ->
  find_table "rules" (tables (data (database s))) = Some rows ->
  existsb (by_id (rule_id rule)) rows = false ->
  1 <= rule_tier rule <= 5 ->
  rule_embedding rule = Some embedding ->
  length embedding <> cfg_vectorDimensions (config s) ->
  let s' := snd (createRule rule env s) in
  fst (createRule rule env s)
    = Err (EmbeddingDimensions (length embedding) (cfg_vectorDimensions (config s))) /\
  cache s' = cache s /\
  exists stored,
    fst (RuleStorage_findById (rule_id rule) (database s')) = Ok (Some stored) /\
    rule_content stored = rule_content rule /\ rule_created_at stored = now env.
Proof.
  intros Hi Hout Hfind Hnew _ Hemb Hdims.
  remember (createRule rule env s) as res eqn:E.
  unfold createRule, withConnection in E. rewrite Hi, Hout, Hemb in E. cbn [negb] in E.
  unfold mbind at 1 in E. unfold mbind at 1 in E.
  unfold RuleStorage_create at 1 in E. unfold mbind at 1, insert_row in E.
  rewrite Hfind in E. cbn [row_id] in E. unfold by_id in Hnew. rewrite Hnew in E.
  unfold ret at 1 in E.
  rewrite storeEmbedding_wrong_dimensions in E by exact Hdims.
  subst res. cbv zeta. cbn [fst snd with_database cache database].
  split; [reflexivity|]. split; [reflexivity|].
  eexists. erewrite findById_run;
    [|cbn [data with_data tables with_tables]; apply find_table_set_table; congruence].
  rewrite filter_app, by_id_existsb by exact Hnew. cbn [app filter]. unfold by_id.
  cbn [row_id]. rewrite String.eqb_refl. cbn. repeat split.
Qed.

(** X24.  The cache keys of references overlap: a reference is cached under
    [ref:name:<name>], which is also the key of the id [name:<name>]; after
    [createRef], [getRef] with that id returns the reference, whose id is
    another, from the cache. *)
Theorem getRef_by_name_key (ref : Ref) (env env' : environment) (s s' : t) (created : Ref) :
  unexpired s (now env) (now env') ->
  createRef ref env s = (Ok created, s') ->
  fst (getRef ("name:" ++ ref_name ref) env' s') = Ok (Some (CachedRef created)) /\
  ref_id created = ref_id ref.
Proof.
  intros Hfresh Hcreate. apply withConnection_ok in Hcreate.
  destruct Hcreate as (Hi & db' & Hop & ->). split.
  - unfold getRef. cbn [isInitialized negb cache].
    change ("ref:" ++ "name:" ++ ref_name ref)%string with ("ref:name:" ++ ref_name ref)%string.
    match goal with |- context [MemoryCache.get (MemoryCache.set ?c ?k ?v ?n) ?k ?n'] =>
      pose proof (@get_after_set c k v n n') as Hget
    end.
    rewrite ttl_after_set in Hget. specialize (Hget Hfresh).
    destruct (MemoryCache.get _ _ _) as [[v|] c']; cbn [fst] in Hget; [|discriminate].
    injection Hget as ->. reflexivity.
  - unfold RefStorage_create, argument, mbind, ret, throw in Hop.
    destruct (ref_channel_id ref) as [channel_id|]; [|discriminate].
    destruct (insert_row "refs" _ (database s)) as [[[]|e] db1]; [|discriminate].
    cbv beta in Hop.
    match type of Hop with (let (_, _) := ?m in _) = _ => destruct m as [[[]|e] db2] end;
      [|discriminate].
    injection Hop as <- _. reflexivity.
Qed.

(** *** On the service of a fresh installation *)

Definition with_r1 : t :=
  snd (createRule StorageFacts.rule_r1 (MemoryServiceFacts.at_time 20)
         MemoryServiceFacts.searched).

Definition rule_short : Rule :=
  {| rule_id := "r3"; rule_content := "Two dimensions";
     rule_embedding := Some [of_Z 1; of_Z 2]; rule_tags := [];
     rule_tier := 1; rule_metadata := None;
     rule_created_at := 0; rule_updated_at := 0 |}.

Definition ref_docs (created updated : instant) : Ref :=
  {| ref_id := "f1"; ref_name := "docs"; ref_content := "https://example.org/docs";
     ref_embedding := None; ref_channel_id := Some "general"%string; ref_metadata := None;
     ref_created_at := created; ref_updated_at := updated |}.


Lemma getRule_after_delete_witness :
  fst (getRule "r1" (MemoryServiceFacts.at_time 50)
         (snd (deleteRule "r1" (MemoryServiceFacts.at_time 40) with_r1))) = Ok None.
Proof.
  apply (@getRule_after_delete "r1" (MemoryServiceFacts.at_time 40)
           (MemoryServiceFacts.at_time 50) with_r1
           (snd (deleteRule "r1" (MemoryServiceFacts.at_time 40) with_r1))).
  - vm_compute. repeat constructor; cbn; intuition discriminate.
  - reflexivity.
  - vm_compute. reflexivity.
Defined.

Lemma createRule_wrong_dimensions_witness :
  let s := MemoryServiceFacts.searched in
  let s' := snd (createRule rule_short (MemoryServiceFacts.at_time 20) s) in
  fst (createRule rule_short (MemoryServiceFacts.at_time 20) s)
    = Err (EmbeddingDimensions 2 3) /\
  cache s' = cache s /\
  exists stored,
    fst (RuleStorage_findById "r3" (database s')) = Ok (Some stored) /\
    rule_content stored = "Two dimensions"%string /\ rule_created_at stored = 20.
Proof.
  apply (@createRule_wrong_dimensions rule_short [of_Z 1; of_Z 2]
           (MemoryServiceFacts.at_time 20) MemoryServiceFacts.searched
           (rows_in "rules" (database MemoryServiceFacts.searched)));
    try (vm_compute; reflexivity).
  - vm_compute. split; discriminate.
  - vm_compute. discriminate.
Defined.

Lemma getRef_by_name_key_witness :
  let s' := snd (createRef (ref_docs 0 0) (MemoryServiceFacts.at_time 20)
                   MemoryServiceFacts.searched) in
  fst (getRef "name:docs" (MemoryServiceFacts.at_time 30) s')
    = Ok (Some (CachedRef (ref_docs 20 20))) /\
  ref_id (ref_docs 20 20) = "f1"%string.
Proof.
  apply (@getRef_by_name_key (ref_docs 0 0) (MemoryServiceFacts.at_time 20)
           (MemoryServiceFacts.at_time 30) MemoryServiceFacts.searched
           (snd (createRef (ref_docs 0 0) (MemoryServiceFacts.at_time 20)
                   MemoryServiceFacts.searched))
           (ref_docs 20 20)).
  - right. vm_compute. discriminate.
  - vm_compute. reflexivity.
Defined.

End FacadeFacts.

Module SearchOptionsFacts.
Import JSNumber VectorOperations Sql Storage VectorIndex MemoryService.
Local Open Scope sql_scope.

(** What [x || d] takes for missing: no value, 0, -0 or NaN. *)
Definition falsy (x : option number) : bool :=
  match x with
  | Some v => is_nan v || strict_eq v zero
  | None => true
  end.

Definition scores_at_least (threshold : number) (results : list SearchResult) : Prop :=
  Forall (fun r => ge (similarity_score r) threshold = true) results.

Lemma scan_at_least (q : Embedding) (threshold : number) (includeMetadata : bool)
  (ty : table_type) (rows : list Row) :
  forall results out,
    scan q threshold includeMetadata ty rows results = Ok out ->
    scores_at_least threshold results -> scores_at_least threshold out.
Proof.
  induction rows as [|row rows IH]; intros results out Hscan Hres; cbn [scan] in Hscan.
  - injection Hscan as <-. exact Hres.
  - destruct (deserializeEmbedding _) as [embedding|e]; [|discriminate]. cbn [bind] in Hscan.
    destruct (cosineSimilarity q embedding) as [similarity|e]; [|discriminate].
    cbn [bind] in Hscan. apply IH in Hscan; [exact Hscan|].
    destruct (ge similarity threshold) eqn:Hge; [|exact Hres].
    apply Forall_app. split; [exact Hres|]. constructor; [exact Hge|constructor].
Qed.

Lemma scan_tables_at_least (q : Embedding) (threshold : number) (includeMetadata : bool)
  (tables : list (string * table_type)) :
  forall results out db,
    fst (scan_tables q threshold includeMetadata tables results db) = Ok out ->
    scores_at_least threshold results -> scores_at_least threshold out.
Proof.
  induction tables as [|[tableName ty] tables IH]; intros results out db Hscan Hres;
    cbn [scan_tables] in Hscan.
  - injection Hscan as <-. exact Hres.
  - unfold mbind, select_where, lift in Hscan.
    destruct (find_table tableName _); [|discriminate].
    destruct (scan q threshold includeMetadata ty _ results) as [results'|e] eqn:E;
      [|discriminate].
    apply (IH _ _ _ Hscan). exact (@scan_at_least _ _ _ _ _ _ _ E Hres).
Qed.

Lemma firstn_Forall {A} (P : A -> Prop) (n : nat) (l : list A) :
  Forall P l -> Forall P (firstn n l).
Proof.
  intros H. revert n. induction H as [|x l Hx Hl IH]; intros [|n]; cbn; constructor; auto.
Qed.

Lemma slice0_Forall {A} (P : A -> Prop) (l : list A) (limit : number) :
  Forall P l -> Forall P (JSArray.slice0 l limit).
Proof.
  intros H. unfold JSArray.slice0.
  destruct (trunc limit) as [k|[]]; [|constructor|exact H].
  destruct (k <? 0); apply firstn_Forall; exact H.
Qed.

Lemma slice0_ten {A} (l : list A) : JSArray.slice0 l ten = firstn 10 l.
Proof. reflexivity. Qed.

Lemma or_default_falsy (x : option number) (d : number) :
  falsy x = true -> or_default x d = d.
Proof.
  unfold falsy, or_default. destruct x as [v|]; [|reflexivity]. intros ->. reflexivity.
Qed.

(** What [VectorIndex.semanticSearch] returns holds at most [limit] entries
    when [limit] is 10, and only scores at or above the threshold. *)
Lemma semanticSearch_bounds (dims : nat) (q : Embedding) (limit threshold : number)
  (db : Db) (results : list SearchResult) :
  fst (VectorIndex.semanticSearch dims q
         {| VectorIndex.limit := Some limit; VectorIndex.threshold := Some threshold;
            includeMetadata := Some true |} db) = Ok results ->
  scores_at_least threshold results /\
  (limit = ten -> (length results <= 10)%nat).
Proof.
  unfold VectorIndex.semanticSearch.
  cbn [VectorIndex.limit VectorIndex.threshold includeMetadata default].
  unfold mbind, lift, ret.
  destruct (validateDimensions q dims) as [[]|e]; [|discriminate].
  destruct (scan_tables q threshold true search_tables [] db) as [[found|e] db'] eqn:E;
    [|discriminate].
  cbn [fst]. intros Hres. injection Hres as <-. split.
  - apply slice0_Forall. apply JSArrayFacts.sort_good.
    apply (@scan_tables_at_least q threshold true search_tables [] found db).
    + rewrite E. reflexivity.
    + constructor.
  - intros ->. rewrite slice0_ten. apply firstn_le_length.
Qed.

Section Search.
Variable JSON_stringify : Embedding -> QueryOptions -> string.

(** X25.  [options.threshold || 0.7] and [options.limit || 10]: a search through
    the service with threshold 0 (or NaN) is a search with threshold 0.7,
    and a limit of 0 (or NaN) is a limit of 10.  A search that is not
    answered from the cache returns only scores at or above 0.7 in the first
    case and at most ten results in the second. *)
Theorem semanticSearch_zero_options (queryEmbedding : Embedding) (options : QueryOptions)
  (env : environment) (s : t) (results : list SearchResult) :
  fst (MemoryCache.get (cache s) (cacheKey JSON_stringify queryEmbedding options) (now env))
    = None ->
  fst (semanticSearch JSON_stringify queryEmbedding options env s)
    = Ok (CachedSearch results) ->
  (falsy (q_threshold options) = true -> scores_at_least seven_tenths results) /\
  (falsy (q_limit options) = true -> (length results <= 10)%nat).
Proof.
  intros Hmiss Hsearch. unfold semanticSearch in Hsearch.
  destruct (isInitialized s) eqn:Hi; [|discriminate]. cbn [negb] in Hsearch.
  destruct (MemoryCache.get (cache s) _ (now env)) as [[value|] c]; [discriminate|].
  unfold withConnection in Hsearch. cbn [isInitialized with_cache negb] in Hsearch.
  rewrite Hi in Hsearch. cbn [negb] in Hsearch.
  destruct (checkout env) as [[]|e]; [|discriminate].
  unfold mbind at 1 in Hsearch. cbn [database config with_cache] in Hsearch.
  destruct (VectorIndex.semanticSearch (cfg_vectorDimensions (config s)) queryEmbedding _
              (database s)) as [[found|e] db'] eqn:E;
    [|discriminate].
  unfold ret in Hsearch. cbn [fst] in Hsearch. injection Hsearch as <-.
  assert (fst (VectorIndex.semanticSearch (cfg_vectorDimensions (config s)) queryEmbedding
                 {| VectorIndex.limit := Some (or_default (q_limit options) ten);
                    VectorIndex.threshold :=
                      Some (or_default (q_threshold options) seven_tenths);
                    includeMetadata := Some true |} (database s)) = Ok found) as Hfound
    by (rewrite E; reflexivity).
  apply semanticSearch_bounds in Hfound. destruct Hfound as [Hscore Hlen].
  split; intros Hfalsy.
  - rewrite (or_default_falsy _ _ Hfalsy) in Hscore. exact Hscore.
  - apply Hlen. apply or_default_falsy. exact Hfalsy.
Qed.
End Search.

(** A service on the two rules, with nothing cached. *)
Definition on_two_rules : t :=
  {| config := {| cfg_cache := {| MemoryCache.cfg_maxSize := 10;
                                  MemoryCache.cfg_ttl := 1000;
                                  MemoryCache.cfg_updateAgeOnGet := None |};
                  cfg_vectorDimensions := 3 |};
     cache := MemoryCache.create cached
                {| MemoryCache.cfg_maxSize := 10; MemoryCache.cfg_ttl := 1000;
                   MemoryCache.cfg_updateAgeOnGet := None |};
     database := SemanticSearchFacts.two_rules;
     isInitialized := true |}.

Definition zero_options : QueryOptions :=
  {| q_limit := Some zero; q_threshold := Some zero; q_project_id := None;
     q_channel_id := None; q_tags := None; q_tier := None |}.

Definition found_with_zero_options : list SearchResult :=
  match fst (semanticSearch MemoryServiceFacts.stringify_stub VectorIndexFacts.one_two_three
               zero_options (MemoryServiceFacts.at_time 10) on_two_rules) with
  | Ok (CachedSearch results) => results
  | _ => []
  end.

Lemma semanticSearch_zero_options_witness :
  map id found_with_zero_options = ["r1"; "r2"]%string /\
  (falsy (q_threshold zero_options) = true ->
   scores_at_least seven_tenths found_with_zero_options) /\
  (falsy (q_limit zero_options) = true -> (length found_with_zero_options <= 10)%nat).
Proof.
  split; [vm_compute; reflexivity|].
  apply (@semanticSearch_zero_options MemoryServiceFacts.stringify_stub
           VectorIndexFacts.one_two_three zero_options (MemoryServiceFacts.at_time 10)
           on_two_rules found_with_zero_options);
    vm_compute; reflexivity.
Defined.

End SearchOptionsFacts.

(** ** The life of the pool *)

Module PoolLifecycleFacts.
Import Pool.
Local Open Scope nat_scope.

(** *** [shutdown] is final *)

Lemma shutting_down_fire (s s' : sys) (a : action) :
  isShuttingDown (pool s) = true -> fire s a = Some s' ->
  isShuttingDown (pool s') = true.
Proof.
  intros Hs Hfire.
  assert (forall k, isShuttingDown (pool (getConnection k s)) = true) as Hget.
  { intros k. unfold getConnection. rewrite Hs. exact Hs. }
  destruct a; cbn [fire] in Hfire;
    try (unfold resume in Hfire;
         destruct (take _ (pending s)) as [others|]; [|discriminate]);
    injection Hfire as <-.
  - unfold initialize.
    generalize (Nat.min 2 (maxConnections (pool s))). intros n.
    clear Hget. revert s Hs. induction n as [|n IH]; intros s Hs; [exact Hs|].
    cbn [initialize_loop].
    destruct (Nat.leb _ _); [exact (IH s Hs)|].
    cbn [allocate]. apply IH. exact Hs.
  - apply Hget.
  - unfold releaseConnection.
    destruct (negb _); [exact Hs|].
    destruct (waitingQueue (pool s)); exact Hs.
  - unfold timeout. destruct (has _ _); exact Hs.
  - unfold cleanupIdleConnections. rewrite Hs. exact Hs.
  - reflexivity.
  - unfold health_result. destruct ok; exact Hs.
  - unfold getConnection. cbn [pool isShuttingDown]. rewrite Hs. exact Hs.
  - unfold connect_result. destruct ok; exact Hs.
  - exact Hs.
  - unfold init_connect_result. destruct ok; exact Hs.
  - unfold cleanup_next. destruct rest; exact Hs.
  - exact Hs.
Qed.

Lemma shutting_down_run (trace : list action) (s s' : sys) :
  isShuttingDown (pool s) = true -> run s trace = Some s' ->
  isShuttingDown (pool s') = true.
Proof.
  revert s. induction trace as [|a trace IH]; intros s Hs Hrun; cbn [run] in Hrun.
  - injection Hrun as <-. exact Hs.
  - destruct (fire s a) as [s1|] eqn:Hfire; [|discriminate].
    apply (IH s1); [|exact Hrun]. exact (@shutting_down_fire s s1 a Hs Hfire).
Qed.

(** X26.  Once [shutdown] has been called, whatever the pool goes through next,
    every call of [getConnection] is rejected with "Connection pool is
    shutting down" and leaves the pool and the pending work as they are. *)
Theorem getConnection_after_shutdown (s s' : sys) (later : list action) (k : Caller) :
  run s (Shutdown :: later) = Some s' ->
  getConnection k s' = settle k (Err PoolShuttingDown) s'.
Proof.
  intros Hrun. cbn [run fire] in Hrun.
  unfold getConnection.
  rewrite (@shutting_down_run later (shutdown s) s' eq_refl Hrun). reflexivity.
Qed.

(** A pool of two that is shut down, closes its connections and is then
    initialized again. *)
Definition reopened : sys :=
  match run (start 2) [Shutdown; ShutdownClosed; Initialize;
                       InitConnectResult 0 true; InitConnectResult 1 true] with
  | Some s => s
  | None => start 2
  end.

Lemma getConnection_after_shutdown_witness :
  stat_idleConnections (getStats (pool reopened)) = 2 /\
  getConnection 7 reopened = settle 7 (Err PoolShuttingDown) reopened.
Proof.
  split; [vm_compute; reflexivity|].
  apply (@getConnection_after_shutdown (start 2) reopened
           [ShutdownClosed; Initialize; InitConnectResult 0 true; InitConnectResult 1 true] 7).
  vm_compute. reflexivity.
Defined.

(** *** [cleanupIdleConnections] *)

(** The completions of the [removeConnection] calls of one cleanup. *)
Fixpoint cleanup_completions (connectionsToRemove : list Conn) : list action :=
  match connectionsToRemove with
  | [] => []
  | _ :: rest => CleanupRemoved rest :: cleanup_completions rest
  end.

Lemma remove_first_absent (c : nat) (l : list nat) : ~ In c l -> remove_first c l = l.
Proof.
  induction l as [|x l IH]; intros Hn; cbn; [reflexivity|].
  destruct (Nat.eqb_spec c x) as [->|Hne]; [exfalso; apply Hn; left; reflexivity|].
  rewrite IH; [reflexivity|]. intros Hin. apply Hn. right. exact Hin.
Qed.

Lemma remove_first_in (c x : nat) (l : list nat) : In x (remove_first c l) -> In x l.
Proof.
  induction l as [|y l IH]; cbn; [tauto|].
  destruct (Nat.eqb c y); cbn; [tauto|]. intros [->|H]; [left; reflexivity|right; auto].
Qed.

Lemma remove_first_gone (c : nat) (l : list nat) : NoDup l -> ~ In c (remove_first c l).
Proof.
  induction l as [|y l IH]; intros Hnd; cbn; [tauto|].
  inversion Hnd as [|? ? Hy Hl]; subst.
  destruct (Nat.eqb_spec c y) as [->|Hne]; [exact Hy|].
  cbn. intros [->|H]; [congruence|]. exact (IH Hl H).
Qed.

Lemma remove_first_NoDup (c : nat) (l : list nat) : NoDup l -> NoDup (remove_first c l).
Proof.
  induction l as [|y l IH]; intros Hnd; cbn; [constructor|].
  inversion Hnd as [|? ? Hy Hl]; subst.
  destruct (Nat.eqb c y); [exact Hl|].
  constructor; [|exact (IH Hl)]. intros H. apply Hy. exact (@remove_first_in c y l H).
Qed.

Lemma take_last (a : task) : take a [a] = Some [].
Proof.
  cbn. replace (task_eqb a a) with true; [reflexivity|].
  destruct a; cbn; rewrite ?Nat.eqb_refl; try reflexivity.
  destruct (list_eq_dec Nat.eq_dec rest rest); congruence.
Qed.

(** The loop of the cleanup, from any of its iterations to its end. *)
Lemma cleanup_loop (toRemove : list Conn) (s : sys) :
  pending s = [] ->
  NoDup (connections (pool s)) ->
  (forall c, In c toRemove -> ~ In c (availableConnections (pool s))) ->
  exists s',
    run (cleanup_next toRemove s) (cleanup_completions toRemove) = Some s' /\
    pending s' = [] /\
    availableConnections (pool s') = availableConnections (pool s) /\
    NoDup (connections (pool s')) /\
    (forall c, In c (connections (pool s')) -> In c (connections (pool s))) /\
    (forall c, In c toRemove -> ~ In c (connections (pool s'))).
Proof.
  revert s. induction toRemove as [|c rest IH]; intros s Hp Hnd Hav.
  - exists s. cbn. repeat split; auto.
  - cbn [cleanup_next cleanup_completions run fire].
    unfold resume, spawn. cbn [pending pool settled with_pool]. rewrite Hp. cbn [app].
    rewrite take_last.
    set (s1 := {| pool := removeConnection c (pool s); pending := []; settled := settled s |}).
    destruct (IH s1) as (s' & Hrun & Hp' & Hav' & Hnd' & Hsub & Hgone).
    + reflexivity.
    + cbn. apply remove_first_NoDup. exact Hnd.
    + intros x Hx. cbn. intros Hin. apply remove_first_in in Hin.
      exact (Hav x (or_intror Hx) Hin).
    + exists s'. split; [exact Hrun|]. split; [exact Hp'|]. split.
      * rewrite Hav'. cbn. apply remove_first_absent. apply Hav. left. reflexivity.
      * split; [exact Hnd'|]. split.
        -- intros x Hx. apply Hsub in Hx. cbn in Hx. exact (@remove_first_in c x _ Hx).
        -- intros x [<-|Hx]; [|exact (Hgone x Hx)].
           intros Hin. apply Hsub in Hin. cbn in Hin.
           exact (@remove_first_gone c _ Hnd Hin).
Qed.

(** X27.  A run of [cleanupIdleConnections] over more than two idle connections,
    with nothing else going on, keeps the two connections released last as
    the idle ones and removes every other idle connection from the pool. *)
Theorem cleanupIdleConnections_keeps_two (s : sys) :
  isShuttingDown (pool s) = false ->
  pending s = [] ->
  NoDup (connections (pool s)) ->
  NoDup (availableConnections (pool s)) ->
  2 < length (availableConnections (pool s)) ->
  let excess := length (availableConnections (pool s)) - 2 in
  let removed := firstn excess (availableConnections (pool s)) in
  exists s',
    run s (CleanupTick :: cleanup_completions removed) = Some s' /\
    pending s' = [] /\
    availableConnections (pool s') = skipn excess (availableConnections (pool s)) /\
    stat_idleConnections (getStats (pool s')) = 2 /\
    forall c, In c removed -> ~ In c (connections (pool s')).
Proof.
  intros Hs Hp Hnd Hav Hlen excess removed.
  cbn [run fire]. unfold cleanupIdleConnections. rewrite Hs. cbn [orb].
  destruct (Nat.leb_spec (length (availableConnections (pool s))) 2) as [Hle|_]; [lia|].
  fold excess. fold removed.
  set (s0 := with_pool s _).
  destruct (@cleanup_loop removed s0) as (s' & Hrun & Hp' & Hav' & _ & _ & Hgone).
  - exact Hp.
  - exact Hnd.
  - intros c Hc. cbn. intros Hin.
    rewrite <- (firstn_skipn excess (availableConnections (pool s))) in Hav.
    apply NoDup_app_remove_l in Hav as Hr.
    fold removed in Hav.
    clear - Hav Hc Hin. induction removed as [|x l IH]; [destruct Hc|].
    cbn in Hav. inversion Hav as [|? ? Hx Hl]; subst.
    destruct Hc as [->|Hc]; [|exact (IH Hl Hc)].
    apply Hx. apply in_or_app. right. exact Hin.
  - exists s'. split; [exact Hrun|]. split; [exact Hp'|]. split; [exact Hav'|].
    split; [|exact Hgone].
    cbn [getStats stat_idleConnections]. rewrite Hav'. cbn.
    rewrite length_skipn. unfold excess. lia.
Qed.

(** Four idle connections, released in the order 0, 1, 2, 3. *)
Definition four_idle : sys :=
  {| pool := {| connections := [0; 1; 2; 3]; availableConnections := [0; 1; 2; 3];
                activeConnections := []; waitingQueue := []; maxConnections := 5;
                isShuttingDown := false; nextConn := 4 |};
     pending := []; settled := [] |}.

Lemma cleanupIdleConnections_keeps_two_witness :
  exists s',
    run four_idle [CleanupTick; CleanupRemoved [1]; CleanupRemoved []] = Some s' /\
    pending s' = [] /\
    availableConnections (pool s') = [2; 3] /\
    stat_idleConnections (getStats (pool s')) = 2 /\
    forall c, In c [0; 1] -> ~ In c (connections (pool s')).
Proof.
  apply (@cleanupIdleConnections_keeps_two four_idle).
  - reflexivity.
  - reflexivity.
  - vm_compute. repeat constructor; cbn; intuition discriminate.
  - vm_compute. repeat constructor; cbn; intuition discriminate.
  - vm_compute. lia.
Defined.

End PoolLifecycleFacts.

(** ** Migrations *)

Module MigrationRunnerFacts.
Import Sql Migrations MigrationRunner.
Local Open Scope sql_scope.













(** X30.  Rolling back the migrations of the list [migrations] never succeeds.
    The [down] statements of the initial migration drop [schema_migrations]
    before the record of the migration is deleted from it, so the call
    fails, and the [ROLLBACK] of its handler puts the database back to where
    the open transaction started: to the state of the call, or to the start
    of a transaction the caller had open. *)
Theorem rollbackMigration_never_succeeds (db : Db) :
  Forall
    (fun migration =>
       exists e,
         rollbackMigration migration db =
         (Err e,
          {| data := match transaction db with Some saved => saved | None => data db end;
             transaction := None |}))
    migrations.
Proof.
  repeat constructor. unfold rollbackMigration, try_catch, mbind at 1, begin_transaction.
  destruct (transaction db) as [saved|] eqn:Htx.
  - eexists. unfold mbind, rollback, throw. rewrite Htx. reflexivity.
  - eexists. cbn [down version for_each execute_down migrations].
    unfold mbind, drop_table, delete_migration, rollback, throw, ret.
    cbn [data with_data schema_migrations transaction].
    replace (same_name "schema_migrations" "schema_migrations") with true by reflexivity.
    cbn [data with_data schema_migrations transaction]. reflexivity.
Qed.

End MigrationRunnerFacts.
